(** * The XXZZ rotated surface code: lattice geometry, stabilizer protocols
      and readout decoding of [topological_codes/circuits/xxzz.py].

    Python integers are unbounded, so they are [Z]; [//] and [%] are floor
    division and its remainder, which is what [Z.div] and [Z.modulo] compute
    for a non-zero divisor.  A Python exception is a value of [exn]; code that
    mutates the shared circuit object threads it through a state monad whose
    state survives a raise, as the object does in Python. *)

From Stdlib Require Import ZArith QArith Lia List Ascii String Sorted.
From stdpp Require Import gmap strings list pretty.
Import ListNotations.

Local Open Scope string_scope.
Local Open Scope list_scope.
Local Open Scope Z_scope.

(** ** Exceptions and the two monads *)

Inductive exn : Type :=
| LatticeError (msg : string)
| ValueError
| IndexError
| KeyError (key : string)
| TypeError
| AssertionError
| ZeroDivisionError
| CircuitError.

(** A pure computation that may raise. *)
Definition Res (A : Type) : Type := exn + A.

Definition res_bind {A B} (m : Res A) (f : A -> Res B) : Res B :=
  match m with
  | inl e => inl e
  | inr a => f a
  end.

(** A computation over a mutable object of type [S]: the object is returned
    also when the computation raises. *)
Definition M (S A : Type) : Type := S -> Res A * S.

Definition m_ret {S A} (a : A) : M S A := fun s => (inr a, s).

Definition m_raise {S A} (e : exn) : M S A := fun s => (inl e, s).

Definition m_bind {S A B} (m : M S A) (f : A -> M S B) : M S B :=
  fun s =>
    match m s with
    | (inl e, s') => (inl e, s')
    | (inr a, s') => f a s'
    end.

Definition m_get {S} : M S S := fun s => (inr s, s).

Definition m_modify {S} (f : S -> S) : M S unit := fun s => (inr tt, f s).

Declare Scope res_scope.
Delimit Scope res_scope with res.
Declare Scope st_scope.
Delimit Scope st_scope with st.

Notation "x <- m ;; k" := (res_bind m (fun x => k))
  (at level 100, m at next level, right associativity) : res_scope.
Notation "x <- m ;; k" := (m_bind m (fun x => k))
  (at level 100, m at next level, right associativity) : st_scope.
Notation "m ;;; k" := (m_bind m (fun _ => k))
  (at level 100, right associativity) : st_scope.

Fixpoint res_mapM {A B} (f : A -> Res B) (l : list A) : Res (list B) :=
  match l with
  | [] => inr []
  | a :: l' =>
      (b <- f a ;; bs <- res_mapM f l' ;; inr (b :: bs))%res
  end.

(** Run [f] on every element in order, stopping at the first raise. *)
Fixpoint m_iter {S A} (f : A -> M S unit) (l : list A) : M S unit :=
  match l with
  | [] => m_ret tt
  | a :: l' => (f a ;;; m_iter f l')%st
  end.

(** ** Python built-ins used by the module *)

Definition py_floordiv (a b : Z) : Res Z :=
  if decide (b = 0) then inl ZeroDivisionError else inr (a / b).

Definition py_mod (a b : Z) : Res Z :=
  if decide (b = 0) then inl ZeroDivisionError else inr (a mod b).

(** [range(stop)]. *)
Definition py_range (stop : Z) : list Z :=
  map Z.of_nat (seq 0 (Z.to_nat stop)).

(** [range(start, stop, step)]; a zero step is a [ValueError]. *)
Definition py_range3 (start stop step : Z) : Res (list Z) :=
  if decide (step = 0) then inl ValueError
  else
    let n :=
      if decide (0 < step) then (stop - start + step - 1) / step
      else (start - stop - step - 1) / (- step) in
    inr (map (fun k => start + Z.of_nat k * step) (seq 0 (Z.to_nat n))).

(** [l[i]] on a list: a negative index counts from the end. *)
Definition py_index {A} (l : list A) (i : Z) : Res A :=
  let n := Z.of_nat (length l) in
  let j := if decide (i < 0) then i + n else i in
  if decide (0 <= j < n) then
    match l !! Z.to_nat j with
    | Some a => inr a
    | None => inl IndexError
    end
  else inl IndexError.

(** The bound of a slice, clamped as Python does. *)
Definition slice_bound (i n : Z) : Z :=
  if decide (i < 0) then Z.max 0 (i + n) else Z.min i n.

(** [l[lo:hi]]. *)
Definition py_slice {A} (l : list A) (lo hi : Z) : list A :=
  let n := Z.of_nat (length l) in
  let a := slice_bound lo n in
  let b := slice_bound hi n in
  take (Z.to_nat (b - a)) (drop (Z.to_nat a) l).

Definition chars (s : string) : list ascii := list_ascii_of_string s.
Definition of_chars (l : list ascii) : string := string_of_list_ascii l.

Definition str_len (s : string) : Z := Z.of_nat (String.length s).

(** [s[lo:]] and [s[:hi]] on strings. *)
Definition str_from (s : string) (lo : Z) : string :=
  of_chars (py_slice (chars s) lo (str_len s)).
Definition str_upto (s : string) (hi : Z) : string :=
  of_chars (py_slice (chars s) 0 hi).

(** [c * n] for a one-character string [c]. *)
Definition str_repeat (c : ascii) (n : Z) : string :=
  of_chars (repeat c (Z.to_nat n)).

(** [s.split(" ")]: every single space separates, so two spaces in a row
    give an empty chunk and the empty string gives one empty chunk. *)
Fixpoint split_chars (cur : list ascii) (l : list ascii) : list string :=
  match l with
  | [] => [of_chars (rev cur)]
  | c :: l' =>
      if Ascii.eqb c " "%char then of_chars (rev cur) :: split_chars [] l'
      else split_chars (c :: cur) l'
  end.

Definition py_split (s : string) : list string := split_chars [] (chars s).

(** [int(c)] for a one-character string. *)
Definition int_of_char (c : ascii) : Res Z :=
  let n := Z.of_N (N_of_ascii c) in
  if decide (48 <= n <= 57) then inr (n - 48) else inl ValueError.

(** [int(s)] where [s] has at most one character. *)
Definition int_of_short (s : string) : Res Z :=
  match chars s with
  | [c] => int_of_char c
  | _ => inl ValueError
  end.

Definition bit_of_char (c : ascii) : Res Z :=
  if Ascii.eqb c "0"%char then inr 0
  else if Ascii.eqb c "1"%char then inr 1
  else inl ValueError.

Fixpoint bin_value (acc : Z) (l : list ascii) : Res Z :=
  match l with
  | [] => inr acc
  | c :: l' => (b <- bit_of_char c ;; bin_value (2 * acc + b) l')%res
  end.

(** [int(s, base=2)] on a string of binary digits, most significant first.
    The empty string is a [ValueError].  Python also accepts a sign, a "0b"
    prefix, underscores between digits and surrounding white space; these
    forms are outside this model, which raises on them, and the theorems
    below only use it on strings of 0 and 1. *)
Definition int_base2 (s : string) : Res Z :=
  match chars s with
  | [] => inl ValueError
  | l => bin_value 0 l
  end.

(** [str(n)]. *)
Definition py_str (n : Z) : string := pretty n.

(** Truth value of an [int]. *)
Definition truthy (n : Z) : bool := negb (n =? 0).

(** ** The circuit object (external collaborator) *)

Record QReg := { qreg_size : Z; qreg_name : string }.
Record CReg := { creg_size : Z; creg_name : string }.
Record Qubit := { q_reg : QReg; q_idx : Z }.
Record Clbit := { c_reg : CReg; c_idx : Z }.

#[global] Instance QReg_eq_dec : EqDecision QReg.
Proof. solve_decision. Defined.
#[global] Instance CReg_eq_dec : EqDecision CReg.
Proof. solve_decision. Defined.
#[global] Instance Qubit_eq_dec : EqDecision Qubit.
Proof. solve_decision. Defined.
#[global] Instance Clbit_eq_dec : EqDecision Clbit.
Proof. solve_decision. Defined.

Inductive Op : Type :=
| OpH (q : Qubit)
| OpCX (control target : Qubit)
| OpMeasure (q : Qubit) (c : Clbit)
| OpReset (q : Qubit)
| OpBarrier.

(** A [QuantumCircuit]: the operations appended so far and the classical
    registers added so far. *)
Record Circuit := { ops : list Op; circ_cregs : list CReg }.

Definition emit (l : list Op) : M Circuit unit :=
  m_modify (fun c => {| ops := ops c ++ l; circ_cregs := circ_cregs c |}).

(** A [Qubit] object is always true in a condition; [None] is false. *)
Definition present {A} (o : option A) : bool :=
  match o with Some _ => true | None => false end.

Definition circ_h (q : Qubit) : M Circuit unit := emit [OpH q].

(** [circ.cx(control, target)]; the circuit library refuses [None], and it
    refuses a unit that is control and target at once ("duplicate qubit
    arguments"); in both cases nothing is appended. *)
Definition circ_cx (control target : option Qubit) : M Circuit unit :=
  match control, target with
  | Some c, Some t =>
      if decide (c = t) then m_raise CircuitError else emit [OpCX c t]
  | _, _ => m_raise CircuitError
  end.

Definition circ_barrier : M Circuit unit := emit [OpBarrier].

Definition qreg_bits (r : QReg) : list Qubit :=
  map (fun i => {| q_reg := r; q_idx := i |}) (py_range (qreg_size r)).

Definition creg_bits (r : CReg) : list Clbit :=
  map (fun i => {| c_reg := r; c_idx := i |}) (py_range (creg_size r)).

(** [circ.reset(qreg)]: one reset per unit of the register. *)
Definition circ_reset (r : QReg) : M Circuit unit :=
  emit (map OpReset (qreg_bits r)).

(** [circ.measure(qreg, clbits)]: index-aligned when the sizes agree, one
    unit into every bit when the register has a single unit, refused
    otherwise. *)
Definition circ_measure (qs : list Qubit) (cs : list Clbit) : M Circuit unit :=
  if decide (length qs = length cs) then
    emit (zip_with OpMeasure qs cs)
  else
    match qs with
    | [q] => emit (map (OpMeasure q) cs)
    | _ => m_raise CircuitError
    end.

Definition circ_add_register (r : CReg) : M Circuit unit :=
  m_modify (fun c => {| ops := ops c; circ_cregs := circ_cregs c ++ [r] |}).

(** [reg[i]] on a register. *)
Definition qreg_getitem (r : QReg) (i : Z) : Res Qubit :=
  py_index (qreg_bits r) i.

(** ** Stabilizer plaquettes *)

(** The five entries [syndrome, top_l, top_r, bot_l, bot_r] of a plaquette;
    [A] is [Z] in the geometry and [Qubit] in the circuit. *)
Record Plaquette (A : Type) := mkPlaquette {
  syndrome : A;
  top_l : option A;
  top_r : option A;
  bot_l : option A;
  bot_r : option A
}.
Arguments mkPlaquette {A}.
Arguments syndrome {A}.
Arguments top_l {A}.
Arguments top_r {A}.
Arguments bot_l {A}.
Arguments bot_r {A}.

(** [idx_list[1:]] *)
Definition neighbors {A} (p : Plaquette A) : list (option A) :=
  [top_l p; top_r p; bot_l p; bot_r p].

Inductive Stabilizer : Type := XXXX | ZZZZ.

Definition when {S} (b : bool) (m : M S unit) : M S unit :=
  if b then m else m_ret tt.

(** [_XXXX.entangle] *)
Definition XXXX_entangle (qi : Plaquette Qubit) : M Circuit unit :=
  if (present (top_r qi) && negb (present (top_l qi)))
     || (present (bot_r qi) && negb (present (bot_l qi)))
  then m_raise (LatticeError "Inconsistent X syndrome connections")
  else
    (circ_h (syndrome qi) ;;;
     when (present (top_r qi))
       (circ_cx (Some (syndrome qi)) (top_r qi) ;;;
        circ_cx (Some (syndrome qi)) (top_l qi)) ;;;
     when (present (bot_r qi))
       (circ_cx (Some (syndrome qi)) (bot_r qi) ;;;
        circ_cx (Some (syndrome qi)) (bot_l qi)) ;;;
     circ_h (syndrome qi))%st.

(** [_ZZZZ.entangle] *)
Definition ZZZZ_entangle (qi : Plaquette Qubit) : M Circuit unit :=
  if (present (top_r qi) && negb (present (bot_r qi)))
     || (present (top_l qi) && negb (present (bot_l qi)))
  then m_raise (LatticeError "Inconsistent Z syndrome connections")
  else
    (when (present (top_r qi))
       (circ_cx (top_r qi) (Some (syndrome qi)) ;;;
        circ_cx (bot_r qi) (Some (syndrome qi))) ;;;
     when (present (top_l qi))
       (circ_cx (top_l qi) (Some (syndrome qi)) ;;;
        circ_cx (bot_l qi) (Some (syndrome qi))))%st.

Definition entangle_of (k : Stabilizer) : Plaquette Qubit -> M Circuit unit :=
  match k with
  | XXXX => XXXX_entangle
  | ZZZZ => ZZZZ_entangle
  end.

(** ** [_XXZZLattice] *)

(** [params[k]] *)
Definition param (params : gmap string Z) (k : string) : Res Z :=
  match params !! k with
  | Some v => inr v
  | None => inl (KeyError k)
  end.

(** What [_XXZZLattice.__init__] hands to the constructor of its base class
    (which is not part of this module): the registers and the completed
    parameter dictionary.  [QuantumRegister (size, name)] is taken as a plain
    constructor; what the circuit library thinks of a size is not modelled. *)
Record LatticeArgs := {
  la_qregisters : gmap string QReg;
  la_cregisters : gmap string CReg;
  la_params : gmap string Z;
  la_name : string
}.

(** [_XXZZLattice.__init__], up to the call of the base constructor. *)
Definition XXZZLattice_init (params : gmap string Z) (name : string)
  : Res LatticeArgs :=
  match params !! "d" with
  | None => inl (LatticeError "Please include a d param.")
  | Some d =>
      if decide (d mod 2 <> 1)
      then inl (LatticeError "Surface code distance must be odd!")
      else
        let params := <["T" := -1]> params in
        let params := <["num_readout" := -1]> params in
        let params := <["num_lattice_readout" := -1]> params in
        (d1 <- param params "d" ;;
         let params := <["num_data" := d1 ^ 2]> params in
         d2 <- param params "d" ;;
         let params := <["num_syn" := (d2 ^ 2 - 1) / 2]> params in
         num_data <- param params "num_data" ;;
         let qregisters : gmap string QReg :=
           {[ "data" := {| qreg_size := num_data;
                           qreg_name := name +:+ "_data" |} ]} in
         num_syn <- param params "num_syn" ;;
         let qregisters :=
           <["mz" := {| qreg_size := num_syn;
                        qreg_name := name +:+ "_mz" |}]> qregisters in
         let qregisters :=
           <["mx" := {| qreg_size := num_syn;
                        qreg_name := name +:+ "_mx" |}]> qregisters in
         let qregisters :=
           <["ancilla" := {| qreg_size := 1;
                             qreg_name := name +:+ "_ancilla" |}]> qregisters in
         inr {| la_qregisters := qregisters;
                la_cregisters := ∅;
                la_params := params;
                la_name := name |})%res
  end.

(** One pass of the first loop of [_geometry]: the X-type record of [syn]. *)
Definition mx_record (d syn : Z) : Res (Plaquette Z) :=
  let per_row_x := (d - 1) / 2 in
  (row <- py_floordiv syn per_row_x ;;
   offset <- py_mod syn per_row_x ;;
   let start := (row - 1) * d in
   let row_parity := row mod 2 in
   inr (if decide (row = 0) then
          mkPlaquette syn None None (Some (syn * 2)) (Some (syn * 2 + 1))
        else if decide (row = d) then
          mkPlaquette syn (Some (syn * 2 + 1)) (Some (syn * 2 + 2)) None None
        else
          mkPlaquette syn
            (Some (start + (offset * 2) + row_parity))
            (Some (start + (offset * 2) + row_parity + 1))
            (Some (start + d + (offset * 2) + row_parity))
            (Some (start + d + (offset * 2) + row_parity + 1))))%res.

(** One pass of the second loop of [_geometry]: the Z-type record of [syn]. *)
Definition mz_record (d syn : Z) : Res (Plaquette Z) :=
  let per_row_z := (d + 1) / 2 in
  (row <- py_floordiv syn per_row_z ;;
   offset <- py_mod syn per_row_z ;;
   let start := row * d in
   let row_parity := row mod 2 in
   let top_l := start + (offset * 2) - row_parity in
   let top_r := start + (offset * 2) - row_parity + 1 in
   let bot_l := start + d + (offset * 2) - row_parity in
   let bot_r := start + d + (offset * 2) - row_parity + 1 in
   inr (if decide (row_parity = 0 /\ offset = per_row_z - 1) then
          mkPlaquette syn (Some top_l) None (Some bot_l) None
        else if decide (row_parity = 1 /\ offset = 0) then
          mkPlaquette syn None (Some top_r) None (Some bot_r)
        else
          mkPlaquette syn (Some top_l) (Some top_r) (Some bot_l) (Some bot_r)))%res.

(** The geometry dictionary keeps its keys in insertion order, "mx" before
    "mz"; [gen_qubit_indices_and_stabilizers] walks it in that order. *)
Definition Geometry : Type := list (string * list (Plaquette Z)).

(** [_XXZZLattice._geometry] *)
Definition _geometry (params : gmap string Z) : Res Geometry :=
  (d <- param params "d" ;;
   n1 <- param params "num_syn" ;;
   mx <- res_mapM (mx_record d) (py_range n1) ;;
   n2 <- param params "num_syn" ;;
   mz <- res_mapM (mz_record d) (py_range n2) ;;
   inr [("mx", mx); ("mz", mz)])%res.

(** [geometry[k]] *)
Fixpoint geometry_get (g : Geometry) (k : string) : Res (list (Plaquette Z)) :=
  match g with
  | [] => inl (KeyError k)
  | (k', v) :: g' => if decide (k' = k) then inr v else geometry_get g' k
  end.

(** [self.stabilizer_shortnames[k]] *)
Definition stabilizer_shortnames (k : string) : Res Stabilizer :=
  if decide (k = "mx") then inr XXXX
  else if decide (k = "mz") then inr ZZZZ
  else inl (KeyError k).

Definition qregisters_get (q : gmap string QReg) (k : string) : Res QReg :=
  match q !! k with
  | Some r => inr r
  | None => inl (KeyError k)
  end.

(** The state of a constructed lattice.  The circuit it writes to is the one
    of the logical qubit that owns it and lives there. *)
Record Lattice := mkLattice {
  params : gmap string Z;
  lattice_name : string;
  qregisters : gmap string QReg;
  cregisters : gmap string CReg;
  geometry : Geometry;
  qubit_indices : list (Plaquette Qubit);
  stabilizers : list Stabilizer
}.

Definition data_neighbor (q : gmap string QReg) (idx : option Z)
  : Res (option Qubit) :=
  match idx with
  | Some i => (r <- qregisters_get q "data" ;; b <- qreg_getitem r i ;;
               inr (Some b))%res
  | None => inr None
  end.

(** The body of the inner loop of [gen_qubit_indices_and_stabilizers]. *)
Definition plaquette_qubits (q : gmap string QReg) (stabilizer : string)
    (idx_list : Plaquette Z) : Res (Plaquette Qubit) :=
  (r <- qregisters_get q stabilizer ;;
   syn <- qreg_getitem r (syndrome idx_list) ;;
   tl <- data_neighbor q (top_l idx_list) ;;
   tr <- data_neighbor q (top_r idx_list) ;;
   bl <- data_neighbor q (bot_l idx_list) ;;
   br <- data_neighbor q (bot_r idx_list) ;;
   inr (mkPlaquette syn tl tr bl br))%res.

Fixpoint gen_loop (q : gmap string QReg) (g : Geometry)
  : Res (list (Plaquette Qubit) * list Stabilizer) :=
  match g with
  | [] => inr ([], [])
  | (stabilizer, idx_lists) :: g' =>
      (stabilizer_cls <- stabilizer_shortnames stabilizer ;;
       ps <- res_mapM (plaquette_qubits q stabilizer) idx_lists ;;
       rest <- gen_loop q g' ;;
       inr (ps ++ fst rest, map (fun _ => stabilizer_cls) ps ++ snd rest))%res
  end.

(** [_XXZZLattice.gen_qubit_indices_and_stabilizers]: the geometry it stores
    and the two lists it returns. *)
Definition gen_qubit_indices_and_stabilizers (p : gmap string Z)
    (q : gmap string QReg)
  : Res (Geometry * (list (Plaquette Qubit) * list Stabilizer)) :=
  (g <- _geometry p ;;
   r <- gen_loop q g ;;
   inr (g, r))%res.

(** *** Final stabilizer round and logical bit from a lattice readout *)

Fixpoint res_foldl {A B} (f : A -> B -> Res A) (l : list B) (a : A) : Res A :=
  match l with
  | [] => inr a
  | b :: l' => (a' <- f a b ;; res_foldl f l' a')%res
  end.

Definition zsum (l : list Z) : Z := fold_left Z.add l 0.

(** [readout_values[idx] if idx != None else 0] *)
Definition neighbor_value (readout_values : list Z) (idx : option Z) : Res Z :=
  match idx with
  | Some i => py_index readout_values i
  | None => inr 0
  end.

(** The value a plaquette contributes: the sum of its neighbours' readout
    values, modulo 2. *)
Definition stabilizer_val (readout_values : list Z) (idx_list : Plaquette Z)
  : Res Z :=
  (vs <- res_mapM (neighbor_value readout_values) (neighbors idx_list) ;;
   inr (zsum vs mod 2))%res.

(** The loop that builds [x_stabilizer] (or [z_stabilizer]): every value is
    put in front of the string built so far. *)
Definition stabilizer_string (readout_values : list Z)
    (records : list (Plaquette Z)) : Res string :=
  res_foldl
    (fun acc idx_list =>
       (v <- stabilizer_val readout_values idx_list ;;
        inr (py_str v +:+ acc))%res)
    records "".

(** The loop that accumulates the logical readout over the given indices. *)
Definition logical_parity (readout_values : list Z) (idxs : list Z) : Res Z :=
  res_foldl
    (fun logical_readout idx =>
       (v <- py_index readout_values idx ;;
        inr ((logical_readout + v) mod 2))%res)
    idxs 0.

(** [_XXZZLattice.extract_final_stabilizer_and_logical_readout_x] *)
Definition extract_final_stabilizer_and_logical_readout_x (L : Lattice)
    (final_readout_string previous_syndrome_string : string)
  : Res (Z * string) :=
  (readout_values <- res_mapM int_of_char (chars final_readout_string) ;;
   let readout_values := rev readout_values in
   mx <- geometry_get (geometry L) "mx" ;;
   x_stabilizer <- stabilizer_string readout_values mx ;;
   num_syn <- param (params L) "num_syn" ;;
   let stabilizer_str :=
     x_stabilizer +:+ str_from previous_syndrome_string num_syn in
   num_data <- param (params L) "num_data" ;;
   d <- param (params L) "d" ;;
   idxs <- py_range3 0 num_data d ;;
   logical_readout <- logical_parity readout_values idxs ;;
   inr (logical_readout, stabilizer_str))%res.

(** [_XXZZLattice.extract_final_stabilizer_and_logical_readout_z] *)
Definition extract_final_stabilizer_and_logical_readout_z (L : Lattice)
    (final_readout_string previous_syndrome_string : string)
  : Res (Z * string) :=
  (readout_values <- res_mapM int_of_char (chars final_readout_string) ;;
   let readout_values := rev readout_values in
   mz <- geometry_get (geometry L) "mz" ;;
   z_stabilizer <- stabilizer_string readout_values mz ;;
   num_syn <- param (params L) "num_syn" ;;
   let stabilizer_str :=
     str_upto previous_syndrome_string num_syn +:+ z_stabilizer in
   d <- param (params L) "d" ;;
   logical_readout <- logical_parity readout_values (py_range d) ;;
   inr (logical_readout, stabilizer_str))%res.

(** [_XXZZLattice.extract_final_stabilizer_and_logical_readout]; a readout
    type other than "X" and "Z" falls through and gives Python's [None]. *)
Definition extract_final_stabilizer_and_logical_readout (L : Lattice)
    (final_readout_string previous_syndrome_string readout_type : string)
  : Res (option (Z * string)) :=
  if decide (readout_type = "X") then
    (r <- extract_final_stabilizer_and_logical_readout_x L
            final_readout_string previous_syndrome_string ;;
     inr (Some r))%res
  else if decide (readout_type = "Z") then
    (r <- extract_final_stabilizer_and_logical_readout_z L
            final_readout_string previous_syndrome_string ;;
     inr (Some r))%res
  else inr None.

(** *** The transcript parser *)

(** [a >> n] and [a << n]; a negative count is a [ValueError]. *)
Definition py_rshift (a n : Z) : Res Z :=
  if decide (n < 0) then inl ValueError else inr (Z.shiftr a n).
Definition py_lshift (a n : Z) : Res Z :=
  if decide (n < 0) then inl ValueError else inr (Z.shiftl a n).

Definition enumerate {A} (l : list A) : list (Z * A) :=
  zip (py_range (Z.of_nat (length l))) l.

(** A space-time coordinate [(time, row, col)].  The source computes it in
    floating point; every value it forms is an integer or an integer plus
    one half, which binary64 represents exactly below 2^52, so rationals
    give the same numbers. *)
Definition TQubit : Type := Q * Q * Q.

Definition half : Q := 1 # 2.

(** [(float(T), -0.5 + loc, 0.5 + loc % 2)] *)
Definition X_coord (T loc : Z) : TQubit :=
  (inject_Z T, (Qopp half + inject_Z loc)%Q, (half + inject_Z (loc mod 2))%Q).

(** [(float(T), 0.5 + loc // 2, 0.5 + loc % 2 * 2 - loc // 2)] *)
Definition Z_coord (T loc : Z) : TQubit :=
  (inject_Z T, (half + inject_Z (loc / 2))%Q,
   (half + inject_Z (loc mod 2 * 2) - inject_Z (loc / 2))%Q).

(** The two nested loops that fill [X] (or [Z]): one pass per transition
    and, inside, one per plaquette index, appending in that order. *)
Definition defect_loop (coord : Z -> Z -> TQubit) (num_syn : Z)
    (syndromes : list Z) : Res (list TQubit) :=
  (hits <- res_mapM
     (fun '(T, syndrome) =>
        (per_loc <- res_mapM
           (fun loc =>
              (m <- py_lshift 1 loc ;;
               inr (if truthy (Z.land syndrome m) then [coord T loc]
                    else []))%res)
           (py_range num_syn) ;;
         inr (concat per_loc))%res)
     (enumerate syndromes) ;;
   inr (concat hits))%res.

(** [_XXZZLattice.parse_readout] *)
Definition parse_readout (L : Lattice) (readout_string : string)
    (readout_type : option string)
  : Res (Z * gmap string (list TQubit)) :=
  let chunks := py_split readout_string in
  (c0 <- py_index chunks 0 ;;
   first <-
     (if decide (1 < str_len c0) then
        match readout_type with
        | None => inl AssertionError
        | Some rt =>
            c1 <- py_index chunks 1 ;;
            r <- extract_final_stabilizer_and_logical_readout L c0 c1 rt ;;
            match r with
            | None => inl TypeError
            | Some (logical_readout, final_stabilizer) =>
                inr (logical_readout,
                     final_stabilizer
                       :: py_slice chunks 1 (Z.of_nat (length chunks)))
            end
        end
      else
        logical_readout <- int_of_short c0 ;;
        inr (logical_readout,
             py_slice chunks 1 (Z.of_nat (length chunks)))) ;;
   let logical_readout := fst first in
   let chunks := snd first in
   int_syndromes <- res_mapM int_base2 (rev chunks) ;;
   let xor_syndromes :=
     zip_with Z.lxor int_syndromes (py_slice int_syndromes 1
                                      (Z.of_nat (length int_syndromes))) in
   n1 <- param (params L) "num_syn" ;;
   let mask_Z := str_repeat "1" n1 in
   n2 <- param (params L) "num_syn" ;;
   let mask_X := mask_Z +:+ str_repeat "0" n2 in
   X_syndromes <- res_mapM
     (fun x =>
        m <- int_base2 mask_X ;;
        n <- param (params L) "num_syn" ;;
        py_rshift (Z.land x m) n)
     xor_syndromes ;;
   Z_syndromes <- res_mapM
     (fun x => m <- int_base2 mask_Z ;; inr (Z.land x m))
     xor_syndromes ;;
   n3 <- param (params L) "num_syn" ;;
   X <- defect_loop X_coord n3 X_syndromes ;;
   Zs <- defect_loop Z_coord n3 Z_syndromes ;;
   inr (logical_readout, {[ "X" := X; "Z" := Zs ]}))%res.

(** ** [XXZZQubit] *)

(** The logical qubit: its name, the circuit it shares with its lattice, and
    the lattice. *)
Record XXZZQubit := mkQubit {
  name : string;
  circ : Circuit;
  lattice : Lattice
}.

Definition on_circ {A} (m : M Circuit A) : M XXZZQubit A :=
  fun s =>
    let '(r, c) := m (circ s) in
    (r, {| name := name s; circ := c; lattice := lattice s |}).

Definition set_param (k : string) (v : Z) : M XXZZQubit unit :=
  m_modify (fun s =>
    let L := lattice s in
    {| name := name s; circ := circ s;
       lattice := {| params := <[k := v]> (params L);
                     lattice_name := lattice_name L;
                     qregisters := qregisters L;
                     cregisters := cregisters L;
                     geometry := geometry L;
                     qubit_indices := qubit_indices L;
                     stabilizers := stabilizers L |} |}).

Definition set_cregister (k : string) (r : CReg) : M XXZZQubit unit :=
  m_modify (fun s =>
    let L := lattice s in
    {| name := name s; circ := circ s;
       lattice := {| params := params L;
                     lattice_name := lattice_name L;
                     qregisters := qregisters L;
                     cregisters := <[k := r]> (cregisters L);
                     geometry := geometry L;
                     qubit_indices := qubit_indices L;
                     stabilizers := stabilizers L |} |}).

Definition get_param (k : string) : M XXZZQubit Z :=
  fun s => (param (params (lattice s)) k, s).

Definition get_qregister (k : string) : M XXZZQubit QReg :=
  fun s => (qregisters_get (qregisters (lattice s)) k, s).

(** Modelled from the spec: [entangle ()] of the base class
    [_TopologicalLattice], which is not in this module.  The spec has a
    round apply every plaquette's protocol across both families; the
    plaquettes and their protocols are the two lists that
    [gen_qubit_indices_and_stabilizers] returns, taken in order. *)
Definition lattice_entangle : M XXZZQubit unit :=
  (s <- m_get ;;
   on_circ
     (m_iter (fun '(cls, qi) => entangle_of cls qi)
        (zip (stabilizers (lattice s)) (qubit_indices (lattice s)))))%st.

(** [XXZZQubit.stabilize] *)
Definition stabilize : M XXZZQubit unit :=
  (T0 <- get_param "T" ;;
   set_param "T" (T0 + 1) ;;;
   num_syn <- get_param "num_syn" ;;
   s <- m_get ;;
   T1 <- get_param "T" ;;
   let syndrome_readouts :=
     {| creg_size := num_syn * 2;
        creg_name := name s +:+ "_c" +:+ py_str T1 |} in
   T2 <- get_param "T" ;;
   set_cregister ("syndrome" +:+ py_str T2) syndrome_readouts ;;;
   on_circ (circ_add_register syndrome_readouts) ;;;
   lattice_entangle ;;;
   mz <- get_qregister "mz" ;;
   n1 <- get_param "num_syn" ;;
   on_circ (circ_measure (qreg_bits mz)
              (py_slice (creg_bits syndrome_readouts) 0 n1)) ;;;
   mx <- get_qregister "mx" ;;
   n2 <- get_param "num_syn" ;;
   n3 <- get_param "num_syn" ;;
   on_circ (circ_measure (qreg_bits mx)
              (py_slice (creg_bits syndrome_readouts) n2 (n3 * 2))) ;;;
   mz' <- get_qregister "mz" ;;
   on_circ (circ_reset mz') ;;;
   mx' <- get_qregister "mx" ;;
   on_circ (circ_reset mx') ;;;
   on_circ circ_barrier)%st.

(** ** A distance-3 lattice, as construction leaves it *)

Definition params3 : gmap string Z :=
  {[ "d" := 3; "T" := -1; "num_readout" := -1; "num_lattice_readout" := -1;
     "num_data" := 9; "num_syn" := 4 ]}.

Definition qregisters3 : gmap string QReg :=
  {[ "data" := {| qreg_size := 9; qreg_name := "tqubit_data" |};
     "mz" := {| qreg_size := 4; qreg_name := "tqubit_mz" |};
     "mx" := {| qreg_size := 4; qreg_name := "tqubit_mx" |};
     "ancilla" := {| qreg_size := 1; qreg_name := "tqubit_ancilla" |} ]}.

Definition geometry3 : Geometry :=
  [("mx", [mkPlaquette 0 None None (Some 0) (Some 1);
           mkPlaquette 1 (Some 1) (Some 2) (Some 4) (Some 5);
           mkPlaquette 2 (Some 3) (Some 4) (Some 6) (Some 7);
           mkPlaquette 3 (Some 7) (Some 8) None None]);
   ("mz", [mkPlaquette 0 (Some 0) (Some 1) (Some 3) (Some 4);
           mkPlaquette 1 (Some 2) None (Some 5) None;
           mkPlaquette 2 None (Some 3) None (Some 6);
           mkPlaquette 3 (Some 4) (Some 5) (Some 7) (Some 8)])].

Definition lattice3 : Lattice :=
  Eval vm_compute in
    match gen_loop qregisters3 geometry3 with
    | inr (qi, st) =>
        mkLattice params3 "tqubit" qregisters3 ∅ geometry3 qi st
    | inl _ => mkLattice params3 "tqubit" qregisters3 ∅ geometry3 [] []
    end.

(** ** Statements of the specification, for comparison with the code *)

(** The presence symmetry of an X-type plaquette: the two top neighbours are
    present together, and so are the two bottom ones. *)
Definition X_symmetric {A} (p : Plaquette A) : Prop :=
  present (top_r p) = present (top_l p)
  /\ present (bot_r p) = present (bot_l p).

(** The presence symmetry of a Z-type plaquette: the two right neighbours
    are present together, and so are the two left ones. *)
Definition Z_symmetric {A} (p : Plaquette A) : Prop :=
  present (top_r p) = present (bot_r p)
  /\ present (top_l p) = present (bot_l p).

(** The operations the spec lists for a pair of neighbours, if present. *)
Definition pair_ops (f : Qubit -> Op) (first second : option Qubit) : list Op :=
  match first, second with
  | Some a, Some b => [f a; f b]
  | _, _ => []
  end.

(** The X-type protocol in the spec's words: basis change, the top pair
    (right, then left), the bottom pair (right, then left), basis change. *)
Definition spec_X_protocol (p : Plaquette Qubit) : list Op :=
  [OpH (syndrome p)]
  ++ pair_ops (OpCX (syndrome p)) (top_r p) (top_l p)
  ++ pair_ops (OpCX (syndrome p)) (bot_r p) (bot_l p)
  ++ [OpH (syndrome p)].

(** The Z-type protocol in the spec's words: the right pair (top, then
    bottom), the left pair (top, then bottom), each into the syndrome. *)
Definition spec_Z_protocol (p : Plaquette Qubit) : list Op :=
  pair_ops (fun q => OpCX q (syndrome p)) (top_r p) (bot_r p)
  ++ pair_ops (fun q => OpCX q (syndrome p)) (top_l p) (bot_l p).

Definition spec_protocol (k : Stabilizer) : Plaquette Qubit -> list Op :=
  match k with
  | XXXX => spec_X_protocol
  | ZZZZ => spec_Z_protocol
  end.

Definition append_ops (c : Circuit) (l : list Op) : Circuit :=
  {| ops := ops c ++ l; circ_cregs := circ_cregs c |}.

(** The conditions under which the two guards fire. *)
Definition X_guard (p : Plaquette Qubit) : bool :=
  (present (top_r p) && negb (present (top_l p)))
  || (present (bot_r p) && negb (present (bot_l p))).

Definition Z_guard (p : Plaquette Qubit) : bool :=
  (present (top_r p) && negb (present (bot_r p)))
  || (present (top_l p) && negb (present (bot_l p))).

(** Sample units for the concrete instances below. *)
Definition mx3 : QReg := {| qreg_size := 4; qreg_name := "tqubit_mx" |}.
Definition mz3 : QReg := {| qreg_size := 4; qreg_name := "tqubit_mz" |}.
Definition data3 : QReg := {| qreg_size := 9; qreg_name := "tqubit_data" |}.
Definition dq (i : Z) : Qubit := {| q_reg := data3; q_idx := i |}.
Definition empty_circuit : Circuit := {| ops := []; circ_cregs := [] |}.

(** The number of records of a family that list data position [i] among
    their neighbours. *)
Definition occurrences (i : Z) (records : list (Plaquette Z)) : nat :=
  length (filter (fun r => Some i ∈ neighbors r) records).

(** The four corners of the [d] by [d] grid of data positions. *)
Definition corner (d i : Z) : Prop :=
  i = 0 \/ i = d - 1 \/ i = d * (d - 1) \/ i = d ^ 2 - 1.

(** *** Locating a data position among the records of a family *)

(** What a data position [i] says about an X-type record that lists it:
    with [row] the record's row, [i] lies in data row [row - 1] or [row], and
    its column fixes the offset. *)
Definition X_locates (k syn i : Z) : Prop :=
  let d := 2 * k + 1 in
  exists row,
    (row = i / d \/ row = i / d + 1)
    /\ 0 <= i mod d - row mod 2 <= 2 * k - 1
    /\ syn = row * k + (i mod d - row mod 2) / 2.

(** What a data position [i] says about a Z-type record that lists it: with
    [row] the record's row, [i] lies in data row [row] or [row + 1], and its
    column fixes the offset. *)
Definition Z_locates (k syn i : Z) : Prop :=
  let d := 2 * k + 1 in
  exists row,
    0 <= row <= 2 * k - 1
    /\ (row = i / d \/ row = i / d - 1)
    /\ 0 <= i mod d + row mod 2 <= 2 * k + 1
    /\ syn = row * (k + 1) + (i mod d + row mod 2) / 2.

Definition X_cand (k i row : Z) : Z :=
  row * k + (i mod (2 * k + 1) - row mod 2) / 2.

Definition Z_cand (k i row : Z) : Z :=
  row * (k + 1) + (i mod (2 * k + 1) + row mod 2) / 2.


(** *** The decoder in the spec's words *)

Definition is_bit (b : Z) : Prop := b = 0 \/ b = 1.

Definition bit_char (b : Z) : ascii :=
  if decide (b = 0) then "0"%char else "1"%char.

(** The string that writes the bits [l] from left to right. *)
Definition bits_string (l : list Z) : string := of_chars (map bit_char l).

(** The readout value at data index [i]. *)
Definition val (readout_values : list Z) (i : Z) : Z :=
  nth (Z.to_nat i) readout_values 0.

Definition present_neighbors (r : Plaquette Z) : list Z :=
  omap id (neighbors r).

(** The mod-2 sum of the readout values of a plaquette's present
    neighbours. *)
Definition spec_plaquette_parity (readout_values : list Z)
    (r : Plaquette Z) : Z :=
  zsum (map (val readout_values) (present_neighbors r)) mod 2.

(** The freshly computed half: one bit per plaquette, the plaquette of
    syndrome 0 last. *)
Definition spec_half (readout_values : list Z)
    (records : list (Plaquette Z)) : string :=
  bits_string (rev (map (spec_plaquette_parity readout_values) records)).

(** Mod-2 sum over the left-most column: indices [0, d, 2d, ...]. *)
Definition spec_column_parity (readout_values : list Z) (d : Z) : Z :=
  zsum (map (fun j => val readout_values (j * d)) (py_range d)) mod 2.

(** Mod-2 sum over the top-most row: indices [0 .. d-1]. *)
Definition spec_row_parity (readout_values : list Z) (d : Z) : Z :=
  zsum (map (val readout_values) (py_range d)) mod 2.

(** *** The transcript parser in the spec's words *)

(** A transcript whose first token is the single bit [b], followed by one
    token per round, each written in binary digits, tokens separated by one
    space. *)
Definition transcript (b : Z) (rounds : list (list Z)) : string :=
  of_chars (bit_char b
              :: concat (map (fun r => " "%char :: map bit_char r) rounds)).

(** A round string read as a binary integer, most significant digit
    first. *)
Definition binary_value (bs : list Z) : Z :=
  fold_left (fun acc b => 2 * acc + b) bs 0.

(** The XOR of every pair of temporally adjacent values: transition [T]
    pairs the values at positions [T] and [T + 1]. *)
Definition spec_xors (vals : list Z) : list Z :=
  map (fun T => Z.lxor (nth T vals 0) (nth (S T) vals 0))
      (seq 0 (length vals - 1)).

Definition low_half (num_syn x : Z) : Z := x mod 2 ^ num_syn.
Definition high_half (num_syn x : Z) : Z := (x / 2 ^ num_syn) mod 2 ^ num_syn.

(** One coordinate for every set bit: transitions in order and, within a
    transition, plaquette indices in order. *)
Definition spec_defects (coord : Z -> Z -> TQubit) (num_syn : Z)
    (halves : list Z) : list TQubit :=
  concat (map (fun '(T, h) =>
                 concat (map (fun loc =>
                                if Z.testbit h loc then [coord T loc] else [])
                             (py_range num_syn)))
              (enumerate halves)).

(** The transitions of a transcript: the rounds in reverse order, read as
    binary integers, XOR-ed pairwise. *)
Definition transitions (rounds : list (list Z)) : list Z :=
  spec_xors (map binary_value (rev rounds)).

(** *** A stabilization round in the spec's words *)

(** The plaquette handed to a protocol satisfies that family's presence
    symmetry. *)
Definition valid_plaquette (cls : Stabilizer) (qi : Plaquette Qubit) : Prop :=
  match cls with
  | XXXX => X_symmetric qi
  | ZZZZ => Z_symmetric qi
  end.

(** The syndrome unit of a plaquette is none of its neighbours; the circuit
    library refuses to entangle a unit with itself. *)
Definition syndrome_apart {A} (p : Plaquette A) : Prop :=
  Some (syndrome p) ∉ neighbors p.

(** The data register is neither of the two syndrome registers. *)
Definition registers_apart (q : gmap string QReg) : Prop :=
  forall dr sr,
    q !! "data" = Some dr ->
    q !! "mx" = Some sr \/ q !! "mz" = Some sr ->
    dr <> sr.

(** Every plaquette's protocol, across both families, in order. *)
Definition spec_entangle (L : Lattice) : list Op :=
  concat (zip_with spec_protocol (stabilizers L) (qubit_indices L)).

(** Unit [i] of a syndrome family measured into bit [offset + i] of the
    round's register. *)
Definition spec_measure_family (r : QReg) (c : CReg) (offset : Z) : list Op :=
  map (fun i => OpMeasure {| q_reg := r; q_idx := i |}
                          {| c_reg := c; c_idx := offset + i |})
      (py_range (qreg_size r)).

Definition spec_reset_family (r : QReg) : list Op :=
  map (fun i => OpReset {| q_reg := r; q_idx := i |}) (py_range (qreg_size r)).

(** The classical register of round [T]. *)
Definition round_register (nm : string) (num_syn T : Z) : CReg :=
  {| creg_size := num_syn * 2; creg_name := nm +:+ "_c" +:+ py_str T |}.

(** The operations of one round. *)
Definition spec_round (L : Lattice) (mz mx : QReg) (c : CReg) (num_syn : Z)
  : list Op :=
  spec_entangle L
  ++ spec_measure_family mz c 0
  ++ spec_measure_family mx c num_syn
  ++ spec_reset_family mz
  ++ spec_reset_family mx
  ++ [OpBarrier].

(** The logical qubit after a round that started at round counter [T]. *)
Definition after_round (q : XXZZQubit) (mz mx : QReg) (num_syn T : Z)
  : XXZZQubit :=
  let L := lattice q in
  let c := round_register (name q) num_syn (T + 1) in
  {| name := name q;
     circ := {| ops := ops (circ q) ++ spec_round L mz mx c num_syn;
                circ_cregs := circ_cregs (circ q) ++ [c] |};
     lattice := {| params := <["T" := T + 1]> (params L);
                   lattice_name := lattice_name L;
                   qregisters := qregisters L;
                   cregisters :=
                     <["syndrome" +:+ py_str (T + 1) := c]> (cregisters L);
                   geometry := geometry L;
                   qubit_indices := qubit_indices L;
                   stabilizers := stabilizers L |} |}.

(** A distance-3 logical qubit before its first round. *)
Definition qubit3 : XXZZQubit :=
  {| name := "tqubit"; circ := empty_circuit; lattice := lattice3 |}.

(** A well-formed record of each family at distance [d = 2k + 1]: it has
    the family's presence symmetry, and each neighbour is a data index that
    locates the record. *)
Definition X_record_ok (d k : Z) (r : Plaquette Z) : Prop :=
  X_symmetric r
  /\ forall i, Some i ∈ neighbors r ->
       0 <= i < d ^ 2 /\ X_locates k (syndrome r) i.

Definition Z_record_ok (d k : Z) (r : Plaquette Z) : Prop :=
  Z_symmetric r
  /\ forall i, Some i ∈ neighbors r ->
       0 <= i < d ^ 2 /\ Z_locates k (syndrome r) i.

(** ** Further definitions for the properties of the last part *)

(** The indices of the left-most column, as [range(0, num_data, d)] lists
    them, and of the top-most row, as [range(d)] does. *)
Definition left_column (d : Z) : list Z := map (fun j => j * d) (py_range d).
Definition top_row (d : Z) : list Z := py_range d.

(** How many present neighbours of a record lie in a set of data indices. *)
Definition overlap (idxs : list Z) (r : Plaquette Z) : nat :=
  length (filter (fun i => i ∈ idxs) (present_neighbors r)).

(** The units a geometry record stands for: unit [syndrome] of the family's
    register and, for each present neighbour, that unit of the data
    register. *)
Definition data_unit (dr : QReg) (i : Z) : Qubit := {| q_reg := dr; q_idx := i |}.

Definition plaquette_of (sr dr : QReg) (r : Plaquette Z) : Plaquette Qubit :=
  mkPlaquette {| q_reg := sr; q_idx := syndrome r |}
    (data_unit dr <$> top_l r) (data_unit dr <$> top_r r)
    (data_unit dr <$> bot_l r) (data_unit dr <$> bot_r r).

(** The registers of a lattice have the sizes construction gives them. *)
Definition registers_sized (q : gmap string QReg) (d : Z)
    (dr xr zr : QReg) : Prop :=
  q !! "data" = Some dr /\ qreg_size dr = d ^ 2
  /\ q !! "mx" = Some xr /\ qreg_size xr = (d ^ 2 - 1) / 2
  /\ q !! "mz" = Some zr /\ qreg_size zr = (d ^ 2 - 1) / 2.

(** The result of [parse_readout]: the logical bit and the two defect
    lists. *)
Definition parsed (b : Z) (X Zs : list TQubit)
  : Res (Z * gmap string (list TQubit)) :=
  inr (b, {[ "X" := X; "Z" := Zs ]}).

Definition binary_round (r : list Z) : Prop := r <> [] /\ Forall is_bit r.

(** A transcript whose first token is a full lattice readout [vs], followed
    by one token per round. *)
Definition full_transcript (vs : list Z) (rounds : list (list Z)) : string :=
  of_chars (map bit_char vs
            ++ concat (map (fun r => " "%char :: map bit_char r) rounds)).

Definition is_digit (c : ascii) : Prop :=
  48 <= Z.of_N (N_of_ascii c) <= 57.

(** The round that the extraction puts in front of the rounds: the freshly
    computed half in binary digits, spliced with the other half of the
    previous round. *)
Definition parities (vs : list Z) (records : list (Plaquette Z)) : list Z :=
  rev (map (spec_plaquette_parity (rev vs)) records).

Definition final_round_X (mx : list (Plaquette Z)) (vs lo : list Z) : list Z :=
  parities vs mx ++ lo.

Definition final_round_Z (mz : list (Plaquette Z)) (vs hi : list Z) : list Z :=
  hi ++ parities vs mz.

(** The two families of the distance-3 geometry. *)
Definition mx_records3 : list (Plaquette Z) :=
  [mkPlaquette 0 None None (Some 0) (Some 1);
   mkPlaquette 1 (Some 1) (Some 2) (Some 4) (Some 5);
   mkPlaquette 2 (Some 3) (Some 4) (Some 6) (Some 7);
   mkPlaquette 3 (Some 7) (Some 8) None None].

Definition mz_records3 : list (Plaquette Z) :=
  [mkPlaquette 0 (Some 0) (Some 1) (Some 3) (Some 4);
   mkPlaquette 1 (Some 2) None (Some 5) None;
   mkPlaquette 2 None (Some 3) None (Some 6);
   mkPlaquette 3 (Some 4) (Some 5) (Some 7) (Some 8)].

(** Numerical equality of two coordinates. *)
Definition same_coord (a b : TQubit) : Prop :=
  (fst (fst a) == fst (fst b) /\ snd (fst a) == snd (fst b)
   /\ snd a == snd b)%Q.

(** ** Logical readouts and lattice readouts *)

Definition m_res {S A} (r : Res A) : M S A := fun s => (r, s).

(** [circ.h(register)]: one basis change per unit of the register. *)
Definition circ_h_reg (r : QReg) : M Circuit unit :=
  emit (map OpH (qreg_bits r)).

(** [circ.cx(register, unit)]: every unit of the register controls the one
    target.  The readouts use it with the ancilla register, which is a
    register of its own, so that no unit meets itself; the library's
    refusal of such a pair is modelled in [circ_cx] only. *)
Definition circ_cx_from_reg (r : QReg) (target : Qubit) : M Circuit unit :=
  emit (map (fun c => OpCX c target) (qreg_bits r)).

(** [circ.cx(unit, register)]: the one control acts on every unit of the
    register. *)
Definition circ_cx_to_reg (control : Qubit) (r : QReg) : M Circuit unit :=
  emit (map (OpCX control) (qreg_bits r)).

Definition get_cregister (k : string) : M XXZZQubit CReg :=
  fun s =>
    (match cregisters (lattice s) !! k with
     | Some r => inr r
     | None => inl (KeyError k)
     end, s).

(** The body of the loop of [readout_x]: the ancilla register controls
    the data unit [i]. *)
Definition readout_x_step (i : Z) : M XXZZQubit unit :=
  (anc <- get_qregister "ancilla" ;;
   data <- get_qregister "data" ;;
   q <- m_res (qreg_getitem data i) ;;
   on_circ (circ_cx_from_reg anc q))%st.

(** The body of the loop of [readout_z]: the data unit [i] controls the
    ancilla register. *)
Definition readout_z_step (i : Z) : M XXZZQubit unit :=
  (data <- get_qregister "data" ;;
   q <- m_res (qreg_getitem data i) ;;
   anc <- get_qregister "ancilla" ;;
   on_circ (circ_cx_to_reg q anc))%st.

(** [_XXZZLattice.readout_x], which [XXZZQubit.readout_x] calls: the
    circuit is the one of the logical qubit, the name the lattice's. *)
Definition readout_x : M XXZZQubit unit :=
  (n0 <- get_param "num_readout" ;;
   set_param "num_readout" (n0 + 1) ;;;
   s <- m_get ;;
   n1 <- get_param "num_readout" ;;
   let readout :=
     {| creg_size := 1;
        creg_name := lattice_name (lattice s) +:+ "_readout_" +:+ py_str n1 |} in
   on_circ (circ_add_register readout) ;;;
   set_cregister "readout" readout ;;;
   anc <- get_qregister "ancilla" ;;
   on_circ (circ_reset anc) ;;;
   anc <- get_qregister "ancilla" ;;
   on_circ (circ_h_reg anc) ;;;
   num_data <- get_param "num_data" ;;
   d <- get_param "d" ;;
   idxs <- m_res (py_range3 0 num_data d) ;;
   m_iter readout_x_step idxs ;;;
   anc <- get_qregister "ancilla" ;;
   on_circ (circ_h_reg anc) ;;;
   anc <- get_qregister "ancilla" ;;
   c <- get_cregister "readout" ;;
   on_circ (circ_measure (qreg_bits anc) (creg_bits c)) ;;;
   on_circ circ_barrier)%st.

(** [_XXZZLattice.readout_z], which [XXZZQubit.readout_z] calls. *)
Definition readout_z : M XXZZQubit unit :=
  (n0 <- get_param "num_readout" ;;
   set_param "num_readout" (n0 + 1) ;;;
   s <- m_get ;;
   n1 <- get_param "num_readout" ;;
   let readout :=
     {| creg_size := 1;
        creg_name := lattice_name (lattice s) +:+ "_readout_" +:+ py_str n1 |} in
   on_circ (circ_add_register readout) ;;;
   set_cregister "readout" readout ;;;
   anc <- get_qregister "ancilla" ;;
   on_circ (circ_reset anc) ;;;
   d <- get_param "d" ;;
   m_iter readout_z_step (py_range d) ;;;
   anc <- get_qregister "ancilla" ;;
   c <- get_cregister "readout" ;;
   on_circ (circ_measure (qreg_bits anc) (creg_bits c)) ;;;
   on_circ circ_barrier)%st.

(** [XXZZQubit.lattice_readout_z] *)
Definition lattice_readout_z : M XXZZQubit unit :=
  (n0 <- get_param "num_lattice_readout" ;;
   set_param "num_lattice_readout" (n0 + 1) ;;;
   num_data <- get_param "num_data" ;;
   s <- m_get ;;
   n1 <- get_param "num_lattice_readout" ;;
   let readout :=
     {| creg_size := num_data;
        creg_name := name s +:+ "_data_readout_" +:+ py_str n1 |} in
   on_circ (circ_add_register readout) ;;;
   set_cregister "data_readout" readout ;;;
   data <- get_qregister "data" ;;
   c <- get_cregister "data_readout" ;;
   on_circ (circ_measure (qreg_bits data) (creg_bits c)) ;;;
   on_circ circ_barrier)%st.

(** [XXZZQubit.lattice_readout_x] *)
Definition lattice_readout_x : M XXZZQubit unit :=
  (n0 <- get_param "num_lattice_readout" ;;
   set_param "num_lattice_readout" (n0 + 1) ;;;
   num_data <- get_param "num_data" ;;
   s <- m_get ;;
   n1 <- get_param "num_lattice_readout" ;;
   let readout :=
     {| creg_size := num_data;
        creg_name := name s +:+ "_data_readout_" +:+ py_str n1 |} in
   on_circ (circ_add_register readout) ;;;
   set_cregister "data_readout" readout ;;;
   data <- get_qregister "data" ;;
   on_circ (circ_h_reg data) ;;;
   data <- get_qregister "data" ;;
   c <- get_cregister "data_readout" ;;
   on_circ (circ_measure (qreg_bits data) (creg_bits c)) ;;;
   on_circ circ_barrier)%st.

(** The state a call leaves: operations appended, one register added to
    the circuit and stored under a key, one counter set. *)
Definition with_register (q : XXZZQubit) (counter : string) (v : Z)
    (key : string) (c : CReg) (new_ops : list Op) : XXZZQubit :=
  let L := lattice q in
  {| name := name q;
     circ := {| ops := ops (circ q) ++ new_ops;
                circ_cregs := circ_cregs (circ q) ++ [c] |};
     lattice := {| params := <[counter := v]> (params L);
                   lattice_name := lattice_name L;
                   qregisters := qregisters L;
                   cregisters := <[key := c]> (cregisters L);
                   geometry := geometry L;
                   qubit_indices := qubit_indices L;
                   stabilizers := stabilizers L |} |}.



Definition data_readout_register (nm : string) (num_data v : Z) : CReg :=
  {| creg_size := num_data;
     creg_name := nm +:+ "_data_readout_" +:+ py_str v |}.

(** Unit [i] of the data register measured into bit [i]. *)
Definition measure_all (dr : QReg) (c : CReg) : list Op :=
  map (fun i => OpMeasure (data_unit dr i) {| c_reg := c; c_idx := i |})
      (py_range (qreg_size dr)).

(** One logical readout, along X or along Z, as a caller picks it. *)
Definition readout (along_x : bool) : M XXZZQubit unit :=
  if along_x then readout_x else readout_z.



(** * Theorems *)

(** ** Stabilizer protocols *)

Lemma append_ops_nil c : append_ops c [] = c.
Proof. destruct c; unfold append_ops; simpl. by rewrite app_nil_r. Qed.

Lemma circ_cx_apart (s t : Qubit) :
  s <> t -> circ_cx (Some s) (Some t) = emit [OpCX s t].
Proof. intros H. unfold circ_cx. by rewrite decide_False. Qed.

Lemma syndrome_apart_neighbors (qi : Plaquette Qubit) (t : Qubit) :
  syndrome_apart qi -> Some t ∈ neighbors qi -> syndrome qi <> t /\ t <> syndrome qi.
Proof.
  intros Hap Hin. split; intros E; apply Hap; [rewrite E|rewrite <- E]; exact Hin.
Qed.

Ltac apart_units Hap :=
  repeat match goal with
  | |- context [circ_cx (Some ?a) (Some ?b)] =>
      rewrite (circ_cx_apart a b)
        by (first [apply (syndrome_apart_neighbors _ b Hap)
                  |apply (syndrome_apart_neighbors _ a Hap)];
            unfold neighbors; simpl; rewrite !elem_of_cons; tauto)
  end.

Lemma XXXX_entangle_ok (qi : Plaquette Qubit) (c : Circuit) :
  X_symmetric qi -> syndrome_apart qi ->
  XXXX_entangle qi c = (inr tt, append_ops c (spec_X_protocol qi)).
Proof.
  destruct qi as [s [tl|] [tr|] [bl|] [br|]]; intros [Ht Hb] Hap;
    simpl in Ht, Hb; try discriminate;
    unfold XXXX_entangle;
    cbn [present top_l top_r bot_l bot_r syndrome andb orb negb when];
    apart_units Hap;
    destruct c as [o r]; cbv -[app];
    repeat rewrite <- app_assoc; reflexivity.
Qed.

Lemma ZZZZ_entangle_ok (qi : Plaquette Qubit) (c : Circuit) :
  Z_symmetric qi -> syndrome_apart qi ->
  ZZZZ_entangle qi c = (inr tt, append_ops c (spec_Z_protocol qi)).
Proof.
  destruct qi as [s [tl|] [tr|] [bl|] [br|]]; intros [Hr Hl] Hap;
    simpl in Hr, Hl; try discriminate;
    unfold ZZZZ_entangle;
    cbn [present top_l top_r bot_l bot_r syndrome andb orb negb when];
    apart_units Hap;
    destruct c as [o r]; cbv -[app];
    repeat rewrite <- app_assoc; rewrite ?app_nil_r; reflexivity.
Qed.

(** A symmetric tuple whose syndrome unit is also one of its neighbours is
    refused by the circuit library, whatever the family. *)
Lemma entangle_duplicate_unit (qi : Plaquette Qubit) (c : Circuit) :
  ~ syndrome_apart qi ->
  (X_symmetric qi -> exists c', XXXX_entangle qi c = (inl CircuitError, c'))
  /\ (Z_symmetric qi -> exists c', ZZZZ_entangle qi c = (inl CircuitError, c')).
Proof.
  intros Hn.
  split; destruct qi as [s [tl|] [tr|] [bl|] [br|]]; intros [H1 H2];
    simpl in H1, H2; try discriminate;
    unfold XXXX_entangle, ZZZZ_entangle, circ_cx;
    cbn [present top_l top_r bot_l bot_r syndrome andb orb negb when];
    unfold m_bind, circ_h, emit, m_modify, m_raise;
    repeat (destruct (decide _) as [?|?]; simpl);
    try (eexists; reflexivity);
    exfalso; apply Hn; unfold syndrome_apart, neighbors; simpl;
    rewrite !not_elem_of_cons; repeat split;
    first [congruence | apply not_elem_of_nil].
Qed.

(** The X-type routine on a top pair that is the syndrome unit itself: the
    opening basis change is appended, then the circuit library refuses. *)
Lemma XXXX_entangle_on_itself (s : Qubit) (c : Circuit) :
  XXXX_entangle (mkPlaquette s (Some s) (Some s) None None) c
  = (inl CircuitError, append_ops c [OpH s]).
Proof.
  unfold XXXX_entangle, circ_cx. simpl.
  unfold m_bind, circ_h, emit, m_modify, m_raise. simpl.
  destruct (decide (s = s)) as [_|Hne]; [reflexivity|done].
Qed.

(** C5: on a valid 5-tuple, one that satisfies its family's presence
    symmetry and whose syndrome unit is none of its neighbours, the X-type
    routine appends exactly a basis change on the syndrome unit, the
    entangling operations syndrome->top_right, syndrome->top_left when the
    top pair is present, syndrome->bottom_right, syndrome->bottom_left when
    the bottom pair is present, and a closing basis change; the Z-type
    routine appends no basis change and exactly top_right->syndrome,
    bottom_right->syndrome when the right pair is present, then
    top_left->syndrome, bottom_left->syndrome when the left pair is
    present.  Neither raises. *)
Theorem entangle_protocols (qi : Plaquette Qubit) (c : Circuit) :
  syndrome_apart qi ->
  (X_symmetric qi ->
   XXXX_entangle qi c = (inr tt, append_ops c (spec_X_protocol qi)))
  /\ (Z_symmetric qi ->
      ZZZZ_entangle qi c = (inr tt, append_ops c (spec_Z_protocol qi))).
Proof.
  intros Hap.
  split; intros H; [by apply XXXX_entangle_ok | by apply ZZZZ_entangle_ok].
Qed.

Lemma entangle_protocols_witness :
  let s := {| q_reg := mx3; q_idx := 1 |} in
  let qi := mkPlaquette s (Some (dq 1)) (Some (dq 2)) (Some (dq 4)) (Some (dq 5)) in
  (syndrome_apart qi /\ X_symmetric qi /\ Z_symmetric qi)
  /\ XXXX_entangle qi empty_circuit
     = (inr tt, {| ops := [OpH s; OpCX s (dq 2); OpCX s (dq 1);
                           OpCX s (dq 5); OpCX s (dq 4); OpH s];
                   circ_cregs := [] |})
  /\ ZZZZ_entangle qi empty_circuit
     = (inr tt, {| ops := [OpCX (dq 2) s; OpCX (dq 5) s;
                           OpCX (dq 1) s; OpCX (dq 4) s];
                   circ_cregs := [] |}).
Proof.
  intros s qi.
  assert (Hap : syndrome_apart qi).
  { unfold syndrome_apart, qi, neighbors. simpl.
    rewrite !not_elem_of_cons. repeat split; try discriminate.
    apply not_elem_of_nil. }
  assert (HX : X_symmetric qi) by (split; reflexivity).
  assert (HZ : Z_symmetric qi) by (split; reflexivity).
  split; [repeat split; assumption|].
  destruct (entangle_protocols qi empty_circuit Hap) as [H1 H2].
  split; [rewrite (H1 HX) | rewrite (H2 HZ)]; reflexivity.
Defined.

(** C7, as stated, fails: an X-type 5-tuple whose top_left is present and
    whose top_right is absent violates the symmetry, yet the X-type routine
    raises nothing and appends the two basis changes; a Z-type 5-tuple whose
    bottom_right is present and whose top_right is absent does the same with
    no operation at all. *)
Lemma entangle_asymmetric_not_refused :
  let s := {| q_reg := mx3; q_idx := 0 |} in
  let qx := mkPlaquette s (Some (dq 0)) None None None in
  let qz := mkPlaquette s None None None (Some (dq 0)) in
  (~ X_symmetric qx
   /\ XXXX_entangle qx empty_circuit
      = (inr tt, {| ops := [OpH s; OpH s]; circ_cregs := [] |}))
  /\ (~ Z_symmetric qz
      /\ ZZZZ_entangle qz empty_circuit = (inr tt, empty_circuit)).
Proof.
  intros s qx qz. repeat split; try reflexivity; intros [H1 H2]; discriminate.
Qed.

(** Outside the two guard conditions neither routine raises anything on a
    tuple whose syndrome unit is none of its neighbours. *)
Lemma entangle_no_other_error (qi : Plaquette Qubit) (c : Circuit) :
  syndrome_apart qi ->
  (X_guard qi = false -> exists c', XXXX_entangle qi c = (inr tt, c'))
  /\ (Z_guard qi = false -> exists c', ZZZZ_entangle qi c = (inr tt, c')).
Proof.
  intros Hap.
  split; destruct qi as [s [tl|] [tr|] [bl|] [br|]];
    unfold X_guard, Z_guard, XXXX_entangle, ZZZZ_entangle;
    cbn [present top_l top_r bot_l bot_r syndrome andb orb negb when];
    intros H; try discriminate;
    apart_units Hap; eexists; reflexivity.
Qed.

(** C7, amended: the X-type routine raises [LatticeError] whenever
    top_right is present without top_left or bottom_right is present without
    bottom_left, the Z-type routine whenever top_right is present without
    bottom_right or top_left is present without bottom_left; the error
    carries the family's fixed message, and the circuit is left as it was,
    so no operation is emitted. *)
Theorem entangle_guard (qi : Plaquette Qubit) (c : Circuit) :
  (X_guard qi = true ->
   XXXX_entangle qi c
   = (inl (LatticeError "Inconsistent X syndrome connections"), c))
  /\ (Z_guard qi = true ->
      ZZZZ_entangle qi c
      = (inl (LatticeError "Inconsistent Z syndrome connections"), c)).
Proof.
  split.
  - intros H. unfold XXXX_entangle. unfold X_guard in H. rewrite H. reflexivity.
  - intros H. unfold ZZZZ_entangle. unfold Z_guard in H. rewrite H. reflexivity.
Qed.

Lemma entangle_guard_witness :
  let s := {| q_reg := mx3; q_idx := 0 |} in
  let qx := mkPlaquette s None (Some (dq 1)) (Some (dq 3)) (Some (dq 4)) in
  let qz := mkPlaquette s (Some (dq 0)) None None None in
  (X_guard qx = true /\ Z_guard qz = true)
  /\ XXXX_entangle qx empty_circuit
     = (inl (LatticeError "Inconsistent X syndrome connections"), empty_circuit)
  /\ ZZZZ_entangle qz empty_circuit
     = (inl (LatticeError "Inconsistent Z syndrome connections"), empty_circuit).
Proof.
  intros s qx qz.
  split; [split; reflexivity|].
  split; [apply (proj1 (entangle_guard qx empty_circuit)); reflexivity|].
  apply (proj2 (entangle_guard qz empty_circuit)); reflexivity.
Defined.

(** ** Construction parameters *)

Lemma XXZZLattice_init_odd (p : gmap string Z) (nm : string) (d : Z) :
  p !! "d" = Some d -> d mod 2 = 1 ->
  exists a, XXZZLattice_init p nm = inr a
    /\ la_params a
       = <["num_syn" := (d ^ 2 - 1) / 2]>
           (<["num_data" := d ^ 2]>
              (<["num_lattice_readout" := -1]>
                 (<["num_readout" := -1]> (<["T" := -1]> p))))
    /\ la_qregisters a !! "data"
       = Some {| qreg_size := d ^ 2; qreg_name := nm +:+ "_data" |}
    /\ la_qregisters a !! "mx"
       = Some {| qreg_size := (d ^ 2 - 1) / 2; qreg_name := nm +:+ "_mx" |}
    /\ la_qregisters a !! "mz"
       = Some {| qreg_size := (d ^ 2 - 1) / 2; qreg_name := nm +:+ "_mz" |}.
Proof.
  intros Hd Hodd. unfold XXZZLattice_init. rewrite Hd.
  destruct (decide (d mod 2 <> 1)) as [Hn|_]; [contradiction|].
  unfold param. simplify_map_eq. eexists. split; [reflexivity|].
  simpl. simplify_map_eq. repeat split; reflexivity.
Qed.

(** C10: construction raises [LatticeError] exactly when the dictionary has
    no key "d" or [d % 2 != 1]; every other [d] is accepted, whatever its
    sign, and the derived sizes [num_data = d^2] and
    [num_syn = (d^2 - 1) // 2] are stored for it.  In particular [d = -3],
    for which [-3 % 2 = 1], is accepted with [num_data = 9] and
    [num_syn = 4]: that [d] be positive is not checked. *)
Theorem XXZZLattice_init_validation (p : gmap string Z) (nm : string) :
  ((exists msg, XXZZLattice_init p nm = inl (LatticeError msg))
   <-> (p !! "d" = None \/ exists d, p !! "d" = Some d /\ d mod 2 <> 1))
  /\ (forall d, p !! "d" = Some d -> d mod 2 = 1 ->
      exists a, XXZZLattice_init p nm = inr a
        /\ la_params a !! "d" = Some d
        /\ la_params a !! "num_data" = Some (d ^ 2)
        /\ la_params a !! "num_syn" = Some ((d ^ 2 - 1) / 2))
  /\ ((-3) mod 2 = 1
      /\ exists a, XXZZLattice_init {[ "d" := -3 ]} nm = inr a
           /\ la_params a !! "num_data" = Some 9
           /\ la_params a !! "num_syn" = Some 4).
Proof.
  assert (Hacc : forall q d, q !! "d" = Some d -> d mod 2 = 1 ->
      exists a, XXZZLattice_init q nm = inr a
        /\ la_params a !! "d" = Some d
        /\ la_params a !! "num_data" = Some (d ^ 2)
        /\ la_params a !! "num_syn" = Some ((d ^ 2 - 1) / 2)).
  { intros q d Hd Hodd.
    destruct (XXZZLattice_init_odd q nm d Hd Hodd) as (a & Ha & Hp & _).
    exists a. split; [exact Ha|]. rewrite Hp. by simplify_map_eq. }
  split; [|split].
  - split.
    + intros [msg Hr]. destruct (p !! "d") as [d|] eqn:Hd; [|by left].
      right. exists d. split; [reflexivity|]. intros Hodd.
      destruct (Hacc p d Hd Hodd) as (a & Ha & _). congruence.
    + intros [Hnone|(d & Hd & Hn)]; unfold XXZZLattice_init.
      * rewrite Hnone. by eexists.
      * rewrite Hd. destruct (decide (d mod 2 <> 1)); [by eexists|contradiction].
  - apply Hacc.
  - split; [reflexivity|].
    destruct (Hacc {[ "d" := -3 ]} (-3)) as (a & Ha & _ & Hnd & Hns);
      [by simplify_map_eq | reflexivity |].
    exists a. repeat split; assumption.
Qed.

Lemma XXZZLattice_init_validation_witness :
  exists a, XXZZLattice_init {[ "d" := 3 ]} "tqubit" = inr a
    /\ la_params a !! "d" = Some 3
    /\ la_params a !! "num_data" = Some 9
    /\ la_params a !! "num_syn" = Some 4.
Proof.
  apply (proj1 (proj2 (XXZZLattice_init_validation {[ "d" := 3 ]} "tqubit")) 3);
    reflexivity.
Defined.

(** ** Lattice geometry *)

Lemma res_mapM_Forall2 {A B} (f : A -> Res B) (l : list A) (rs : list B) :
  res_mapM f l = inr rs <-> Forall2 (fun x r => f x = inr r) l rs.
Proof.
  revert rs. induction l as [|a l IH]; intros rs; simpl.
  - split.
    + intros H. injection H as <-. constructor.
    + intros H. inversion H. reflexivity.
  - destruct (f a) as [e|b] eqn:Hfa; simpl.
    + split; [discriminate|]. intros H. inversion H; congruence.
    + destruct (res_mapM f l) as [e|bs] eqn:Hm; simpl.
      * split; [discriminate|]. intros H. inversion H as [|? r ? rs' ? Hrest]; subst.
        apply IH in Hrest. discriminate.
      * split.
        -- intros H. injection H as <-. constructor; [assumption|].
           by apply IH.
        -- intros H. inversion H as [|? r ? rs' Hr Hrest]; subst.
           apply IH in Hrest. congruence.
Qed.

Lemma res_mapM_total {A B} (f : A -> Res B) (l : list A) :
  (forall x, x ∈ l -> exists r, f x = inr r) ->
  exists rs, res_mapM f l = inr rs.
Proof.
  induction l as [|a l IH]; intros H; simpl.
  - by eexists.
  - destruct (H a) as [b Hb]; [by left|]. rewrite Hb. simpl.
    destruct IH as [bs Hbs]; [intros x Hx; apply H; by right|].
    rewrite Hbs. simpl. by eexists.
Qed.

Lemma elem_of_py_range (n x : Z) : x ∈ py_range n <-> 0 <= x < n.
Proof.
  unfold py_range. rewrite list_elem_of_In, in_map_iff. split.
  - intros (k & <- & Hk). apply in_seq in Hk. lia.
  - intros H. exists (Z.to_nat x). split; [lia|]. apply in_seq. lia.
Qed.

Lemma length_py_range (n : Z) : length (py_range n) = Z.to_nat n.
Proof. unfold py_range. by rewrite length_map, length_seq. Qed.

Lemma NoDup_py_range (n : Z) : NoDup (py_range n).
Proof.
  unfold py_range. apply (NoDup_fmap_2 Z.of_nat). apply NoDup_seq.
Qed.

Lemma lookup_py_range (n : Z) (k : nat) :
  (k < Z.to_nat n)%nat -> py_range n !! k = Some (Z.of_nat k).
Proof.
  intros H. unfold py_range.
  change (map Z.of_nat (seq 0 (Z.to_nat n))) with (Z.of_nat <$> seq 0 (Z.to_nat n)).
  rewrite list_lookup_fmap, lookup_seq_lt by assumption. reflexivity.
Qed.

(** An odd distance of at least 3 is [2k+1] with [k >= 1]; the row widths
    and the family size in terms of [k]. *)
Lemma odd_distance (d : Z) :
  d mod 2 = 1 -> 3 <= d ->
  exists k, d = 2 * k + 1 /\ 1 <= k /\ (d - 1) / 2 = k /\ (d + 1) / 2 = k + 1
            /\ (d ^ 2 - 1) / 2 = 2 * k * (k + 1).
Proof.
  intros Hodd Hd. exists (d / 2).
  pose proof (Z.div_mod d 2 ltac:(lia)) as Hdm. rewrite Hodd in Hdm.
  set (k := d / 2) in *.
  assert (Hk : d = 2 * k + 1) by lia. clearbody k. subst d.
  repeat split; try lia.
  - replace (2 * k + 1 - 1) with (k * 2) by lia. by rewrite Z.div_mul.
  - replace (2 * k + 1 + 1) with ((k + 1) * 2) by lia. by rewrite Z.div_mul.
  - replace ((2 * k + 1) ^ 2 - 1) with ((2 * k * (k + 1)) * 2) by lia.
    by rewrite Z.div_mul.
Qed.

Lemma div_mod_of_decomp (d q c i : Z) :
  0 <= c < d -> i = q * d + c -> i / d = q /\ i mod d = c.
Proof.
  intros Hc ->. split.
  - symmetry. apply (Z.div_unique_pos _ _ q c); lia.
  - symmetry. apply (Z.mod_unique_pos _ _ q c); lia.
Qed.

Lemma half_floor (a b : Z) : 0 <= b <= 1 -> (2 * a + b) / 2 = a.
Proof.
  intros Hb. symmetry. apply (Z.div_unique_pos _ _ a b); lia.
Qed.

Lemma parity_cases (n : Z) : n mod 2 = 0 \/ n mod 2 = 1.
Proof. pose proof (Z.mod_pos_bound n 2 ltac:(lia)). lia. Qed.

(** The row and offset of a syndrome index in a family of row width [w]. *)
Lemma row_offset (w rows syn : Z) :
  0 < w -> 0 <= syn < rows * w ->
  0 <= syn / w < rows /\ 0 <= syn mod w < w
  /\ syn = (syn / w) * w + syn mod w.
Proof.
  intros Hw Hs.
  pose proof (Z.div_mod syn w ltac:(lia)) as Hdm.
  pose proof (Z.mod_pos_bound syn w Hw) as Hm.
  assert (0 <= syn / w) by (apply Z.div_pos; lia).
  assert (syn / w < rows) by (apply Z.div_lt_upper_bound; lia).
  lia.
Qed.

Lemma odd_mod2 (k : Z) : (2 * k + 1) mod 2 = 1.
Proof. apply (div_mod_of_decomp 2 k 1); lia. Qed.

Lemma elem_of_neighbors {A} (p : Plaquette A) (x : option A) :
  x ∈ neighbors p <-> x = top_l p \/ x = top_r p \/ x = bot_l p \/ x = bot_r p.
Proof.
  unfold neighbors. rewrite !elem_of_cons, elem_of_nil. tauto.
Qed.

Lemma X_locates_intro (k syn i row off c b : Z) :
  1 <= k -> 0 <= off < k -> 0 <= b <= 1 ->
  syn = row * k + off ->
  c = 2 * off + row mod 2 + b ->
  (i = row * (2 * k + 1) + c \/ i = (row - 1) * (2 * k + 1) + c) ->
  X_locates k syn i.
Proof.
  intros Hk Hoff Hb Hsyn Hc Hi.
  destruct (parity_cases row) as [Hp|Hp].
  all: assert (Hcd : 0 <= c < 2 * k + 1) by lia.
  all: exists row; destruct Hi as [Hi|Hi].
  all: destruct (div_mod_of_decomp (2 * k + 1) _ c i Hcd Hi) as [Hq Hm].
  all: rewrite Hq, Hm; split; [lia|]; split; [lia|].
  all: replace (c - row mod 2) with (2 * off + b) by lia.
  all: rewrite half_floor by lia; lia.
Qed.

Lemma Z_locates_intro (k syn i row off c b : Z) :
  1 <= k -> 0 <= off <= k -> 0 <= b <= 1 -> 0 <= row <= 2 * k - 1 ->
  syn = row * (k + 1) + off ->
  c = 2 * off - row mod 2 + b ->
  0 <= c < 2 * k + 1 ->
  (i = row * (2 * k + 1) + c \/ i = (row + 1) * (2 * k + 1) + c) ->
  Z_locates k syn i.
Proof.
  intros Hk Hoff Hb Hrow Hsyn Hc Hcd Hi.
  pose proof (parity_cases row) as Hp.
  exists row. split; [lia|]. destruct Hi as [Hi|Hi].
  all: destruct (div_mod_of_decomp (2 * k + 1) _ c i Hcd Hi) as [Hq Hm].
  all: rewrite Hq, Hm; split; [lia|]; split; [lia|].
  all: replace (c + row mod 2) with (2 * off + b) by lia.
  all: rewrite half_floor by lia; lia.
Qed.

(** Every record of a family comes from one syndrome index of its range. *)
Lemma family_record {f : Z -> Res (Plaquette Z)} {n : Z}
    {rs : list (Plaquette Z)} (r : Plaquette Z) :
  Forall2 (fun syn r => f syn = inr r) (py_range n) rs ->
  r ∈ rs -> exists syn, 0 <= syn < n /\ f syn = inr r.
Proof.
  intros HF Hr. apply list_elem_of_lookup in Hr as [j Hj].
  destruct (Forall2_lookup_r _ _ _ _ _ HF Hj) as (syn & Hsyn & Hf).
  exists syn. split; [|exact Hf].
  apply elem_of_py_range. apply list_elem_of_lookup. eauto.
Qed.

(** One goal per present neighbour of an explicit record, the range of the
    index settled by arithmetic. *)
Ltac each_neighbor :=
  let i := fresh "i" in
  let Hi := fresh "Hi" in
  intros i Hi; apply elem_of_neighbors in Hi; simpl in Hi;
  destruct Hi as [Hi|[Hi|[Hi|Hi]]]; try discriminate;
  injection Hi as ->; (split; [nia|]).

(** The records of the two families at an odd distance [d = 2k + 1]. *)
Section OddDistance.
Variables d k : Z.
Hypothesis Hdk : d = 2 * k + 1.
Hypothesis Hk : 1 <= k.

Lemma mx_record_spec (syn : Z) :
  0 <= syn < 2 * k * (k + 1) ->
  exists r, mx_record d syn = inr r
    /\ syndrome r = syn
    /\ X_symmetric r
    /\ forall i, Some i ∈ neighbors r -> 0 <= i < d ^ 2 /\ X_locates k syn i.
Proof.
  intros Hs. rewrite Hdk.
  assert (Hw : (2 * k + 1 - 1) / 2 = k).
  { replace (2 * k + 1 - 1) with (k * 2) by lia. by rewrite Z.div_mul. }
  unfold mx_record. rewrite Hw. unfold py_floordiv, py_mod.
  destruct (decide (k = 0)) as [?|_]; [lia|]. simpl.
  destruct (row_offset k (2 * k + 2) syn ltac:(lia) ltac:(lia))
    as (Hrow & Hoff & Hsyn).
  set (row := syn / k) in *. set (off := syn mod k) in *.
  clearbody row off.
  pose proof (parity_cases row) as Hp.
  eexists. split; [reflexivity|].
  destruct (decide (row = 0)) as [H0|H0];
    [|destruct (decide (row = 2 * k + 1)) as [Hd|Hd]].
  - subst row. simpl in Hsyn.
    split; [reflexivity|]. split; [split; reflexivity|].
    each_neighbor.
    + apply (X_locates_intro k syn _ 0 off (2 * off) 0); change (0 mod 2) with 0; lia.
    + apply (X_locates_intro k syn _ 0 off (2 * off + 1) 1); change (0 mod 2) with 0; lia.
  - subst row. pose proof (odd_mod2 k) as Hodd.
    split; [reflexivity|]. split; [split; reflexivity|].
    each_neighbor.
    + apply (X_locates_intro k syn _ (2 * k + 1) off (2 * off + 1) 0); lia.
    + apply (X_locates_intro k syn _ (2 * k + 1) off (2 * off + 2) 1); lia.
  - split; [reflexivity|]. split; [split; reflexivity|].
    each_neighbor.
    + apply (X_locates_intro k syn _ row off (2 * off + row mod 2) 0); lia.
    + apply (X_locates_intro k syn _ row off (2 * off + row mod 2 + 1) 1); lia.
    + apply (X_locates_intro k syn _ row off (2 * off + row mod 2) 0); lia.
    + apply (X_locates_intro k syn _ row off (2 * off + row mod 2 + 1) 1); lia.
Qed.


Lemma mz_record_spec (syn : Z) :
  0 <= syn < 2 * k * (k + 1) ->
  exists r, mz_record d syn = inr r
    /\ syndrome r = syn
    /\ Z_symmetric r
    /\ forall i, Some i ∈ neighbors r -> 0 <= i < d ^ 2 /\ Z_locates k syn i.
Proof.
  intros Hs. rewrite Hdk.
  assert (Hw : (2 * k + 1 + 1) / 2 = k + 1).
  { replace (2 * k + 1 + 1) with ((k + 1) * 2) by lia. by rewrite Z.div_mul. }
  unfold mz_record. rewrite Hw. unfold py_floordiv, py_mod.
  destruct (decide (k + 1 = 0)) as [?|_]; [lia|]. simpl.
  destruct (row_offset (k + 1) (2 * k) syn ltac:(lia) ltac:(lia))
    as (Hrow & Hoff & Hsyn).
  set (row := syn / (k + 1)) in *. set (off := syn mod (k + 1)) in *.
  clearbody row off.
  pose proof (parity_cases row) as Hp.
  eexists. split; [reflexivity|].
  destruct (decide (row mod 2 = 0 /\ off = k + 1 - 1)) as [[Hp0 Hlast]|Hn1];
    [|destruct (decide (row mod 2 = 1 /\ off = 0)) as [[Hp1 Hfirst]|Hn2]].
  - split; [reflexivity|]. split; [split; reflexivity|].
    each_neighbor.
    + apply (Z_locates_intro k syn _ row off (2 * off - row mod 2) 0); lia.
    + apply (Z_locates_intro k syn _ row off (2 * off - row mod 2) 0); lia.
  - split; [reflexivity|]. split; [split; reflexivity|].
    each_neighbor.
    + apply (Z_locates_intro k syn _ row off (2 * off - row mod 2 + 1) 1); lia.
    + apply (Z_locates_intro k syn _ row off (2 * off - row mod 2 + 1) 1); lia.
  - split; [reflexivity|]. split; [split; reflexivity|].
    each_neighbor.
    + apply (Z_locates_intro k syn _ row off (2 * off - row mod 2) 0); lia.
    + apply (Z_locates_intro k syn _ row off (2 * off - row mod 2 + 1) 1); lia.
    + apply (Z_locates_intro k syn _ row off (2 * off - row mod 2) 0); lia.
    + apply (Z_locates_intro k syn _ row off (2 * off - row mod 2 + 1) 1); lia.
Qed.


Lemma mx_family_ok (mx : list (Plaquette Z)) (r : Plaquette Z) :
  Forall2 (fun syn r => mx_record d syn = inr r)
    (py_range (2 * k * (k + 1))) mx ->
  r ∈ mx -> X_record_ok d k r.
Proof.
  intros HF Hr. destruct (family_record r HF Hr) as (syn & Hsyn & Hrec).
  destruct (mx_record_spec syn Hsyn) as (r' & Hr' & Hs & Hsym & Hnb).
  assert (r' = r) by congruence. subst r'.
  split; [exact Hsym|]. rewrite Hs. exact Hnb.
Qed.

Lemma mz_family_ok (mz : list (Plaquette Z)) (r : Plaquette Z) :
  Forall2 (fun syn r => mz_record d syn = inr r)
    (py_range (2 * k * (k + 1))) mz ->
  r ∈ mz -> Z_record_ok d k r.
Proof.
  intros HF Hr. destruct (family_record r HF Hr) as (syn & Hsyn & Hrec).
  destruct (mz_record_spec syn Hsyn) as (r' & Hr' & Hs & Hsym & Hnb).
  assert (r' = r) by congruence. subst r'.
  split; [exact Hsym|]. rewrite Hs. exact Hnb.
Qed.

End OddDistance.

(** The geometry of an odd distance of at least 3: both families are built
    without error, record by record, and every record is well formed. *)
Lemma geometry_families (p : gmap string Z) (d : Z) :
  p !! "d" = Some d -> p !! "num_syn" = Some ((d ^ 2 - 1) / 2) ->
  d mod 2 = 1 -> 3 <= d ->
  exists k mx mz,
    (d = 2 * k + 1 /\ 1 <= k /\ (d + 1) / 2 = k + 1
     /\ (d ^ 2 - 1) / 2 = 2 * k * (k + 1))
    /\ _geometry p = inr [("mx", mx); ("mz", mz)]
    /\ Forall2 (fun syn r => mx_record d syn = inr r)
         (py_range ((d ^ 2 - 1) / 2)) mx
    /\ Forall2 (fun syn r => mz_record d syn = inr r)
         (py_range ((d ^ 2 - 1) / 2)) mz
    /\ (forall r, r ∈ mx -> X_record_ok d k r)
    /\ (forall r, r ∈ mz -> Z_record_ok d k r).
Proof.
  intros Hd Hn Hodd H3.
  destruct (odd_distance d Hodd H3) as (k & Hdk & Hk & _ & Hpr & Hns).
  unfold _geometry, param. rewrite Hd, Hn. simpl.
  destruct (res_mapM_total (mx_record d) (py_range ((d ^ 2 - 1) / 2)))
    as [mx Hmx].
  { intros syn Hsyn. apply elem_of_py_range in Hsyn. rewrite Hns in Hsyn.
    destruct (mx_record_spec d k Hdk Hk syn Hsyn) as (r & Hr & _). eauto. }
  destruct (res_mapM_total (mz_record d) (py_range ((d ^ 2 - 1) / 2)))
    as [mz Hmz].
  { intros syn Hsyn. apply elem_of_py_range in Hsyn. rewrite Hns in Hsyn.
    destruct (mz_record_spec d k Hdk Hk syn Hsyn) as (r & Hr & _). eauto. }
  apply res_mapM_Forall2 in Hmx as Fx. apply res_mapM_Forall2 in Hmz as Fz.
  exists k, mx, mz. rewrite Hmx. simpl. rewrite Hmz. simpl.
  split; [done|]. split; [reflexivity|]. split; [exact Fx|].
  split; [exact Fz|]. rewrite Hns in Fx, Fz.
  split; intros r Hr;
    [eapply mx_family_ok | eapply mz_family_ok]; eauto.
Qed.

(** At distance 1 both families are empty. *)
Lemma geometry_distance_1 (p : gmap string Z) :
  p !! "d" = Some 1 -> p !! "num_syn" = Some ((1 ^ 2 - 1) / 2) ->
  _geometry p = inr [("mx", []); ("mz", [])].
Proof. intros Hd Hn. unfold _geometry, param. by rewrite Hd, Hn. Qed.

Lemma odd_above_1 (d : Z) : d mod 2 = 1 -> 1 <= d -> d <> 1 -> 3 <= d.
Proof.
  intros Hodd H1 Hne. destruct (decide (d = 2)) as [->|?]; [discriminate|lia].
Qed.

(** C2: for every odd [d >= 3], [_geometry] returns exactly [(d^2-1)/2]
    plaquette records in each of the two families "mx" and "mz", and every
    neighbour index that is not absent, in any record, lies in [0, d^2). *)
Theorem geometry_sizes_and_range (p : gmap string Z) (d : Z) :
  p !! "d" = Some d -> p !! "num_syn" = Some ((d ^ 2 - 1) / 2) ->
  d mod 2 = 1 -> 3 <= d ->
  exists mx mz,
    _geometry p = inr [("mx", mx); ("mz", mz)]
    /\ Z.of_nat (length mx) = (d ^ 2 - 1) / 2
    /\ Z.of_nat (length mz) = (d ^ 2 - 1) / 2
    /\ forall r i, r ∈ mx ++ mz -> Some i ∈ neighbors r -> 0 <= i < d ^ 2.
Proof.
  intros Hd Hn Hodd H3.
  destruct (geometry_families p d Hd Hn Hodd H3)
    as (k & mx & mz & _ & Hg & Hmx & Hmz & Hx & Hz).
  exists mx, mz. split; [exact Hg|].
  pose proof (Forall2_length _ _ _ Hmx) as Lx.
  pose proof (Forall2_length _ _ _ Hmz) as Lz.
  rewrite length_py_range in Lx, Lz.
  assert (0 <= (d ^ 2 - 1) / 2) by (apply Z.div_pos; nia).
  split; [lia|]. split; [lia|].
  intros r i Hr Hi. apply elem_of_app in Hr as [Hr|Hr].
  - by apply (proj2 (Hx r Hr)).
  - by apply (proj2 (Hz r Hr)).
Qed.

Lemma geometry_sizes_and_range_witness :
  exists mx mz,
    _geometry params3 = inr [("mx", mx); ("mz", mz)]
    /\ Z.of_nat (length mx) = 4
    /\ Z.of_nat (length mz) = 4
    /\ forall r i, r ∈ mx ++ mz -> Some i ∈ neighbors r -> 0 <= i < 9.
Proof.
  apply (geometry_sizes_and_range params3 3); [reflexivity..|lia].
Defined.

(** C6: for every odd [d >= 1], every X-type record of the geometry has
    top_right absent exactly when top_left is and bottom_right absent exactly
    when bottom_left is, and every Z-type record has top_right absent
    exactly when bottom_right is and top_left absent exactly when
    bottom_left is. *)
Theorem geometry_symmetric (p : gmap string Z) (d : Z) :
  p !! "d" = Some d -> p !! "num_syn" = Some ((d ^ 2 - 1) / 2) ->
  d mod 2 = 1 -> 1 <= d ->
  exists mx mz,
    _geometry p = inr [("mx", mx); ("mz", mz)]
    /\ (forall r, r ∈ mx ->
          (top_r r = None <-> top_l r = None)
          /\ (bot_r r = None <-> bot_l r = None))
    /\ (forall r, r ∈ mz ->
          (top_r r = None <-> bot_r r = None)
          /\ (top_l r = None <-> bot_l r = None)).
Proof.
  intros Hd Hn Hodd H1.
  assert (Hiff : forall (a b : option Z),
             present a = present b -> (a = None <-> b = None)).
  { intros [?|] [?|]; simpl; intros ?; split; congruence. }
  destruct (decide (d = 1)) as [->|Hne].
  - exists [], []. split; [by apply geometry_distance_1|].
    split; intros r Hr; by apply elem_of_nil in Hr.
  - destruct (geometry_families p d Hd Hn Hodd (odd_above_1 d Hodd H1 Hne))
      as (k & mx & mz & _ & Hg & _ & _ & Hx & Hz).
    exists mx, mz. split; [exact Hg|]. split; intros r Hr.
    + destruct (Hx r Hr) as [[Ht Hb] _]. split; by apply Hiff.
    + destruct (Hz r Hr) as [[Ht Hb] _]. split; by apply Hiff.
Qed.

Lemma geometry_symmetric_witness :
  exists mx mz,
    _geometry params3 = inr [("mx", mx); ("mz", mz)]
    /\ (forall r, r ∈ mx ->
          (top_r r = None <-> top_l r = None)
          /\ (bot_r r = None <-> bot_l r = None))
    /\ (forall r, r ∈ mz ->
          (top_r r = None <-> bot_r r = None)
          /\ (top_l r = None <-> bot_l r = None)).
Proof.
  apply (geometry_symmetric params3 3); [reflexivity..|lia].
Defined.

(** C9, as stated, fails: at [d = 3] the Z-type family has 4 records, two
    rows (indices 0 and 1) of [per_row = 2] plaquettes, not the 6 records
    that three rows (indices 0..2) would hold; no record has row index
    [d - 1 = 2]. *)
Lemma mz_rows_not_d :
  exists mx mz,
    _geometry params3 = inr [("mx", mx); ("mz", mz)]
    /\ Z.of_nat (length mz) = 4
    /\ Z.of_nat (length mz) <> (3 + 1) / 2 * 3
    /\ Forall (fun r => syndrome r / ((3 + 1) / 2) <= 1) mz.
Proof.
  eexists _, _. split; [reflexivity|]. split; [reflexivity|].
  split; [discriminate|].
  repeat constructor; discriminate.
Qed.

(** C9, amended: for every odd [d >= 3], the Z-type family is laid out with
    [per_row = (d+1)/2] plaquettes per row spanning [d - 1] rows (row
    indices [0..d-2]); the plaquette of row [row] and offset [off] is the
    record of syndrome index [row * per_row + off]; in an even row the last
    plaquette has its right neighbour pair absent, in an odd row the first
    plaquette has its left neighbour pair absent, and every other neighbour
    is present. *)
Theorem mz_layout (p : gmap string Z) (d : Z) :
  p !! "d" = Some d -> p !! "num_syn" = Some ((d ^ 2 - 1) / 2) ->
  d mod 2 = 1 -> 3 <= d ->
  let per_row := (d + 1) / 2 in
  exists mx mz,
    _geometry p = inr [("mx", mx); ("mz", mz)]
    /\ Z.of_nat (length mz) = per_row * (d - 1)
    /\ forall row off, 0 <= row <= d - 2 -> 0 <= off < per_row ->
       exists r,
         mz !! Z.to_nat (row * per_row + off) = Some r
         /\ syndrome r = row * per_row + off
         /\ (present (top_r r) = present (bot_r r)
             /\ present (top_l r) = present (bot_l r))
         /\ (present (top_r r) = false <->
             row mod 2 = 0 /\ off = per_row - 1)
         /\ (present (top_l r) = false <-> row mod 2 = 1 /\ off = 0).
Proof.
  intros Hd Hn Hodd H3 per_row.
  destruct (geometry_families p d Hd Hn Hodd H3)
    as (k & mx & mz & (Hdk & Hk & Hpr & Hns) & Hg & Hmx & Hmz & _).
  exists mx, mz. split; [exact Hg|].
  pose proof (Forall2_length _ _ _ Hmz) as Lz.
  rewrite length_py_range in Lz.
  subst per_row. rewrite Hpr. split; [nia|].
  intros row off Hrow Hoff.
  set (syn := row * (k + 1) + off).
  assert (Hsyn : 0 <= syn < 2 * k * (k + 1)) by (subst syn; nia).
  assert (Hlk : py_range ((d ^ 2 - 1) / 2) !! Z.to_nat syn = Some syn).
  { rewrite lookup_py_range by lia. f_equal. lia. }
  destruct (Forall2_lookup_l _ _ _ _ _ Hmz Hlk) as (r & Hr & Hrec).
  exists r. split; [exact Hr|].
  destruct (div_mod_of_decomp (k + 1) row off syn ltac:(lia) eq_refl)
    as [Hq Hm].
  revert Hrec. unfold mz_record. rewrite Hpr. unfold py_floordiv, py_mod.
  destruct (decide (k + 1 = 0)) as [?|_]; [lia|]. simpl.
  rewrite Hq, Hm. pose proof (parity_cases row) as Hp.
  destruct (decide (row mod 2 = 0 /\ off = k + 1 - 1)) as [[Hp0 Hlast]|Hn1];
    [|destruct (decide (row mod 2 = 1 /\ off = 0)) as [[Hp1 Hfirst]|Hn2]];
    intros [= <-]; simpl.
  - split; [reflexivity|]. split; [split; reflexivity|].
    split; split; try done; intros; lia.
  - split; [reflexivity|]. split; [split; reflexivity|].
    split; split; try done; intros; lia.
  - split; [reflexivity|]. split; [split; reflexivity|].
    split; split; try done; intros; lia.
Qed.

Lemma mz_layout_witness :
  exists mx mz,
    _geometry params3 = inr [("mx", mx); ("mz", mz)]
    /\ Z.of_nat (length mz) = 2 * 2
    /\ forall row off, 0 <= row <= 1 -> 0 <= off < 2 ->
       exists r,
         mz !! Z.to_nat (row * 2 + off) = Some r
         /\ syndrome r = row * 2 + off
         /\ (present (top_r r) = present (bot_r r)
             /\ present (top_l r) = present (bot_l r))
         /\ (present (top_r r) = false <-> row mod 2 = 0 /\ off = 2 - 1)
         /\ (present (top_l r) = false <-> row mod 2 = 1 /\ off = 0).
Proof.
  apply (mz_layout params3 3); [reflexivity..|lia].
Defined.

Lemma Forall2_syndromes (f : Z -> Res (Plaquette Z)) (l : list Z)
    (rs : list (Plaquette Z)) :
  (forall syn r, f syn = inr r -> syndrome r = syn) ->
  Forall2 (fun syn r => f syn = inr r) l rs -> syndrome <$> rs = l.
Proof.
  intros Hs HF. induction HF as [|syn r l rs Hf _ IH]; [reflexivity|].
  simpl. rewrite (Hs _ _ Hf). f_equal. exact IH.
Qed.

(** A position occurs in no more records than there are syndrome indices
    that can list it. *)
Lemma occurrences_bound (f : Z -> Res (Plaquette Z)) (n i : Z)
    (rs : list (Plaquette Z)) (cands : list Z) :
  Forall2 (fun syn r => f syn = inr r) (py_range n) rs ->
  (forall syn r, f syn = inr r -> syndrome r = syn) ->
  (forall r, r ∈ rs -> Some i ∈ neighbors r -> syndrome r ∈ cands) ->
  (occurrences i rs <= length cands)%nat.
Proof.
  intros HF Hs Hc. unfold occurrences.
  set (sel := filter (fun r => Some i ∈ neighbors r) rs).
  rewrite <- (length_fmap syndrome sel).
  apply submseteq_length, NoDup_submseteq.
  - apply (sublist_NoDup _ (syndrome <$> rs)).
    + rewrite (Forall2_syndromes f _ rs Hs HF). apply NoDup_py_range.
    + apply fmap_sublist, sublist_filter.
  - intros x Hx. apply list_elem_of_fmap in Hx as (r & -> & Hr).
    apply list_elem_of_filter in Hr as [Hi Hr]. by apply Hc.
Qed.

Lemma even_mod2 (k : Z) : (2 * k) mod 2 = 0.
Proof. apply (div_mod_of_decomp 2 k 0); lia. Qed.

(** Row and column of the four corners. *)
Lemma corner_div_mod (k i : Z) :
  1 <= k -> corner (2 * k + 1) i ->
  (i / (2 * k + 1) = 0 \/ i / (2 * k + 1) = 2 * k)
  /\ (i mod (2 * k + 1) = 0 \/ i mod (2 * k + 1) = 2 * k).
Proof.
  intros Hk [-> | [-> | [-> | ->]]].
  - destruct (div_mod_of_decomp (2 * k + 1) 0 0 0) as [-> ->]; lia.
  - destruct (div_mod_of_decomp (2 * k + 1) 0 (2 * k) (2 * k + 1 - 1))
      as [-> ->]; lia.
  - destruct (div_mod_of_decomp (2 * k + 1) (2 * k) 0
                ((2 * k + 1) * (2 * k + 1 - 1))) as [-> ->]; lia.
  - destruct (div_mod_of_decomp (2 * k + 1) (2 * k) (2 * k)
                ((2 * k + 1) ^ 2 - 1)) as [-> ->]; lia.
Qed.

Lemma X_locates_two (k syn i : Z) :
  X_locates k syn i ->
  syn ∈ [X_cand k i (i / (2 * k + 1)); X_cand k i (i / (2 * k + 1) + 1)].
Proof.
  intros (row & [-> | ->] & _ & ->); unfold X_cand;
    rewrite !elem_of_cons; auto.
Qed.

Lemma Z_locates_two (k syn i : Z) :
  Z_locates k syn i ->
  syn ∈ [Z_cand k i (i / (2 * k + 1)); Z_cand k i (i / (2 * k + 1) - 1)].
Proof.
  intros (row & _ & [-> | ->] & _ & ->); unfold Z_cand;
    rewrite !elem_of_cons; auto.
Qed.

(** At a corner the column parity leaves one X-type row only. *)
Lemma X_locates_corner (k syn i : Z) :
  1 <= k -> corner (2 * k + 1) i -> X_locates k syn i ->
  let q := i / (2 * k + 1) in
  syn ∈ [if decide (i mod (2 * k + 1) = 0) then X_cand k i q
         else X_cand k i (q + 1)].
Proof.
  intros Hk Hc (row & Hrow & Hb & ->) q. subst q.
  destruct (corner_div_mod k i Hk Hc) as [Hq Hm].
  pose proof (even_mod2 k) as He. pose proof (odd_mod2 k) as Ho.
  apply list_elem_of_singleton. unfold X_cand.
  destruct Hq as [Hq|Hq], Hm as [Hm|Hm], Hrow as [Hrow|Hrow];
    rewrite Hq in Hrow; subst row; rewrite Hm in Hb |- *;
    rewrite Hq;
    change (0 mod 2) with 0 in *; change ((0 + 1) mod 2) with 1 in *;
    rewrite ?He, ?Ho in Hb |- *;
    destruct (decide _) as [?|?]; try lia; reflexivity.
Qed.

(** At a corner the row bounds leave one Z-type row only. *)
Lemma Z_locates_corner (k syn i : Z) :
  1 <= k -> corner (2 * k + 1) i -> Z_locates k syn i ->
  let q := i / (2 * k + 1) in
  syn ∈ [if decide (q = 0) then Z_cand k i q else Z_cand k i (q - 1)].
Proof.
  intros Hk Hc (row & Hr & Hrow & Hb & ->) q. subst q.
  destruct (corner_div_mod k i Hk Hc) as [Hq _].
  apply list_elem_of_singleton. unfold Z_cand.
  destruct Hq as [Hq|Hq], Hrow as [Hrow|Hrow];
    rewrite Hq in Hrow; subst row; rewrite Hq;
    destruct (decide _) as [?|?]; try lia; reflexivity.
Qed.

Lemma mx_record_syndrome (d syn : Z) (r : Plaquette Z) :
  mx_record d syn = inr r -> syndrome r = syn.
Proof.
  unfold mx_record, py_floordiv, py_mod.
  destruct (decide _); [discriminate|]. simpl.
  repeat destruct (decide _); intros [= <-]; reflexivity.
Qed.

Lemma mz_record_syndrome (d syn : Z) (r : Plaquette Z) :
  mz_record d syn = inr r -> syndrome r = syn.
Proof.
  unfold mz_record, py_floordiv, py_mod.
  destruct (decide _); [discriminate|]. simpl.
  repeat destruct (decide _); intros [= <-]; reflexivity.
Qed.

(** C8, as stated, fails: at [d = 3] data position 1, which is not a corner,
    is a neighbour in two X-type records (those of syndromes 0 and 1). *)
Lemma position_in_two_X_records :
  exists mx mz,
    _geometry params3 = inr [("mx", mx); ("mz", mz)]
    /\ ~ corner 3 1
    /\ occurrences 1 mx = 2%nat
    /\ Some 1 ∈ neighbors (mkPlaquette 0 None None (Some 0) (Some 1))
    /\ mx !! 0%nat = Some (mkPlaquette 0 None None (Some 0) (Some 1))
    /\ mx !! 1%nat = Some (mkPlaquette 1 (Some 1) (Some 2) (Some 4) (Some 5)).
Proof.
  eexists _, _. split; [reflexivity|].
  split; [unfold corner; simpl; lia|].
  split; [vm_compute; reflexivity|].
  split; [|split; reflexivity].
  apply elem_of_neighbors. simpl. auto.
Qed.

(** C8, amended: for every odd [d >= 3], every data position occurs as a
    neighbour in at most two X-type and at most two Z-type plaquette records
    of the generated geometry, and each of the four corner positions occurs
    in at most one record of each type. *)
Theorem geometry_occurrences (p : gmap string Z) (d : Z) :
  p !! "d" = Some d -> p !! "num_syn" = Some ((d ^ 2 - 1) / 2) ->
  d mod 2 = 1 -> 3 <= d ->
  exists mx mz,
    _geometry p = inr [("mx", mx); ("mz", mz)]
    /\ forall i,
         (occurrences i mx <= 2)%nat /\ (occurrences i mz <= 2)%nat
         /\ (corner d i ->
             (occurrences i mx <= 1)%nat /\ (occurrences i mz <= 1)%nat).
Proof.
  intros Hd Hn Hodd H3.
  destruct (geometry_families p d Hd Hn Hodd H3)
    as (k & mx & mz & (Hdk & Hk & _ & _) & Hg & Hmx & Hmz & Hx & Hz).
  exists mx, mz. split; [exact Hg|]. intros i.
  split; [|split; [|intros Hc; rewrite Hdk in Hc; split]].
  - eapply (occurrences_bound _ _ i mx [_; _] Hmx (mx_record_syndrome d)).
    intros r Hr Hi. apply X_locates_two. by apply (proj2 (Hx r Hr)).
  - eapply (occurrences_bound _ _ i mz [_; _] Hmz (mz_record_syndrome d)).
    intros r Hr Hi. apply Z_locates_two. by apply (proj2 (Hz r Hr)).
  - eapply (occurrences_bound _ _ i mx [_] Hmx (mx_record_syndrome d)).
    intros r Hr Hi. apply (X_locates_corner k _ i Hk Hc).
    by apply (proj2 (Hx r Hr)).
  - eapply (occurrences_bound _ _ i mz [_] Hmz (mz_record_syndrome d)).
    intros r Hr Hi. apply (Z_locates_corner k _ i Hk Hc).
    by apply (proj2 (Hz r Hr)).
Qed.

Lemma geometry_occurrences_witness :
  exists mx mz,
    _geometry params3 = inr [("mx", mx); ("mz", mz)]
    /\ forall i,
         (occurrences i mx <= 2)%nat /\ (occurrences i mz <= 2)%nat
         /\ (corner 3 i ->
             (occurrences i mx <= 1)%nat /\ (occurrences i mz <= 1)%nat).
Proof.
  apply (geometry_occurrences params3 3); [reflexivity..|lia].
Defined.

(** ** Final stabilizer round and logical bit *)

Lemma chars_of_chars (l : list ascii) : chars (of_chars l) = l.
Proof. apply list_ascii_of_string_of_list_ascii. Qed.

Lemma of_chars_app (a b : list ascii) :
  of_chars (a ++ b) = of_chars a +:+ of_chars b.
Proof. induction a as [|c a IH]; simpl; [reflexivity|]. by rewrite IH. Qed.

Lemma str_app_assoc (a b c : string) : (a +:+ b) +:+ c = a +:+ (b +:+ c).
Proof.
  induction a as [|x a IH]; [reflexivity|].
  change (String x ((a +:+ b) +:+ c) = String x (a +:+ (b +:+ c))).
  by rewrite IH.
Qed.

Lemma str_app_empty (a : string) : a +:+ "" = a.
Proof.
  induction a as [|x a IH]; [reflexivity|].
  change (String x (a +:+ "") = String x a). by rewrite IH.
Qed.

Lemma length_of_chars (l : list ascii) :
  String.length (of_chars l) = length l.
Proof. induction l as [|c l IH]; simpl; [reflexivity|]. by rewrite IH. Qed.

Lemma int_of_bit_char (b : Z) : is_bit b -> int_of_char (bit_char b) = inr b.
Proof. intros [-> | ->]; reflexivity. Qed.

Lemma py_str_bit (b : Z) : is_bit b -> py_str b = of_chars [bit_char b].
Proof. intros [-> | ->]; reflexivity. Qed.

Lemma mod2_is_bit (n : Z) : is_bit (n mod 2).
Proof. unfold is_bit. pose proof (parity_cases n). lia. Qed.

Lemma readout_values_of_bits (vs : list Z) :
  Forall is_bit vs ->
  res_mapM int_of_char (chars (bits_string vs)) = inr vs.
Proof.
  intros H. unfold bits_string. rewrite chars_of_chars.
  induction H as [|b vs Hb _ IH]; simpl; [reflexivity|].
  rewrite (int_of_bit_char b Hb). simpl. rewrite IH. reflexivity.
Qed.

Lemma py_index_val (rv : list Z) (i : Z) :
  0 <= i < Z.of_nat (length rv) -> py_index rv i = inr (val rv i).
Proof.
  intros Hi. unfold py_index, val.
  destruct (decide (i < 0)) as [?|_]; [lia|].
  destruct (decide _) as [_|?]; [|lia].
  destruct (rv !! Z.to_nat i) as [a|] eqn:Hl.
  - f_equal. symmetry. by apply nth_lookup_Some with (d := 0).
  - apply lookup_ge_None in Hl. lia.
Qed.

Lemma zsum_from (l : list Z) (a : Z) : fold_left Z.add l a = a + zsum l.
Proof.
  unfold zsum. revert a. induction l as [|x l IH]; intros a; simpl; [lia|].
  rewrite (IH (a + x)), (IH (0 + x)). lia.
Qed.

Lemma zsum_cons (x : Z) (l : list Z) : zsum (x :: l) = x + zsum l.
Proof. unfold zsum at 1. simpl. apply zsum_from. Qed.

(** The code adds 0 for an absent neighbour; the spec leaves it out. *)
Lemma stabilizer_val_spec (rv : list Z) (r : Plaquette Z) :
  (forall i, Some i ∈ neighbors r -> 0 <= i < Z.of_nat (length rv)) ->
  stabilizer_val rv r = inr (spec_plaquette_parity rv r).
Proof.
  intros Hr. unfold stabilizer_val, spec_plaquette_parity, present_neighbors.
  assert (Hm : res_mapM (neighbor_value rv) (neighbors r)
               = inr (map (fun o => match o with
                                    | Some i => val rv i
                                    | None => 0
                                    end) (neighbors r))).
  { apply res_mapM_Forall2. apply Forall2_fmap_r, Forall_Forall2_diag.
    apply Forall_forall. intros [i|] Hi; simpl; [|reflexivity].
    apply py_index_val, Hr, Hi. }
  rewrite Hm. simpl. do 2 f_equal.
  destruct r as [s [a|] [b|] [c|] [e|]]; simpl; rewrite ?zsum_cons;
    unfold zsum; simpl; lia.
Qed.

Lemma stabilizer_string_spec (rv : list Z) (records : list (Plaquette Z)) :
  (forall r i, r ∈ records -> Some i ∈ neighbors r ->
               0 <= i < Z.of_nat (length rv)) ->
  stabilizer_string rv records = inr (spec_half rv records).
Proof.
  intros Hr. unfold stabilizer_string, spec_half, bits_string.
  assert (G : forall acc,
    res_foldl
      (fun acc idx_list =>
         (v <- stabilizer_val rv idx_list ;; inr (py_str v +:+ acc))%res)
      records acc
    = inr (of_chars (map bit_char (rev (map (spec_plaquette_parity rv) records)))
           +:+ acc)).
  { induction records as [|r records IH]; intros acc; simpl; [reflexivity|].
    rewrite stabilizer_val_spec by (intros i Hi; apply (Hr r i); [by left|done]).
    simpl. rewrite IH by (intros r' i Hr' Hi; apply (Hr r' i); [by right|done]).
    rewrite map_app, of_chars_app. simpl.
    rewrite py_str_bit by apply mod2_is_bit.
    by rewrite str_app_assoc. }
  rewrite G. by rewrite str_app_empty.
Qed.

Lemma logical_parity_spec (rv : list Z) (idxs : list Z) :
  (forall i, i ∈ idxs -> 0 <= i < Z.of_nat (length rv)) ->
  logical_parity rv idxs = inr (zsum (map (val rv) idxs) mod 2).
Proof.
  intros Hi. unfold logical_parity.
  assert (G : forall acc, acc mod 2 = acc ->
    res_foldl
      (fun logical_readout idx =>
         (v <- py_index rv idx ;; inr ((logical_readout + v) mod 2))%res)
      idxs acc
    = inr ((acc + zsum (map (val rv) idxs)) mod 2)).
  { induction idxs as [|i idxs IH]; intros acc Hacc; simpl.
    - unfold zsum. simpl. rewrite Z.add_0_r. by rewrite Hacc.
    - rewrite py_index_val by (apply Hi; by left). simpl.
      rewrite IH.
      + rewrite zsum_cons, Zplus_mod_idemp_l. do 2 f_equal. lia.
      + intros j Hj. apply Hi. by right.
      + apply Z.mod_mod. lia. }
  rewrite G by reflexivity. reflexivity.
Qed.

(** Every neighbour index of the geometry of an odd distance is a data
    index; at distance 1 both families are empty. *)
Lemma geometry_in_range (p : gmap string Z) (d : Z)
    (mx mz : list (Plaquette Z)) :
  p !! "d" = Some d -> p !! "num_syn" = Some ((d ^ 2 - 1) / 2) ->
  d mod 2 = 1 -> 1 <= d ->
  _geometry p = inr [("mx", mx); ("mz", mz)] ->
  forall r i, r ∈ mx ++ mz -> Some i ∈ neighbors r -> 0 <= i < d ^ 2.
Proof.
  intros Hd Hn Hodd H1 Hg.
  destruct (decide (d = 1)) as [->|Hne].
  - rewrite (geometry_distance_1 p Hd Hn) in Hg. injection Hg as <- <-.
    intros r i Hr. by apply elem_of_nil in Hr.
  - destruct (geometry_families p d Hd Hn Hodd (odd_above_1 d Hodd H1 Hne))
      as (k & mx' & mz' & _ & Hg' & _ & _ & Hx & Hz).
    rewrite Hg in Hg'. injection Hg' as <- <-.
    intros r i Hr Hi. apply elem_of_app in Hr as [Hr|Hr].
    + by apply (proj2 (Hx r Hr)).
    + by apply (proj2 (Hz r Hr)).
Qed.

Lemma py_range3_column (d : Z) :
  1 <= d -> py_range3 0 (d ^ 2) d = inr (map (fun j => j * d) (py_range d)).
Proof.
  intros Hd. unfold py_range3.
  destruct (decide (d = 0)) as [?|_]; [lia|].
  destruct (decide (0 < d)) as [_|?]; [|lia].
  assert (Hn : (d ^ 2 - 0 + d - 1) / d = d).
  { symmetry. apply (Z.div_unique_pos _ _ d (d - 1)); lia. }
  rewrite Hn. unfold py_range. rewrite map_map. reflexivity.
Qed.

Lemma str_from_app (hi lo : list ascii) (n : Z) :
  Z.of_nat (length hi) = n -> str_from (of_chars (hi ++ lo)) n = of_chars lo.
Proof.
  intros Hn. unfold str_from, str_len, py_slice, slice_bound.
  rewrite chars_of_chars, length_of_chars.
  rewrite length_app.
  destruct (decide (n < 0)) as [?|_]; [lia|].
  destruct (decide (_ < 0)) as [?|_]; [lia|].
  rewrite Z.min_id. rewrite Z.min_l by lia.
  replace (Z.to_nat n) with (length hi) by lia.
  rewrite drop_app_length. rewrite take_ge by lia. reflexivity.
Qed.

Lemma str_upto_app (hi lo : list ascii) (n : Z) :
  Z.of_nat (length hi) = n -> str_upto (of_chars (hi ++ lo)) n = of_chars hi.
Proof.
  intros Hn. unfold str_upto, py_slice, slice_bound.
  rewrite chars_of_chars. rewrite length_app.
  destruct (decide (0 < 0)) as [?|_]; [lia|].
  destruct (decide (n < 0)) as [?|_]; [lia|].
  rewrite !Z.min_l by lia.
  replace (Z.to_nat (n - 0)) with (length hi) by lia.
  change (Z.to_nat 0) with 0%nat. rewrite drop_0, take_app_length.
  reflexivity.
Qed.

(** C4: with readout type "X" (resp. "Z") the extraction returns the mod-2
    sum of the reversed readout values at indices [0, d, 2d, ...] (resp.
    [0 .. d-1]) as the logical bit, and the freshly computed X half (resp.
    Z half), each bit the mod-2 sum of the readout values of that
    plaquette's present neighbours, spliced with the other half of the
    previous syndrome string, unchanged.  For [d = 3], readout "111111111",
    previous string "00000000" and type "X" the result is the bit 1 and the
    string "00000000". *)
Theorem extract_final_stabilizer_and_logical_readout_spec :
  (forall (L : Lattice) (d : Z) (mx mz : list (Plaquette Z))
          (vs : list Z) (hi lo : list ascii),
      params L !! "d" = Some d ->
      params L !! "num_syn" = Some ((d ^ 2 - 1) / 2) ->
      params L !! "num_data" = Some (d ^ 2) ->
      d mod 2 = 1 -> 1 <= d ->
      _geometry (params L) = inr [("mx", mx); ("mz", mz)] ->
      geometry L = [("mx", mx); ("mz", mz)] ->
      Forall is_bit vs -> Z.of_nat (length vs) = d ^ 2 ->
      Z.of_nat (length hi) = (d ^ 2 - 1) / 2 ->
      extract_final_stabilizer_and_logical_readout L
        (bits_string vs) (of_chars (hi ++ lo)) "X"
      = inr (Some (spec_column_parity (rev vs) d,
                   spec_half (rev vs) mx +:+ of_chars lo))
      /\ extract_final_stabilizer_and_logical_readout L
           (bits_string vs) (of_chars (hi ++ lo)) "Z"
         = inr (Some (spec_row_parity (rev vs) d,
                      of_chars hi +:+ spec_half (rev vs) mz)))
  /\ extract_final_stabilizer_and_logical_readout lattice3
       "111111111" "00000000" "X"
     = inr (Some (1, "00000000")).
Proof.
  split; [|vm_compute; reflexivity].
  intros L d mx mz vs hi lo Hd Hn Hnd Hodd H1 Hg HL Hvs Hlen Hhi.
  pose proof (geometry_in_range _ d mx mz Hd Hn Hodd H1 Hg) as Hrange.
  assert (Hrv : Z.of_nat (length (rev vs)) = d ^ 2) by by rewrite length_rev.
  unfold extract_final_stabilizer_and_logical_readout.
  split.
  - destruct (decide ("X" = "X")) as [_|?]; [|done].
    unfold extract_final_stabilizer_and_logical_readout_x.
    rewrite (readout_values_of_bits vs Hvs). simpl.
    rewrite HL. simpl.
    rewrite stabilizer_string_spec.
    2:{ intros r i Hr Hi. rewrite Hrv. apply (Hrange r i); [|done].
        apply elem_of_app. by left. }
    simpl. unfold param. rewrite Hn, Hnd, Hd. simpl.
    rewrite (py_range3_column d H1). simpl.
    rewrite logical_parity_spec.
    2:{ intros i Hi. apply list_elem_of_fmap in Hi as (j & -> & Hj).
        apply elem_of_py_range in Hj. rewrite Hrv. nia. }
    simpl. rewrite (str_from_app hi lo _ Hhi).
    unfold spec_column_parity. rewrite map_map. reflexivity.
  - destruct (decide ("Z" = "X")) as [?|_]; [done|].
    destruct (decide ("Z" = "Z")) as [_|?]; [|done].
    unfold extract_final_stabilizer_and_logical_readout_z.
    rewrite (readout_values_of_bits vs Hvs). simpl.
    rewrite HL. simpl.
    rewrite stabilizer_string_spec.
    2:{ intros r i Hr Hi. rewrite Hrv. apply (Hrange r i); [|done].
        apply elem_of_app. by right. }
    simpl. unfold param. rewrite Hn, Hd. simpl.
    rewrite logical_parity_spec.
    2:{ intros i Hi. apply elem_of_py_range in Hi. rewrite Hrv. nia. }
    simpl. rewrite (str_upto_app hi lo _ Hhi). reflexivity.
Qed.

Lemma extract_final_stabilizer_and_logical_readout_spec_witness :
  extract_final_stabilizer_and_logical_readout lattice3
    (bits_string [1; 0; 1; 1; 0; 0; 1; 1; 1]) (of_chars (chars "1010" ++ chars "0110")) "X"
  = inr (Some (spec_column_parity (rev [1; 0; 1; 1; 0; 0; 1; 1; 1]) 3,
               spec_half (rev [1; 0; 1; 1; 0; 0; 1; 1; 1])
                 [mkPlaquette 0 None None (Some 0) (Some 1);
                  mkPlaquette 1 (Some 1) (Some 2) (Some 4) (Some 5);
                  mkPlaquette 2 (Some 3) (Some 4) (Some 6) (Some 7);
                  mkPlaquette 3 (Some 7) (Some 8) None None]
               +:+ of_chars (chars "0110")))
  /\ extract_final_stabilizer_and_logical_readout lattice3
       (bits_string [1; 0; 1; 1; 0; 0; 1; 1; 1]) (of_chars (chars "1010" ++ chars "0110")) "Z"
     = inr (Some (spec_row_parity (rev [1; 0; 1; 1; 0; 0; 1; 1; 1]) 3,
                  of_chars (chars "1010")
                  +:+ spec_half (rev [1; 0; 1; 1; 0; 0; 1; 1; 1])
                        [mkPlaquette 0 (Some 0) (Some 1) (Some 3) (Some 4);
                         mkPlaquette 1 (Some 2) None (Some 5) None;
                         mkPlaquette 2 None (Some 3) None (Some 6);
                         mkPlaquette 3 (Some 4) (Some 5) (Some 7) (Some 8)])).
Proof.
  apply (proj1 extract_final_stabilizer_and_logical_readout_spec lattice3 3);
    try reflexivity; try lia.
  repeat constructor; unfold is_bit; lia.
Defined.

(** ** The transcript parser *)

Lemma res_mapM_pure {A B} (f : A -> Res B) (g : A -> B) (l : list A) :
  (forall x, x ∈ l -> f x = inr (g x)) -> res_mapM f l = inr (map g l).
Proof.
  intros H. apply res_mapM_Forall2.
  apply Forall2_fmap_r, Forall_Forall2_diag, Forall_forall. exact H.
Qed.

Lemma bit_char_not_space (b : Z) : Ascii.eqb (bit_char b) " " = false.
Proof. unfold bit_char. by destruct (decide (b = 0)). Qed.

Lemma split_chars_join (ts : list (list Z)) :
  forall (t : list Z) (cur : list ascii),
    split_chars cur
      (map bit_char t
       ++ concat (map (fun r => " "%char :: map bit_char r) ts))
    = of_chars (rev cur ++ map bit_char t) :: map bits_string ts.
Proof.
  induction ts as [|t1 ts IHts]; intros t; induction t as [|c t IHt];
    intros cur; simpl.
  - by rewrite app_nil_r.
  - rewrite bit_char_not_space, IHt. simpl.
    by rewrite <- app_assoc.
  - rewrite app_nil_r. f_equal. apply (IHts t1 []).
  - rewrite bit_char_not_space, IHt. simpl.
    by rewrite <- app_assoc.
Qed.

Lemma py_split_transcript (b : Z) (rounds : list (list Z)) :
  py_split (transcript b rounds)
  = of_chars [bit_char b] :: map bits_string rounds.
Proof.
  unfold py_split, transcript. rewrite chars_of_chars.
  apply (split_chars_join rounds [b] []).
Qed.

Lemma py_index_head {A} (x : A) (l : list A) : py_index (x :: l) 0 = inr x.
Proof.
  unfold py_index. destruct (decide (0 < 0)) as [?|_]; [lia|].
  destruct (decide _) as [_|Hn]; [reflexivity|].
  simpl length in Hn. lia.
Qed.

Lemma py_slice_rest {A} (l : list A) :
  py_slice l 1 (Z.of_nat (length l)) = drop 1 l.
Proof.
  unfold py_slice, slice_bound.
  destruct (decide (1 < 0)) as [?|_]; [lia|].
  destruct (decide (_ < 0)) as [?|_]; [lia|].
  rewrite Z.min_id. destruct l as [|x l]; [reflexivity|].
  simpl length. rewrite Z.min_l by lia.
  change (Z.to_nat 1) with 1%nat. change (drop 1 (x :: l)) with l.
  rewrite take_ge by lia. reflexivity.
Qed.

Lemma bin_value_bits (bs : list Z) (acc : Z) :
  Forall is_bit bs ->
  bin_value acc (map bit_char bs)
  = inr (fold_left (fun a b => 2 * a + b) bs acc).
Proof.
  intros H. revert acc. induction H as [|b bs Hb _ IH]; intros acc; simpl;
    [reflexivity|].
  assert (Hc : bit_of_char (bit_char b) = inr b)
    by (destruct Hb as [-> | ->]; reflexivity).
  rewrite Hc. simpl. apply IH.
Qed.

Lemma int_base2_bits (bs : list Z) :
  bs <> [] -> Forall is_bit bs ->
  int_base2 (bits_string bs) = inr (binary_value bs).
Proof.
  intros Hne H. unfold int_base2, bits_string, binary_value.
  rewrite chars_of_chars. destruct bs as [|b bs]; [done|].
  change (map bit_char (b :: bs)) with (bit_char b :: map bit_char bs).
  apply (bin_value_bits (b :: bs) 0 H).
Qed.

Lemma fold_ones (n : nat) (acc : Z) :
  fold_left (fun a b => 2 * a + b) (repeat 1 n) acc
  = acc * 2 ^ Z.of_nat n + (2 ^ Z.of_nat n - 1).
Proof.
  revert acc. induction n as [|n IH]; intros acc.
  - simpl. lia.
  - simpl repeat. simpl fold_left. rewrite IH.
    rewrite Nat2Z.inj_succ, Z.pow_succ_r by lia. lia.
Qed.

Lemma fold_zeros (n : nat) (acc : Z) :
  fold_left (fun a b => 2 * a + b) (repeat 0 n) acc = acc * 2 ^ Z.of_nat n.
Proof.
  revert acc. induction n as [|n IH]; intros acc.
  - simpl. lia.
  - simpl repeat. simpl fold_left. rewrite IH.
    rewrite Nat2Z.inj_succ, Z.pow_succ_r by lia. lia.
Qed.

Lemma Forall_repeat_bit (b : Z) (n : nat) : is_bit b -> Forall is_bit (repeat b n).
Proof. intros Hb. induction n; simpl; constructor; auto. Qed.

(** The two masks, as integers. *)
Lemma mask_Z_value (n : Z) :
  0 < n -> int_base2 (str_repeat "1" n) = inr (Z.ones n).
Proof.
  intros Hn. unfold str_repeat.
  change (repeat "1"%char (Z.to_nat n)) with (repeat (bit_char 1) (Z.to_nat n)).
  replace (repeat (bit_char 1) (Z.to_nat n))
    with (map bit_char (repeat 1 (Z.to_nat n))) by apply map_repeat.
  change (of_chars (map bit_char (repeat 1 (Z.to_nat n))))
    with (bits_string (repeat 1 (Z.to_nat n))).
  rewrite int_base2_bits.
  - unfold binary_value. rewrite fold_ones, Z2Nat.id by lia.
    rewrite Z.ones_equiv. f_equal; lia.
  - destruct (Z.to_nat n) eqn:E; [lia|discriminate].
  - apply Forall_repeat_bit. by right.
Qed.

Lemma mask_X_value (n : Z) :
  0 < n ->
  int_base2 (str_repeat "1" n +:+ str_repeat "0" n)
  = inr (Z.shiftl (Z.ones n) n).
Proof.
  intros Hn. unfold str_repeat. rewrite <- of_chars_app.
  change (repeat "1"%char (Z.to_nat n)) with (repeat (bit_char 1) (Z.to_nat n)).
  change (repeat "0"%char (Z.to_nat n)) with (repeat (bit_char 0) (Z.to_nat n)).
  replace (repeat (bit_char 1) (Z.to_nat n))
    with (map bit_char (repeat 1 (Z.to_nat n))) by apply map_repeat.
  replace (repeat (bit_char 0) (Z.to_nat n))
    with (map bit_char (repeat 0 (Z.to_nat n))) by apply map_repeat.
  rewrite <- map_app.
  change (of_chars (map bit_char ?l)) with (bits_string l).
  rewrite int_base2_bits.
  - unfold binary_value. rewrite fold_left_app, fold_ones, fold_zeros.
    rewrite Z2Nat.id by lia. rewrite Z.shiftl_mul_pow2 by lia.
    rewrite Z.ones_equiv. f_equal; lia.
  - destruct (Z.to_nat n) eqn:E; [lia|discriminate].
  - apply Forall_app. split; apply Forall_repeat_bit; [by right|by left].
Qed.

Lemma high_half_mask (n x : Z) :
  0 < n ->
  Z.shiftr (Z.land x (Z.shiftl (Z.ones n) n)) n = high_half n x.
Proof.
  intros Hn. unfold high_half.
  rewrite Z.shiftr_land, Z.shiftr_shiftl_l by lia.
  rewrite Z.sub_diag, Z.shiftl_0_r, Z.land_ones by lia.
  by rewrite Z.shiftr_div_pow2 by lia.
Qed.

Lemma low_half_mask (n x : Z) : 0 < n -> Z.land x (Z.ones n) = low_half n x.
Proof. intros Hn. unfold low_half. apply Z.land_ones. lia. Qed.

(** [syndrome & 1 << loc] is true exactly when bit [loc] is set. *)
Lemma truthy_bit (s loc : Z) :
  0 <= loc -> truthy (Z.land s (Z.shiftl 1 loc)) = Z.testbit s loc.
Proof.
  intros Hl. unfold truthy.
  destruct (Z.testbit s loc) eqn:Hb.
  - apply negb_true_iff, Z.eqb_neq. intros H0.
    assert (Hc : Z.testbit (Z.land s (Z.shiftl 1 loc)) loc = true).
    { rewrite Z.land_spec, Hb, Z.shiftl_spec, Z.sub_diag by lia. reflexivity. }
    rewrite H0, Z.bits_0 in Hc. discriminate.
  - apply negb_false_iff, Z.eqb_eq. apply Z.bits_inj'. intros j Hj.
    rewrite Z.land_spec, Z.bits_0, Z.shiftl_spec by lia.
    destruct (decide (j = loc)) as [->|Hne]; [by rewrite Hb|].
    destruct (decide (j < loc)) as [Hlt|Hge].
    + rewrite (Z.testbit_neg_r 1) by lia. apply andb_false_r.
    + replace (j - loc) with (Z.succ (j - loc - 1)) by lia.
      change 1 with (2 * 0 + 1) at 1.
      rewrite Z.testbit_odd_succ by lia. rewrite Z.bits_0. apply andb_false_r.
Qed.

Lemma res_mapM_map {A B C} (f : B -> Res C) (h : A -> B) (l : list A) :
  res_mapM f (map h l) = res_mapM (fun x => f (h x)) l.
Proof. induction l as [|a l IH]; simpl; [reflexivity|]. by rewrite IH. Qed.

Lemma zip_with_adjacent (vals : list Z) :
  zip_with Z.lxor vals (drop 1 vals) = spec_xors vals.
Proof.
  unfold spec_xors. apply list_eq. intros i.
  rewrite lookup_zip_with, lookup_drop.
  change (map ?f ?l) with (f <$> l). rewrite list_lookup_fmap.
  destruct (decide (i < length vals - 1)%nat) as [Hlt|Hge].
  - rewrite lookup_seq_lt by lia. simpl. rewrite !nth_lookup.
    destruct (lookup_lt_is_Some_2 vals i ltac:(lia)) as [a Ha].
    destruct (lookup_lt_is_Some_2 vals (S i) ltac:(lia)) as [b Hb].
    rewrite Ha, Hb. reflexivity.
  - rewrite lookup_seq_ge by lia. simpl.
    destruct (vals !! i) as [a|] eqn:Ha; simpl; [|reflexivity].
    rewrite (proj2 (lookup_ge_None vals (S i))); [reflexivity|].
    apply lookup_lt_Some in Ha. lia.
Qed.

Lemma defect_loop_spec (coord : Z -> Z -> TQubit) (n : Z) (halves : list Z) :
  defect_loop coord n halves = inr (spec_defects coord n halves).
Proof.
  unfold defect_loop, spec_defects.
  rewrite (res_mapM_pure _
    (fun '(T, h) =>
       concat (map (fun loc => if Z.testbit h loc then [coord T loc] else [])
                   (py_range n)))); [reflexivity|].
  intros [T h] _.
  rewrite (res_mapM_pure _
    (fun loc => if Z.testbit h loc then [coord T loc] else []));
    [reflexivity|].
  intros loc Hloc. apply elem_of_py_range in Hloc.
  unfold py_lshift. destruct (decide (loc < 0)) as [?|_]; [lia|]. simpl.
  rewrite truthy_bit by lia. reflexivity.
Qed.



(** ** Stabilization rounds *)

Lemma append_ops_app (c : Circuit) (a b : list Op) :
  append_ops (append_ops c a) b = append_ops c (a ++ b).
Proof. unfold append_ops. simpl. by rewrite app_assoc. Qed.

Lemma entangle_of_ok (cls : Stabilizer) (qi : Plaquette Qubit) (c : Circuit) :
  valid_plaquette cls qi -> syndrome_apart qi ->
  entangle_of cls qi c = (inr tt, append_ops c (spec_protocol cls qi)).
Proof.
  destruct cls; simpl; [apply XXXX_entangle_ok | apply ZZZZ_entangle_ok].
Qed.

Lemma m_iter_entangle (cs : list Stabilizer) (qis : list (Plaquette Qubit))
    (c : Circuit) :
  Forall2 valid_plaquette cs qis -> Forall syndrome_apart qis ->
  m_iter (fun '(cls, qi) => entangle_of cls qi) (zip cs qis) c
  = (inr tt, append_ops c (concat (zip_with spec_protocol cs qis))).
Proof.
  intros H. revert c. induction H as [|cls qi cs qis Hv _ IH]; intros c Hap.
  - simpl. unfold m_ret. by rewrite append_ops_nil.
  - apply Forall_cons in Hap as [Hq Hap].
    simpl. unfold m_bind. rewrite (entangle_of_ok cls qi c Hv Hq).
    rewrite (IH _ Hap), append_ops_app. reflexivity.
Qed.

Lemma lattice_entangle_ok (q : XXZZQubit) :
  Forall2 valid_plaquette (stabilizers (lattice q))
    (qubit_indices (lattice q)) ->
  Forall syndrome_apart (qubit_indices (lattice q)) ->
  lattice_entangle q
  = (inr tt, {| name := name q;
                circ := append_ops (circ q) (spec_entangle (lattice q));
                lattice := lattice q |}).
Proof.
  intros Hvalid Hap. unfold lattice_entangle, m_bind, m_get, on_circ.
  rewrite (m_iter_entangle _ _ _ Hvalid Hap). reflexivity.
Qed.

Lemma py_range_double (n : Z) :
  0 <= n -> py_range (n * 2) = py_range n ++ map (Z.add n) (py_range n).
Proof.
  intros Hn. unfold py_range.
  replace (Z.to_nat (n * 2)) with (Z.to_nat n + Z.to_nat n)%nat by lia.
  rewrite seq_app, map_app. f_equal.
  replace (seq (0 + Z.to_nat n) (Z.to_nat n))
    with (map (Nat.add (Z.to_nat n)) (seq 0 (Z.to_nat n)))
    by (etrans; [apply (fmap_add_seq (Z.to_nat n) 0)|f_equal; lia]).
  rewrite !map_map. apply map_ext. intros k. lia.
Qed.

Lemma py_slice_low {A} (l1 l2 : list A) (n : Z) :
  Z.of_nat (length l1) = n -> Z.of_nat (length l2) = n ->
  py_slice (l1 ++ l2) 0 n = l1.
Proof.
  intros H1 H2. unfold py_slice, slice_bound. rewrite length_app.
  destruct (decide (0 < 0)) as [?|_]; [lia|].
  destruct (decide (n < 0)) as [?|_]; [lia|].
  rewrite !Z.min_l by lia.
  replace (Z.to_nat (n - 0)) with (length l1) by lia.
  change (Z.to_nat 0) with 0%nat. by rewrite drop_0, take_app_length.
Qed.

Lemma py_slice_high {A} (l1 l2 : list A) (n : Z) :
  Z.of_nat (length l1) = n -> Z.of_nat (length l2) = n ->
  py_slice (l1 ++ l2) n (n * 2) = l2.
Proof.
  intros H1 H2. unfold py_slice, slice_bound. rewrite length_app.
  destruct (decide (n < 0)) as [?|_]; [lia|].
  destruct (decide (n * 2 < 0)) as [?|_]; [lia|].
  rewrite !Z.min_l by lia.
  replace (Z.to_nat n) with (length l1) by lia.
  rewrite drop_app_length. rewrite take_ge by lia. reflexivity.
Qed.

Lemma zip_with_maps {A B C D} (f : B -> C -> D) (g : A -> B) (h : A -> C)
    (l : list A) :
  zip_with f (map g l) (map h l) = map (fun x => f (g x) (h x)) l.
Proof. induction l as [|a l IH]; simpl; [reflexivity|]. by rewrite IH. Qed.

(** Measuring a family of [n] units into the low or the high half of the
    round's register. *)
Lemma measure_halves (r : QReg) (c : CReg) (n : Z) :
  0 <= n -> qreg_size r = n -> creg_size c = n * 2 ->
  circ_measure (qreg_bits r) (py_slice (creg_bits c) 0 n)
  = emit (spec_measure_family r c 0)
  /\ circ_measure (qreg_bits r) (py_slice (creg_bits c) n (n * 2))
     = emit (spec_measure_family r c n).
Proof.
  intros Hn Hr Hc. unfold creg_bits. rewrite Hc, (py_range_double n Hn).
  rewrite map_app, map_map.
  assert (Hl : forall {X} (f : Z -> X),
             Z.of_nat (length (map f (py_range n))) = n).
  { intros X f. rewrite length_map, length_py_range. lia. }
  rewrite py_slice_low, py_slice_high by apply Hl.
  unfold circ_measure, qreg_bits, spec_measure_family. rewrite Hr.
  split.
  - destruct (decide _) as [_|Hne].
    + rewrite zip_with_maps. reflexivity.
    + rewrite !length_map in Hne. done.
  - destruct (decide _) as [_|Hne].
    + rewrite zip_with_maps. reflexivity.
    + rewrite !length_map in Hne. done.
Qed.

(** C3: on a lattice whose plaquettes are valid (each has its family's
    presence symmetry and a syndrome unit that is none of its neighbours,
    as every generated lattice has), a call of [stabilize] raises the round
    counter T by exactly 1, creates one classical register of size
    [2 * num_syn] and adds it to the circuit, applies every plaquette's
    entangling protocol across both families, measures the Z-syndrome
    family into bits [0 .. num_syn - 1] and the X-syndrome family into bits
    [num_syn .. 2 * num_syn - 1] of that register, and then resets both
    syndrome families (a barrier closes the round). *)
Theorem stabilize_round (q : XXZZQubit) (T num_syn : Z) (mz mx : QReg) :
  params (lattice q) !! "T" = Some T ->
  params (lattice q) !! "num_syn" = Some num_syn -> 0 <= num_syn ->
  qregisters (lattice q) !! "mz" = Some mz -> qreg_size mz = num_syn ->
  qregisters (lattice q) !! "mx" = Some mx -> qreg_size mx = num_syn ->
  Forall2 valid_plaquette (stabilizers (lattice q))
    (qubit_indices (lattice q)) ->
  Forall syndrome_apart (qubit_indices (lattice q)) ->
  stabilize q = (inr tt, after_round q mz mx num_syn T)
  /\ params (lattice (after_round q mz mx num_syn T)) !! "T" = Some (T + 1)
  /\ creg_size (round_register (name q) num_syn (T + 1)) = 2 * num_syn.
Proof.
  intros HT Hn Hpos Hmz Hsz Hmx Hsx Hvalid Hap.
  destruct q as [nm c L]. simpl in *.
  split; [|split; [by simplify_map_eq | simpl; lia]].
  destruct (measure_halves mz (round_register nm num_syn (T + 1)) num_syn
              Hpos Hsz eq_refl) as [Hlow _].
  destruct (measure_halves mx (round_register nm num_syn (T + 1)) num_syn
              Hpos Hsx eq_refl) as [_ Hhigh].
  unfold stabilize, after_round, m_bind, get_param, set_param, set_cregister,
    get_qregister, m_get, m_modify, on_circ, param, qregisters_get.
  simpl. rewrite HT. simpl.
  rewrite lookup_insert_ne by done. rewrite Hn. simpl.
  rewrite lookup_insert_eq. simpl.
  rewrite lattice_entangle_ok by assumption. simpl.
  rewrite Hmz. simpl. rewrite lookup_insert_ne by done. rewrite Hn. simpl.
  fold (round_register nm num_syn (T + 1)).
  rewrite Hlow. simpl.
  rewrite Hmx. simpl. rewrite !lookup_insert_ne by done. rewrite Hn. simpl.
  rewrite Hhigh. simpl.
  rewrite Hmz. simpl. rewrite Hmx. simpl.
  unfold spec_round, spec_entangle, circ_reset, spec_reset_family, qreg_bits.
  simpl. rewrite !map_map. simpl.
  repeat rewrite <- app_assoc. reflexivity.
Qed.

Lemma stabilize_round_witness :
  stabilize qubit3 = (inr tt, after_round qubit3 mz3 mx3 4 (-1))
  /\ params (lattice (after_round qubit3 mz3 mx3 4 (-1))) !! "T" = Some (-1 + 1)
  /\ creg_size (round_register (name qubit3) 4 (-1 + 1)) = 2 * 4.
Proof.
  apply (stabilize_round qubit3 (-1) 4 mz3 mx3); try reflexivity; try lia.
  - repeat constructor.
  - repeat constructor; unfold syndrome_apart, neighbors; simpl;
      rewrite !not_elem_of_cons; repeat split;
      first [discriminate | apply not_elem_of_nil].
Defined.

(** ** The distance-3 lattice is the one the source builds *)

Lemma lattice3_constructed :
  (exists a, XXZZLattice_init {[ "d" := 3 ]} "tqubit" = inr a
             /\ la_params a = params lattice3
             /\ la_qregisters a = qregisters lattice3)
  /\ gen_qubit_indices_and_stabilizers (params lattice3) (qregisters lattice3)
     = inr (geometry lattice3,
            (qubit_indices lattice3, stabilizers lattice3)).
Proof.
  split; [|vm_compute; reflexivity].
  eexists. split; [reflexivity|]. split; vm_compute; reflexivity.
Qed.

(** The first round of the distance-3 qubit: counter 0, an 8-bit register,
    49 operations (32 of the eight protocols, 8 measurements, 8 resets, a
    barrier). *)
Lemma stabilize_qubit3 :
  exists q', stabilize qubit3 = (inr tt, q')
    /\ params (lattice q') !! "T" = Some 0
    /\ circ_cregs (circ q') = [{| creg_size := 8; creg_name := "tqubit_c0" |}]
    /\ cregisters (lattice q') !! "syndrome0"
       = Some {| creg_size := 8; creg_name := "tqubit_c0" |}
    /\ length (ops (circ q')) = 49%nat
    /\ nth 32 (ops (circ q'))  OpBarrier
       = OpMeasure {| q_reg := mz3; q_idx := 0 |}
           {| c_reg := {| creg_size := 8; creg_name := "tqubit_c0" |};
              c_idx := 0 |}
    /\ nth 36 (ops (circ q')) OpBarrier
       = OpMeasure {| q_reg := mx3; q_idx := 0 |}
           {| c_reg := {| creg_size := 8; creg_name := "tqubit_c0" |};
              c_idx := 4 |}.
Proof.
  eexists. split; [vm_compute; reflexivity|].
  repeat split; vm_compute; reflexivity.
Qed.

(** The transcript of the docstring of [parse_readout]: one transition, two
    X-type defects at plaquette indices 0 and 1, no Z-type defect. *)
Lemma parse_readout_docstring :
  transcript 1 [[1; 0; 1; 0; 0; 0; 0; 0]; [1; 0; 0; 1; 0; 0; 0; 0]]
  = "1 10100000 10010000"
  /\ exists m, parse_readout lattice3 "1 10100000 10010000" None = inr (1, m)
       /\ m !! "X" = Some [(0 # 1, -1 # 2, 1 # 2); (0 # 1, 1 # 2, 3 # 2)]%Q
       /\ m !! "Z" = Some [].
Proof.
  split; [reflexivity|]. eexists. split; [vm_compute; reflexivity|].
  split; vm_compute; reflexivity.
Qed.

(** ** Generated plaquettes are valid *)

Lemma data_neighbor_present (q : gmap string QReg) (idx : option Z)
    (o : option Qubit) :
  data_neighbor q idx = inr o -> present o = present idx.
Proof.
  destruct idx as [i|]; simpl.
  - destruct (qregisters_get q "data") as [e|r]; simpl; [discriminate|].
    destruct (qreg_getitem r i) as [e|b]; simpl; [discriminate|].
    by intros [= <-].
  - by intros [= <-].
Qed.

Lemma plaquette_qubits_presence (q : gmap string QReg) (k : string)
    (r : Plaquette Z) (p : Plaquette Qubit) :
  plaquette_qubits q k r = inr p ->
  present (top_l p) = present (top_l r)
  /\ present (top_r p) = present (top_r r)
  /\ present (bot_l p) = present (bot_l r)
  /\ present (bot_r p) = present (bot_r r).
Proof.
  unfold plaquette_qubits.
  destruct (qregisters_get q k) as [e|reg]; simpl; [discriminate|].
  destruct (qreg_getitem reg (syndrome r)) as [e|s]; simpl; [discriminate|].
  destruct (data_neighbor q (top_l r)) as [e|tl] eqn:H1; simpl; [discriminate|].
  destruct (data_neighbor q (top_r r)) as [e|tr] eqn:H2; simpl; [discriminate|].
  destruct (data_neighbor q (bot_l r)) as [e|bl] eqn:H3; simpl; [discriminate|].
  destruct (data_neighbor q (bot_r r)) as [e|br] eqn:H4; simpl; [discriminate|].
  intros [= <-]. simpl.
  repeat split; eapply data_neighbor_present; eassumption.
Qed.

Lemma family_valid (q : gmap string QReg) (k : string) (cls : Stabilizer)
    (rs : list (Plaquette Z)) (ps : list (Plaquette Qubit)) :
  (forall r, r ∈ rs ->
     match cls with XXXX => X_symmetric r | ZZZZ => Z_symmetric r end) ->
  res_mapM (plaquette_qubits q k) rs = inr ps ->
  Forall2 valid_plaquette (map (fun _ => cls) ps) ps.
Proof.
  intros Hsym Hm. apply res_mapM_Forall2 in Hm.
  apply Forall2_fmap_l, Forall_Forall2_diag, Forall_forall.
  intros p Hp. apply list_elem_of_lookup in Hp as [j Hj].
  destruct (Forall2_lookup_r _ _ _ _ _ Hm Hj) as (r & Hr & Hpr).
  apply plaquette_qubits_presence in Hpr as (H1 & H2 & H3 & H4).
  assert (Hin : r ∈ rs) by (apply list_elem_of_lookup; eauto).
  specialize (Hsym r Hin).
  destruct cls; destruct Hsym as [Ha Hb]; split; congruence.
Qed.

(** For every odd distance the plaquettes that
    [gen_qubit_indices_and_stabilizers] returns satisfy their families'
    presence symmetry, so no round of such a lattice raises the geometry
    error. *)
Lemma generated_plaquettes_valid (p : gmap string Z) (q : gmap string QReg)
    (d : Z) (g : Geometry) (qi : list (Plaquette Qubit))
    (st : list Stabilizer) :
  p !! "d" = Some d -> p !! "num_syn" = Some ((d ^ 2 - 1) / 2) ->
  d mod 2 = 1 -> 1 <= d ->
  gen_qubit_indices_and_stabilizers p q = inr (g, (qi, st)) ->
  Forall2 valid_plaquette st qi.
Proof.
  intros Hd Hn Hodd H1. unfold gen_qubit_indices_and_stabilizers.
  assert (Hg : exists mx mz, _geometry p = inr [("mx", mx); ("mz", mz)]
             /\ (forall r, r ∈ mx -> X_symmetric r)
             /\ (forall r, r ∈ mz -> Z_symmetric r)).
  { destruct (decide (d = 1)) as [->|Hne].
    - exists [], []. split; [by apply geometry_distance_1|].
      split; intros r Hr; by apply elem_of_nil in Hr.
    - destruct (geometry_families p d Hd Hn Hodd (odd_above_1 d Hodd H1 Hne))
        as (k & mx & mz & _ & Hg & _ & _ & Hx & Hz).
      exists mx, mz. split; [exact Hg|].
      split; intros r Hr; [apply (Hx r Hr) | apply (Hz r Hr)]. }
  destruct Hg as (mx & mz & -> & Hsx & Hsz). simpl.
  destruct (res_mapM (plaquette_qubits q "mx") mx) as [e|px] eqn:Hpx; simpl;
    [discriminate|].
  destruct (res_mapM (plaquette_qubits q "mz") mz) as [e|pz] eqn:Hpz; simpl;
    [discriminate|].
  intros [= <- <- <-]. rewrite app_nil_r.
  apply Forall2_app.
  - by apply (family_valid q "mx" XXXX mx px Hsx).
  - rewrite app_nil_r. by apply (family_valid q "mz" ZZZZ mz pz Hsz).
Qed.

(** ** Generated plaquettes keep the syndrome unit apart *)

Lemma py_index_elem {A} (l : list A) (i : Z) (a : A) :
  py_index l i = inr a -> a ∈ l.
Proof.
  unfold py_index. cbv zeta.
  destruct (decide (0 <= _ < _)) as [_|_]; [|discriminate].
  destruct (l !! _) as [x|] eqn:E; [|discriminate].
  intros [= <-]. apply list_elem_of_lookup. eauto.
Qed.

Lemma qreg_getitem_reg (r : QReg) (i : Z) (b : Qubit) :
  qreg_getitem r i = inr b -> q_reg b = r.
Proof.
  intros H. apply py_index_elem in H. unfold qreg_bits in H.
  apply list_elem_of_In, in_map_iff in H as (j & <- & _). reflexivity.
Qed.

Lemma data_neighbor_reg (q : gmap string QReg) (idx : option Z) (b : Qubit) :
  data_neighbor q idx = inr (Some b) -> q !! "data" = Some (q_reg b).
Proof.
  destruct idx as [i|]; simpl; [|discriminate].
  unfold qregisters_get. destruct (q !! "data") as [dr|]; simpl; [|discriminate].
  destruct (qreg_getitem dr i) as [e|u] eqn:E; simpl; [discriminate|].
  intros [= <-]. by rewrite (qreg_getitem_reg dr i u E).
Qed.

Lemma plaquette_qubits_apart (q : gmap string QReg) (k : string)
    (r : Plaquette Z) (p : Plaquette Qubit) :
  registers_apart q -> k = "mx" \/ k = "mz" ->
  plaquette_qubits q k r = inr p -> syndrome_apart p.
Proof.
  intros Hq Hk. unfold plaquette_qubits, qregisters_get.
  destruct (q !! k) as [reg|] eqn:Hreg; simpl; [|discriminate].
  destruct (qreg_getitem reg (syndrome r)) as [e|s] eqn:Hs; simpl;
    [discriminate|].
  destruct (data_neighbor q (top_l r)) as [e|tl] eqn:H1; simpl; [discriminate|].
  destruct (data_neighbor q (top_r r)) as [e|tr] eqn:H2; simpl; [discriminate|].
  destruct (data_neighbor q (bot_l r)) as [e|bl] eqn:H3; simpl; [discriminate|].
  destruct (data_neighbor q (bot_r r)) as [e|br] eqn:H4; simpl; [discriminate|].
  intros [= <-]. unfold syndrome_apart, neighbors. simpl.
  apply qreg_getitem_reg in Hs.
  assert (Hne : forall idx, data_neighbor q idx <> inr (Some s)).
  { intros idx Hd. apply data_neighbor_reg in Hd.
    apply (Hq (q_reg s) reg Hd); [|exact Hs].
    destruct Hk as [-> | ->]; [by left | by right]. }
  rewrite !not_elem_of_cons. repeat split;
    try (intros <-; eapply Hne; eassumption). apply not_elem_of_nil.
Qed.

Lemma family_apart (q : gmap string QReg) (k : string)
    (rs : list (Plaquette Z)) (ps : list (Plaquette Qubit)) :
  registers_apart q -> k = "mx" \/ k = "mz" ->
  res_mapM (plaquette_qubits q k) rs = inr ps ->
  Forall syndrome_apart ps.
Proof.
  intros Hq Hk Hm. apply res_mapM_Forall2 in Hm.
  apply Forall_forall. intros p Hp.
  apply list_elem_of_lookup in Hp as [j Hj].
  destruct (Forall2_lookup_r _ _ _ _ _ Hm Hj) as (r & _ & Hpr).
  by apply (plaquette_qubits_apart q k r p).
Qed.

(** When the data register is neither syndrome register, no plaquette that
    [gen_qubit_indices_and_stabilizers] returns has its syndrome unit among
    its neighbours. *)
Lemma generated_plaquettes_apart (p : gmap string Z) (q : gmap string QReg)
    (d : Z) (g : Geometry) (qi : list (Plaquette Qubit))
    (st : list Stabilizer) :
  p !! "d" = Some d -> p !! "num_syn" = Some ((d ^ 2 - 1) / 2) ->
  d mod 2 = 1 -> 1 <= d ->
  registers_apart q ->
  gen_qubit_indices_and_stabilizers p q = inr (g, (qi, st)) ->
  Forall syndrome_apart qi.
Proof.
  intros Hd Hn Hodd H1 Hq. unfold gen_qubit_indices_and_stabilizers.
  assert (Hg : exists mx mz, _geometry p = inr [("mx", mx); ("mz", mz)]).
  { destruct (decide (d = 1)) as [->|Hne].
    - exists [], []. by apply geometry_distance_1.
    - destruct (geometry_families p d Hd Hn Hodd (odd_above_1 d Hodd H1 Hne))
        as (k & mx & mz & _ & Hg & _).
      by exists mx, mz. }
  destruct Hg as (mx & mz & ->). simpl.
  destruct (res_mapM (plaquette_qubits q "mx") mx) as [e|px] eqn:Hpx; simpl;
    [discriminate|].
  destruct (res_mapM (plaquette_qubits q "mz") mz) as [e|pz] eqn:Hpz; simpl;
    [discriminate|].
  intros [= <- <- <-]. rewrite app_nil_r.
  apply Forall_app. split.
  - apply (family_apart q "mx" mx px Hq); [by left | exact Hpx].
  - apply (family_apart q "mz" mz pz Hq); [by right | exact Hpz].
Qed.

Lemma str_app_inv_head (a b c : string) : a +:+ b = a +:+ c -> b = c.
Proof.
  induction a as [|x a IH]; [done|].
  intros H. apply IH.
  change (String x (a +:+ b) = String x (a +:+ c)) in H. congruence.
Qed.

(** Construction names the three registers differently, so the registers
    it makes are apart. *)
Lemma XXZZLattice_init_registers_apart (p : gmap string Z) (nm : string)
    (a : LatticeArgs) :
  XXZZLattice_init p nm = inr a -> registers_apart (la_qregisters a).
Proof.
  unfold XXZZLattice_init.
  destruct (p !! "d") as [d|] eqn:Hd; [|discriminate].
  destruct (decide (d mod 2 <> 1)) as [?|_]; [discriminate|].
  unfold param. simplify_map_eq. intros [= <-]. simpl.
  intros dr sr Hdr Hsr. simplify_map_eq.
  destruct Hsr as [Hsr|Hsr]; simplify_map_eq;
    intros [= _ E]; by apply str_app_inv_head in E.
Qed.

(** * Further properties *)

(** ** Shape of the records *)

Section RecordShapes.
Variables d k : Z.
Hypothesis Hdk : d = 2 * k + 1.
Hypothesis Hk : 1 <= k.

(** The three branches of the X-type loop body give one shape: the top
    pair sits in data row [row - 1] and is absent in row 0, the bottom pair
    sits in data row [row] and is absent in row [d]. *)
Lemma mx_record_uniform (row off : Z) :
  0 <= row <= d -> 0 <= off < k ->
  let p := row mod 2 in
  mx_record d (row * k + off)
  = inr (mkPlaquette (row * k + off)
           (if decide (row = 0) then None
            else Some ((row - 1) * d + 2 * off + p))
           (if decide (row = 0) then None
            else Some ((row - 1) * d + 2 * off + p + 1))
           (if decide (row = d) then None else Some (row * d + 2 * off + p))
           (if decide (row = d) then None
            else Some (row * d + 2 * off + p + 1))).
Proof.
  intros Hrow Hoff p. subst p.
  assert (Hw : (d - 1) / 2 = k).
  { rewrite Hdk. replace (2 * k + 1 - 1) with (k * 2) by lia.
    by rewrite Z.div_mul. }
  destruct (div_mod_of_decomp k row off (row * k + off) ltac:(lia) eq_refl)
    as [Hq Hm].
  unfold mx_record. rewrite Hw. unfold py_floordiv, py_mod.
  destruct (decide (k = 0)) as [?|_]; [lia|]. simpl. rewrite Hq, Hm.
  destruct (decide (row = 0)) as [H0|H0];
    [|destruct (decide (row = d)) as [Hd|Hd]].
  - subst row. change (0 mod 2) with 0.
    destruct (decide (0 = d)) as [?|_]; [lia|].
    f_equal. f_equal; f_equal; lia.
  - assert (Hp : row mod 2 = 1) by (rewrite Hd, Hdk; apply odd_mod2).
    rewrite Hp. f_equal. f_equal; f_equal; nia.
  - f_equal. f_equal; f_equal; lia.
Qed.

(** The Z-type loop body: both pairs span data rows [row] and [row + 1];
    the left pair is absent at the first plaquette of an odd row, the right
    pair at the last plaquette of an even row. *)
Lemma mz_record_uniform (row off : Z) :
  0 <= row <= d - 2 -> 0 <= off <= k ->
  let p := row mod 2 in
  mz_record d (row * (k + 1) + off)
  = inr (mkPlaquette (row * (k + 1) + off)
           (if decide (p = 1 /\ off = 0) then None
            else Some (row * d + 2 * off - p))
           (if decide (p = 0 /\ off = k) then None
            else Some (row * d + 2 * off - p + 1))
           (if decide (p = 1 /\ off = 0) then None
            else Some ((row + 1) * d + 2 * off - p))
           (if decide (p = 0 /\ off = k) then None
            else Some ((row + 1) * d + 2 * off - p + 1))).
Proof.
  intros Hrow Hoff p. subst p.
  assert (Hw : (d + 1) / 2 = k + 1).
  { rewrite Hdk. replace (2 * k + 1 + 1) with ((k + 1) * 2) by lia.
    by rewrite Z.div_mul. }
  destruct (div_mod_of_decomp (k + 1) row off (row * (k + 1) + off)
              ltac:(lia) eq_refl) as [Hq Hm].
  unfold mz_record. rewrite Hw. unfold py_floordiv, py_mod.
  destruct (decide (k + 1 = 0)) as [?|_]; [lia|]. simpl. rewrite Hq, Hm.
  pose proof (parity_cases row) as Hp.
  destruct (decide (row mod 2 = 0 /\ off = k + 1 - 1)) as [[Hp0 Hl]|Hn1];
    [|destruct (decide (row mod 2 = 1 /\ off = 0)) as [[Hp1 Hf]|Hn2]].
  - destruct (decide (row mod 2 = 1 /\ off = 0)) as [?|_]; [lia|].
    destruct (decide (row mod 2 = 0 /\ off = k)) as [_|?]; [|lia].
    f_equal. f_equal; f_equal; lia.
  - destruct (decide (row mod 2 = 1 /\ off = 0)) as [_|?]; [|lia].
    destruct (decide (row mod 2 = 0 /\ off = k)) as [?|_]; [lia|].
    f_equal. f_equal; f_equal; lia.
  - destruct (decide (row mod 2 = 1 /\ off = 0)) as [?|_]; [lia|].
    destruct (decide (row mod 2 = 0 /\ off = k)) as [?|_]; [lia|].
    f_equal. f_equal; f_equal; lia.
Qed.

End RecordShapes.

Lemma family_member {f : Z -> Res (Plaquette Z)} {n : Z}
    {rs : list (Plaquette Z)} (syn : Z) (r : Plaquette Z) :
  Forall2 (fun syn r => f syn = inr r) (py_range n) rs ->
  0 <= syn < n -> f syn = inr r -> r ∈ rs.
Proof.
  intros HF Hsyn Hf.
  assert (Hl : py_range n !! Z.to_nat syn = Some syn).
  { rewrite lookup_py_range by lia. f_equal. lia. }
  destruct (Forall2_lookup_l _ _ _ _ _ HF Hl) as (r' & Hr' & Hf').
  assert (r' = r) by congruence. subst r'.
  apply list_elem_of_lookup. eauto.
Qed.

Lemma in_first_row (d q c : Z) :
  0 < d -> 0 <= c < d -> (0 <= q * d + c < d <-> q = 0).
Proof.
  intros Hd Hc. split; [|intros ->; lia]. intros Hr.
  destruct (div_mod_of_decomp d q c (q * d + c) Hc eq_refl) as [H1 _].
  destruct (div_mod_of_decomp d 0 (q * d + c) (q * d + c) Hr ltac:(lia))
    as [H2 _].
  congruence.
Qed.

Lemma elem_of_left_column (d q c : Z) :
  0 < d -> 0 <= c < d -> 0 <= q < d ->
  (q * d + c ∈ left_column d <-> c = 0).
Proof.
  intros Hd Hc Hq. unfold left_column.
  change (map ?f ?l) with (f <$> l). rewrite list_elem_of_fmap. split.
  - intros (j & Hj & Hin). apply elem_of_py_range in Hin.
    destruct (div_mod_of_decomp d q c (q * d + c) Hc eq_refl) as [_ H1].
    destruct (div_mod_of_decomp d j 0 (q * d + c) ltac:(lia) ltac:(lia))
      as [_ H2].
    congruence.
  - intros ->. exists q. split; [lia|]. by apply elem_of_py_range.
Qed.

Lemma elem_of_top_row (d q c : Z) :
  0 < d -> 0 <= c < d -> (q * d + c ∈ top_row d <-> q = 0).
Proof.
  intros Hd Hc. unfold top_row. rewrite elem_of_py_range.
  by apply in_first_row.
Qed.

(** Every record of either family at [d = 2k + 1], by row and offset. *)
Lemma mx_member_shape (d k : Z) (mx : list (Plaquette Z)) (r : Plaquette Z) :
  d = 2 * k + 1 -> 1 <= k ->
  Forall2 (fun syn r => mx_record d syn = inr r)
    (py_range (2 * k * (k + 1))) mx ->
  r ∈ mx ->
  exists row off, 0 <= row <= d /\ 0 <= off < k
    /\ mx_record d (row * k + off) = inr r.
Proof.
  intros Hdk Hk HF Hr.
  destruct (family_record r HF Hr) as (syn & Hsyn & Hrec).
  destruct (row_offset k (2 * k + 2) syn ltac:(lia) ltac:(lia))
    as (Hrow & Hoff & Hs).
  exists (syn / k), (syn mod k). rewrite <- Hs. repeat split; try lia.
  exact Hrec.
Qed.

Lemma mz_member_shape (d k : Z) (mz : list (Plaquette Z)) (r : Plaquette Z) :
  d = 2 * k + 1 -> 1 <= k ->
  Forall2 (fun syn r => mz_record d syn = inr r)
    (py_range (2 * k * (k + 1))) mz ->
  r ∈ mz ->
  exists row off, 0 <= row <= d - 2 /\ 0 <= off <= k
    /\ mz_record d (row * (k + 1) + off) = inr r.
Proof.
  intros Hdk Hk HF Hr.
  destruct (family_record r HF Hr) as (syn & Hsyn & Hrec).
  destruct (row_offset (k + 1) (2 * k) syn ltac:(lia) ltac:(lia))
    as (Hrow & Hoff & Hs).
  exists (syn / (k + 1)), (syn mod (k + 1)). rewrite <- Hs.
  repeat split; try lia. exact Hrec.
Qed.

(** X1: within every record of the geometry of an odd [d >= 3] the present
    neighbours are listed in strictly increasing order, so a plaquette never
    names the same data position twice. *)
Theorem neighbours_increasing (p : gmap string Z) (d : Z) :
  p !! "d" = Some d -> p !! "num_syn" = Some ((d ^ 2 - 1) / 2) ->
  d mod 2 = 1 -> 3 <= d ->
  exists mx mz,
    _geometry p = inr [("mx", mx); ("mz", mz)]
    /\ forall r, r ∈ mx ++ mz ->
         StronglySorted Z.lt (present_neighbors r)
         /\ NoDup (present_neighbors r).
Proof.
  intros Hd Hn Hodd H3.
  destruct (geometry_families p d Hd Hn Hodd H3)
    as (k & mx & mz & (Hdk & Hk & _ & Hns) & Hg & Hmx & Hmz & _).
  rewrite Hns in Hmx, Hmz.
  exists mx, mz. split; [exact Hg|].
  assert (Hsorted : forall r, r ∈ mx ++ mz ->
            StronglySorted Z.lt (present_neighbors r)).
  { intros r Hr. apply elem_of_app in Hr as [Hr|Hr].
    - destruct (mx_member_shape d k mx r Hdk Hk Hmx Hr)
        as (row & off & Hrow & Hoff & Hrec).
      rewrite (mx_record_uniform d k Hdk Hk row off Hrow Hoff) in Hrec.
      injection Hrec as <-. pose proof (parity_cases row) as Hp.
      unfold present_neighbors, neighbors. simpl.
      repeat destruct (decide _); simpl; repeat constructor; nia.
    - destruct (mz_member_shape d k mz r Hdk Hk Hmz Hr)
        as (row & off & Hrow & Hoff & Hrec).
      rewrite (mz_record_uniform d k Hdk Hk row off Hrow Hoff) in Hrec.
      injection Hrec as <-. pose proof (parity_cases row) as Hp.
      unfold present_neighbors, neighbors. simpl.
      repeat destruct (decide _); simpl; repeat constructor; nia. }
  intros r Hr. split; [by apply Hsorted|].
  specialize (Hsorted r Hr).
  induction Hsorted as [|x l _ IH Hall]; constructor; [|exact IH].
  intros Hin. rewrite Forall_forall in Hall.
  specialize (Hall x Hin). lia.
Qed.

Lemma neighbours_increasing_witness :
  exists mx mz,
    _geometry params3 = inr [("mx", mx); ("mz", mz)]
    /\ forall r, r ∈ mx ++ mz ->
         StronglySorted Z.lt (present_neighbors r)
         /\ NoDup (present_neighbors r).
Proof.
  apply (neighbours_increasing params3 3); [reflexivity..|lia].
Defined.

(** X2: in the geometry of an odd [d >= 3] every data position is a
    neighbour of at least one X-type record and of at least one Z-type
    record: no data qubit is left unchecked by either family. *)
Theorem every_position_covered (p : gmap string Z) (d : Z) :
  p !! "d" = Some d -> p !! "num_syn" = Some ((d ^ 2 - 1) / 2) ->
  d mod 2 = 1 -> 3 <= d ->
  exists mx mz,
    _geometry p = inr [("mx", mx); ("mz", mz)]
    /\ forall i, 0 <= i < d ^ 2 ->
         (exists r, r ∈ mx /\ Some i ∈ neighbors r)
         /\ (exists r, r ∈ mz /\ Some i ∈ neighbors r).
Proof.
  intros Hd Hn Hodd H3.
  destruct (geometry_families p d Hd Hn Hodd H3)
    as (k & mx & mz & (Hdk & Hk & _ & Hns) & Hg & Hmx & Hmz & _).
  rewrite Hns in Hmx, Hmz.
  exists mx, mz. split; [exact Hg|]. intros i Hi.
  destruct (row_offset d d i ltac:(lia) ltac:(nia)) as (Hr & Hc & Hirc).
  set (r := i / d) in *. set (c := i mod d) in *. clearbody r c.
  pose proof (parity_cases r) as Hpr.
  assert (Hpr1 : (r + 1) mod 2 = 1 - r mod 2).
  { destruct Hpr as [Hp|Hp]; rewrite Hp;
      pose proof (Z.div_mod r 2 ltac:(lia)) as Hdm; rewrite Hp in Hdm.
    - apply (div_mod_of_decomp 2 (r / 2) 1 (r + 1)); lia.
    - apply (div_mod_of_decomp 2 (r / 2 + 1) 0 (r + 1)); lia. }
  split.
  - (* the X-type record: the row among r, r + 1 whose parity suits c *)
    set (row := if decide ((c = 0 /\ r mod 2 = 0) \/ (c <> 0 /\ r mod 2 = 1))
                then r else r + 1).
    assert (Hrow : 0 <= row <= d) by (subst row; destruct (decide _); lia).
    assert (Hcp : 0 <= c - row mod 2 <= 2 * k - 1).
    { subst row. destruct (decide _) as [?|?]; [lia|]. rewrite Hpr1. lia. }
    set (off := (c - row mod 2) / 2).
    pose proof (Z.div_mod (c - row mod 2) 2 ltac:(lia)) as Hdm.
    pose proof (parity_cases (c - row mod 2)) as Hb.
    fold off in Hdm.
    assert (Hoff : 0 <= off < k) by lia.
    pose proof (mx_record_uniform d k Hdk Hk row off Hrow Hoff) as Hrec.
    simpl in Hrec.
    eexists. split.
    + apply (family_member (row * k + off) _ Hmx); [nia|exact Hrec].
    + apply elem_of_neighbors. simpl.
      assert (Hrr : row = r \/ row = r + 1)
        by (subst row; destruct (decide _); auto).
      destruct Hrr as [Hrr|Hrr].
      * destruct (decide (row = d)) as [?|_]; [lia|].
        destruct Hb as [Hb|Hb]; [right; right; left|right; right; right];
          f_equal; lia.
      * destruct (decide (row = 0)) as [?|_]; [lia|].
        destruct Hb as [Hb|Hb]; [left|right; left]; f_equal; nia.
  - (* the Z-type record: row r, or r - 1 on the last data row *)
    set (row := if decide (r = d - 1) then r - 1 else r).
    assert (Hrow : 0 <= row <= d - 2) by (subst row; destruct (decide _); lia).
    pose proof (parity_cases row) as Hprow.
    set (off := (c + row mod 2) / 2).
    pose proof (Z.div_mod (c + row mod 2) 2 ltac:(lia)) as Hdm.
    pose proof (parity_cases (c + row mod 2)) as Hb.
    fold off in Hdm.
    assert (Hoff : 0 <= off <= k) by lia.
    pose proof (mz_record_uniform d k Hdk Hk row off Hrow Hoff) as Hrec.
    simpl in Hrec.
    eexists. split.
    + apply (family_member (row * (k + 1) + off) _ Hmz); [nia|exact Hrec].
    + apply elem_of_neighbors. simpl.
      assert (Hrr : row = r \/ row = r - 1)
        by (subst row; destruct (decide _); auto).
      destruct Hb as [Hb|Hb].
      * destruct (decide (row mod 2 = 1 /\ off = 0)) as [?|_]; [lia|].
        destruct Hrr as [Hrr|Hrr]; [left|right; right; left]; f_equal; nia.
      * destruct (decide (row mod 2 = 0 /\ off = k)) as [?|_]; [lia|].
        destruct Hrr as [Hrr|Hrr]; [right; left|right; right; right];
          f_equal; nia.
Qed.

Lemma every_position_covered_witness :
  exists mx mz,
    _geometry params3 = inr [("mx", mx); ("mz", mz)]
    /\ forall i, 0 <= i < 3 ^ 2 ->
         (exists r, r ∈ mx /\ Some i ∈ neighbors r)
         /\ (exists r, r ∈ mz /\ Some i ∈ neighbors r).
Proof.
  apply (every_position_covered params3 3); [reflexivity..|lia].
Defined.

Lemma overlap_cases (idxs : list Z) (r : Plaquette Z) (P : Z -> bool) :
  (forall i, Some i ∈ neighbors r -> (i ∈ idxs <-> P i = true)) ->
  overlap idxs r = length (List.filter P (present_neighbors r)).
Proof.
  intros H. unfold overlap.
  assert (G : forall l, (forall i, i ∈ l -> (i ∈ idxs <-> P i = true)) ->
            length (filter (fun i => i ∈ idxs) l) = length (List.filter P l)).
  { induction l as [|x l IH]; intros Hl; [reflexivity|].
    rewrite filter_cons. simpl.
    pose proof (Hl x ltac:(by left)) as Hx.
    assert (IH' := IH (fun i Hi => Hl i ltac:(by right))).
    destruct (decide (x ∈ idxs)) as [Hin|Hnin]; destruct (P x) eqn:HP;
      simpl; try (rewrite IH'; reflexivity).
    - apply Hx in Hin. congruence.
    - exfalso. apply Hnin. by apply Hx. }
  apply G. intros i Hi. apply H.
  unfold present_neighbors in Hi. apply list_elem_of_omap in Hi as (o & Ho & Hid).
  simpl in Hid. by subst o.
Qed.

(** X3: at every odd [d >= 3], each Z-type record has an even number of
    neighbours in the left-most column (the indices [range(0, num_data, d)]
    of the logical X) and each X-type record an even number in the top-most
    row (the indices [range(d)] of the logical Z): a logical operator
    overlaps every plaquette of the other type on 0 or 2 data qubits. *)
Theorem logical_lines_overlap_evenly (p : gmap string Z) (d : Z) :
  p !! "d" = Some d -> p !! "num_syn" = Some ((d ^ 2 - 1) / 2) ->
  d mod 2 = 1 -> 3 <= d ->
  exists mx mz,
    _geometry p = inr [("mx", mx); ("mz", mz)]
    /\ py_range3 0 (d ^ 2) d = inr (left_column d)
    /\ (forall r, r ∈ mz ->
          overlap (left_column d) r = 0%nat \/ overlap (left_column d) r = 2%nat)
    /\ (forall r, r ∈ mx ->
          overlap (top_row d) r = 0%nat \/ overlap (top_row d) r = 2%nat).
Proof.
  intros Hd Hn Hodd H3.
  destruct (geometry_families p d Hd Hn Hodd H3)
    as (k & mx & mz & (Hdk & Hk & _ & Hns) & Hg & Hmx & Hmz & _).
  rewrite Hns in Hmx, Hmz.
  exists mx, mz. split; [exact Hg|].
  split; [apply py_range3_column; lia|]. split; intros r Hr.
  - destruct (mz_member_shape d k mz r Hdk Hk Hmz Hr)
      as (row & off & Hrow & Hoff & Hrec).
    rewrite (mz_record_uniform d k Hdk Hk row off Hrow Hoff) in Hrec.
    injection Hrec as <-. pose proof (parity_cases row) as Hp.
    rewrite (overlap_cases _ _ (fun i => bool_decide (i mod d = 0))).
    2:{ intros i Hi. rewrite bool_decide_eq_true.
        apply elem_of_neighbors in Hi. simpl in Hi.
        assert (Hshape : exists q c, 0 <= q < d /\ 0 <= c < d /\ i = q * d + c).
        { destruct Hi as [Hi|[Hi|[Hi|Hi]]];
            case_decide; try discriminate; injection Hi as ->;
            [exists row, (2 * off - row mod 2)
            |exists row, (2 * off - row mod 2 + 1)
            |exists (row + 1), (2 * off - row mod 2)
            |exists (row + 1), (2 * off - row mod 2 + 1)];
            repeat split; lia. }
        destruct Hshape as (q & c & Hq & Hc & ->).
        rewrite (elem_of_left_column d q c) by lia.
        by destruct (div_mod_of_decomp d q c (q * d + c) Hc eq_refl) as [_ ->]. }
    unfold present_neighbors, neighbors. simpl.
    assert (Hm : forall q c, 0 <= c < d ->
              bool_decide ((q * d + c) mod d = 0) = bool_decide (c = 0)).
    { intros q c Hc.
      by destruct (div_mod_of_decomp d q c (q * d + c) Hc eq_refl) as [_ ->]. }
    assert (E1 : row * d + 2 * off - row mod 2
                 = row * d + (2 * off - row mod 2)) by lia.
    assert (E2 : row * d + 2 * off - row mod 2 + 1
                 = row * d + (2 * off - row mod 2 + 1)) by lia.
    assert (E3 : (row + 1) * d + 2 * off - row mod 2
                 = (row + 1) * d + (2 * off - row mod 2)) by lia.
    assert (E4 : (row + 1) * d + 2 * off - row mod 2 + 1
                 = (row + 1) * d + (2 * off - row mod 2 + 1)) by lia.
    rewrite ?E2, ?E4, ?E1, ?E3.
    repeat destruct (decide _); simpl; rewrite ?Hm by lia;
      repeat case_bool_decide; simpl; try lia; auto.
  - destruct (mx_member_shape d k mx r Hdk Hk Hmx Hr)
      as (row & off & Hrow & Hoff & Hrec).
    rewrite (mx_record_uniform d k Hdk Hk row off Hrow Hoff) in Hrec.
    injection Hrec as <-. pose proof (parity_cases row) as Hp.
    rewrite (overlap_cases _ _ (fun i => bool_decide (i / d = 0))).
    2:{ intros i Hi. rewrite bool_decide_eq_true.
        apply elem_of_neighbors in Hi. simpl in Hi.
        assert (Hshape : exists q c, 0 <= c < d /\ i = q * d + c).
        { destruct Hi as [Hi|[Hi|[Hi|Hi]]];
            case_decide; try discriminate; injection Hi as ->;
            [exists (row - 1), (2 * off + row mod 2)
            |exists (row - 1), (2 * off + row mod 2 + 1)
            |exists row, (2 * off + row mod 2)
            |exists row, (2 * off + row mod 2 + 1)];
            repeat split; lia. }
        destruct Hshape as (q & c & Hc & ->).
        rewrite (elem_of_top_row d q c) by lia.
        by destruct (div_mod_of_decomp d q c (q * d + c) Hc eq_refl) as [-> _]. }
    unfold present_neighbors, neighbors. simpl.
    assert (Hm : forall q c, 0 <= c < d ->
              bool_decide ((q * d + c) / d = 0) = bool_decide (q = 0)).
    { intros q c Hc.
      by destruct (div_mod_of_decomp d q c (q * d + c) Hc eq_refl) as [-> _]. }
    assert (E1 : (row - 1) * d + 2 * off + row mod 2
                 = (row - 1) * d + (2 * off + row mod 2)) by lia.
    assert (E2 : (row - 1) * d + 2 * off + row mod 2 + 1
                 = (row - 1) * d + (2 * off + row mod 2 + 1)) by lia.
    assert (E3 : row * d + 2 * off + row mod 2
                 = row * d + (2 * off + row mod 2)) by lia.
    assert (E4 : row * d + 2 * off + row mod 2 + 1
                 = row * d + (2 * off + row mod 2 + 1)) by lia.
    rewrite ?E2, ?E4, ?E1, ?E3.
    repeat destruct (decide _); simpl; rewrite ?Hm by lia;
      repeat case_bool_decide; simpl; try lia; auto.
Qed.

Lemma logical_lines_overlap_evenly_witness :
  exists mx mz,
    _geometry params3 = inr [("mx", mx); ("mz", mz)]
    /\ py_range3 0 (3 ^ 2) 3 = inr (left_column 3)
    /\ (forall r, r ∈ mz ->
          overlap (left_column 3) r = 0%nat \/ overlap (left_column 3) r = 2%nat)
    /\ (forall r, r ∈ mx ->
          overlap (top_row 3) r = 0%nat \/ overlap (top_row 3) r = 2%nat).
Proof.
  apply (logical_lines_overlap_evenly params3 3); [reflexivity..|lia].
Defined.

(** ** From the geometry to the units of the circuit *)

Lemma qreg_getitem_in_range (r : QReg) (i : Z) :
  0 <= i < qreg_size r -> qreg_getitem r i = inr {| q_reg := r; q_idx := i |}.
Proof.
  intros Hi. unfold qreg_getitem, py_index, qreg_bits.
  rewrite length_map, length_py_range.
  destruct (decide (i < 0)) as [?|_]; [lia|].
  destruct (decide _) as [_|?]; [|lia].
  change (map ?f ?l) with (f <$> l).
  rewrite list_lookup_fmap, lookup_py_range by lia. simpl.
  do 2 f_equal. lia.
Qed.

Lemma data_neighbor_in_range (q : gmap string QReg) (dr : QReg)
    (idx : option Z) :
  q !! "data" = Some dr ->
  (forall i, idx = Some i -> 0 <= i < qreg_size dr) ->
  data_neighbor q idx = inr (data_unit dr <$> idx).
Proof.
  intros Hq Hi. destruct idx as [i|]; simpl; [|reflexivity].
  unfold qregisters_get. rewrite Hq. simpl.
  rewrite qreg_getitem_in_range by (by apply Hi). reflexivity.
Qed.

Lemma plaquette_qubits_in_range (q : gmap string QReg) (key : string)
    (sr dr : QReg) (r : Plaquette Z) :
  q !! key = Some sr -> q !! "data" = Some dr ->
  0 <= syndrome r < qreg_size sr ->
  (forall i, Some i ∈ neighbors r -> 0 <= i < qreg_size dr) ->
  plaquette_qubits q key r = inr (plaquette_of sr dr r).
Proof.
  intros Hs Hd Hsyn Hnb. unfold plaquette_qubits, qregisters_get.
  rewrite Hs. simpl. rewrite qreg_getitem_in_range by exact Hsyn. simpl.
  rewrite !(data_neighbor_in_range q dr) by
    (try exact Hd; intros i Hi; apply Hnb, elem_of_neighbors; rewrite Hi; auto).
  reflexivity.
Qed.

(** The geometry of every odd distance, with what the units need. *)
Lemma geometry_for_units (p : gmap string Z) (d : Z) :
  p !! "d" = Some d -> p !! "num_syn" = Some ((d ^ 2 - 1) / 2) ->
  d mod 2 = 1 -> 1 <= d ->
  exists mx mz,
    _geometry p = inr [("mx", mx); ("mz", mz)]
    /\ Z.of_nat (length mx) = (d ^ 2 - 1) / 2
    /\ Z.of_nat (length mz) = (d ^ 2 - 1) / 2
    /\ forall r, r ∈ mx ++ mz ->
         0 <= syndrome r < (d ^ 2 - 1) / 2
         /\ forall i, Some i ∈ neighbors r -> 0 <= i < d ^ 2.
Proof.
  intros Hd Hn Hodd H1.
  destruct (decide (d = 1)) as [->|Hne].
  - exists [], []. split; [by apply geometry_distance_1|].
    repeat split; try reflexivity; by apply elem_of_nil in H.
  - destruct (geometry_families p d Hd Hn Hodd (odd_above_1 d Hodd H1 Hne))
      as (k & mx & mz & (Hdk & Hk & _ & Hns) & Hg & Hmx & Hmz & Hx & Hz).
    exists mx, mz. split; [exact Hg|].
    pose proof (Forall2_length _ _ _ Hmx) as Lx.
    pose proof (Forall2_length _ _ _ Hmz) as Lz.
    rewrite length_py_range in Lx, Lz.
    split; [lia|]. split; [lia|].
    intros r Hr. apply elem_of_app in Hr as [Hr|Hr].
    + destruct (family_record r Hmx Hr) as (syn & Hsyn & Hrec).
      rewrite (mx_record_syndrome d syn r Hrec).
      split; [exact Hsyn|]. intros i Hi. by apply (proj2 (Hx r Hr)).
    + destruct (family_record r Hmz Hr) as (syn & Hsyn & Hrec).
      rewrite (mz_record_syndrome d syn r Hrec).
      split; [exact Hsyn|]. intros i Hi. by apply (proj2 (Hz r Hr)).
Qed.

(** X4: on the parameters and registers that construction leaves for an odd
    [d >= 1], [gen_qubit_indices_and_stabilizers] raises nothing (no index
    leaves its register); it returns [2 * num_syn] plaquettes, the X-type
    ones first, each the units its geometry record names, with the
    stabilizer classes [_XXXX] for the first [num_syn] and [_ZZZZ] for the
    rest. *)
Theorem gen_qubit_indices_and_stabilizers_total (p : gmap string Z)
    (q : gmap string QReg) (d : Z) (dr xr zr : QReg) :
  p !! "d" = Some d -> p !! "num_syn" = Some ((d ^ 2 - 1) / 2) ->
  d mod 2 = 1 -> 1 <= d ->
  registers_sized q d dr xr zr ->
  exists mx mz,
    _geometry p = inr [("mx", mx); ("mz", mz)]
    /\ gen_qubit_indices_and_stabilizers p q
       = inr ([("mx", mx); ("mz", mz)],
              (map (plaquette_of xr dr) mx ++ map (plaquette_of zr dr) mz,
               map (fun _ => XXXX) mx ++ map (fun _ => ZZZZ) mz))
    /\ Z.of_nat (length mx) = (d ^ 2 - 1) / 2
    /\ Z.of_nat (length mz) = (d ^ 2 - 1) / 2.
Proof.
  intros Hd Hn Hodd H1 (Hqd & Hsd & Hqx & Hsx & Hqz & Hsz).
  destruct (geometry_for_units p d Hd Hn Hodd H1)
    as (mx & mz & Hg & Lx & Lz & Hr).
  exists mx, mz. split; [exact Hg|]. split; [|by split].
  unfold gen_qubit_indices_and_stabilizers. rewrite Hg. simpl.
  rewrite (res_mapM_pure _ (plaquette_of xr dr)).
  2:{ intros r Hin. destruct (Hr r) as [Hs Hnb]; [apply elem_of_app; by left|].
      apply plaquette_qubits_in_range; try done; [lia|].
      intros i Hi. rewrite Hsd. by apply Hnb. }
  simpl.
  rewrite (res_mapM_pure _ (plaquette_of zr dr)).
  2:{ intros r Hin. destruct (Hr r) as [Hs Hnb]; [apply elem_of_app; by right|].
      apply plaquette_qubits_in_range; try done; [lia|].
      intros i Hi. rewrite Hsd. by apply Hnb. }
  simpl. rewrite !app_nil_r, !map_map. reflexivity.
Qed.

Lemma gen_qubit_indices_and_stabilizers_total_witness :
  exists mx mz,
    _geometry params3 = inr [("mx", mx); ("mz", mz)]
    /\ gen_qubit_indices_and_stabilizers params3 qregisters3
       = inr ([("mx", mx); ("mz", mz)],
              (map (plaquette_of mx3 data3) mx ++ map (plaquette_of mz3 data3) mz,
               map (fun _ => XXXX) mx ++ map (fun _ => ZZZZ) mz))
    /\ Z.of_nat (length mx) = (3 ^ 2 - 1) / 2
    /\ Z.of_nat (length mz) = (3 ^ 2 - 1) / 2.
Proof.
  apply (gen_qubit_indices_and_stabilizers_total params3 qregisters3 3);
    try reflexivity; try lia.
  repeat split; reflexivity.
Defined.

(** X5: when the data register is neither syndrome register (construction
    names them differently), no plaquette that
    [gen_qubit_indices_and_stabilizers] returns for an odd [d >= 1] is
    refused by its entangle routine: run on any circuit, the routine of the
    returned class raises neither the geometry error nor any other, and
    appends that family's protocol. *)
Theorem generated_plaquettes_entangle (p : gmap string Z)
    (q : gmap string QReg) (d : Z) (g : Geometry)
    (qi : list (Plaquette Qubit)) (st : list Stabilizer) :
  p !! "d" = Some d -> p !! "num_syn" = Some ((d ^ 2 - 1) / 2) ->
  d mod 2 = 1 -> 1 <= d ->
  registers_apart q ->
  gen_qubit_indices_and_stabilizers p q = inr (g, (qi, st)) ->
  length st = length qi
  /\ forall j cls pl c,
       st !! j = Some cls -> qi !! j = Some pl ->
       entangle_of cls pl c = (inr tt, append_ops c (spec_protocol cls pl)).
Proof.
  intros Hd Hn Hodd H1 Hq Hgen.
  pose proof (generated_plaquettes_valid p q d g qi st Hd Hn Hodd H1 Hgen)
    as Hvalid.
  pose proof (generated_plaquettes_apart p q d g qi st Hd Hn Hodd H1 Hq Hgen)
    as Hap.
  split; [by apply Forall2_length in Hvalid|].
  intros j cls pl c Hcls Hpl. apply entangle_of_ok.
  - by apply (Forall2_lookup_lr _ _ _ _ _ _ Hvalid Hcls Hpl).
  - apply (proj1 (Forall_forall _ _) Hap). apply list_elem_of_lookup. eauto.
Qed.

Lemma generated_plaquettes_entangle_witness :
  registers_apart qregisters3
  /\ length (stabilizers lattice3) = length (qubit_indices lattice3)
  /\ forall j cls pl c,
       stabilizers lattice3 !! j = Some cls ->
       qubit_indices lattice3 !! j = Some pl ->
       entangle_of cls pl c = (inr tt, append_ops c (spec_protocol cls pl)).
Proof.
  assert (Hq : registers_apart qregisters3).
  { intros dr sr Hdr Hsr. vm_compute in Hdr. injection Hdr as <-.
    destruct Hsr as [Hsr|Hsr]; vm_compute in Hsr; injection Hsr as <-;
      discriminate. }
  split; [exact Hq|].
  apply (generated_plaquettes_entangle params3 qregisters3 3 geometry3);
    try reflexivity; try lia. exact Hq.
Defined.

(** ** More on the transcript parser *)

(** The parser on a well-formed single-bit transcript, whatever the number
    of rounds. *)
Lemma parse_readout_transcript (L : Lattice) (num_syn b : Z)
    (rounds : list (list Z)) (readout_type : option string) :
  params L !! "num_syn" = Some num_syn -> 0 < num_syn ->
  is_bit b -> Forall binary_round rounds ->
  parse_readout L (transcript b rounds) readout_type
  = parsed b
      (spec_defects X_coord num_syn
         (map (high_half num_syn) (transitions rounds)))
      (spec_defects Z_coord num_syn
         (map (low_half num_syn) (transitions rounds))).
Proof.
  intros Hn Hpos Hb Hrounds.
  unfold parse_readout, parsed. rewrite py_split_transcript, py_index_head.
  cbn [res_bind].
  assert (Hlen : str_len (of_chars [bit_char b]) = 1) by reflexivity.
  rewrite Hlen. destruct (decide (1 < 1)) as [?|_]; [lia|].
  assert (Hshort : int_of_short (of_chars [bit_char b]) = inr b).
  { unfold int_of_short. rewrite chars_of_chars. by apply int_of_bit_char. }
  rewrite Hshort. cbn [res_bind fst snd].
  rewrite py_slice_rest. change (drop 1 (?x :: ?l)) with l.
  rewrite <- map_rev, res_mapM_map.
  rewrite (res_mapM_pure _ binary_value).
  2:{ intros r Hr. apply list_elem_of_In, in_rev, list_elem_of_In in Hr.
      rewrite Forall_forall in Hrounds. destruct (Hrounds r Hr) as [Hne Hbits].
      by apply int_base2_bits. }
  cbn [res_bind]. rewrite py_slice_rest, zip_with_adjacent.
  fold (transitions rounds).
  unfold param. rewrite Hn. cbn [res_bind].
  rewrite (res_mapM_pure _ (high_half num_syn)).
  2:{ intros x _. rewrite (mask_X_value num_syn Hpos). cbn [res_bind].
      unfold py_rshift. destruct (decide (num_syn < 0)) as [?|_]; [lia|].
      by rewrite high_half_mask. }
  cbn [res_bind].
  rewrite (res_mapM_pure _ (low_half num_syn)).
  2:{ intros x _. rewrite (mask_Z_value num_syn Hpos). cbn [res_bind].
      by rewrite low_half_mask. }
  cbn [res_bind]. rewrite !defect_loop_spec. reflexivity.
Qed.

(** X6: a single-bit transcript with no round or one round has no
    transition, so both defect lists are empty; this holds for every value
    of [num_syn], also 0, because the masks are only computed per
    transition. *)
Theorem parse_readout_no_transition (L : Lattice) (num_syn b : Z)
    (rounds : list (list Z)) (readout_type : option string) :
  params L !! "num_syn" = Some num_syn ->
  is_bit b -> Forall binary_round rounds -> (length rounds <= 1)%nat ->
  parse_readout L (transcript b rounds) readout_type = parsed b [] [].
Proof.
  intros Hn Hb Hrounds Hlen.
  unfold parse_readout, parsed. rewrite py_split_transcript, py_index_head.
  cbn [res_bind].
  assert (Hl : str_len (of_chars [bit_char b]) = 1) by reflexivity.
  rewrite Hl. destruct (decide (1 < 1)) as [?|_]; [lia|].
  assert (Hshort : int_of_short (of_chars [bit_char b]) = inr b).
  { unfold int_of_short. rewrite chars_of_chars. by apply int_of_bit_char. }
  rewrite Hshort. cbn [res_bind fst snd].
  rewrite py_slice_rest. change (drop 1 (?x :: ?l)) with l.
  rewrite <- map_rev, res_mapM_map.
  rewrite (res_mapM_pure _ binary_value).
  2:{ intros r Hr. apply list_elem_of_In, in_rev, list_elem_of_In in Hr.
      rewrite Forall_forall in Hrounds. destruct (Hrounds r Hr) as [Hne Hbits].
      by apply int_base2_bits. }
  cbn [res_bind]. rewrite py_slice_rest, zip_with_adjacent.
  assert (Hx : spec_xors (map binary_value (rev rounds)) = []).
  { unfold spec_xors. rewrite length_map, length_rev.
    replace (length rounds - 1)%nat with 0%nat by lia. reflexivity. }
  rewrite Hx. unfold param. rewrite Hn. reflexivity.
Qed.

Lemma parse_readout_no_transition_witness :
  parse_readout lattice3 (transcript 1 [[1; 0; 1; 0; 0; 0; 0; 0]]) None
  = parsed 1 [] [].
Proof.
  apply (parse_readout_no_transition lattice3 4 1 [[1; 0; 1; 0; 0; 0; 0; 0]]);
    [reflexivity|by right| |simpl; lia].
  repeat constructor; try discriminate; unfold is_bit; lia.
Defined.

Lemma map_const_seq {A} (x : A) (a n : nat) :
  map (fun _ => x) (seq a n) = repeat x n.
Proof.
  revert a. induction n as [|n IH]; intros a; [reflexivity|].
  simpl. by rewrite IH.
Qed.

Lemma spec_xors_repeat (v : Z) (m : nat) :
  spec_xors (repeat v m) = repeat 0 (m - 1).
Proof.
  unfold spec_xors. rewrite repeat_length.
  rewrite <- (map_const_seq 0 0 (m - 1)).
  apply map_ext_in. intros T HT%in_seq.
  rewrite !nth_repeat_lt by lia. apply Z.lxor_nilpotent.
Qed.

Lemma spec_defects_zero (coord : Z -> Z -> TQubit) (n : Z) (halves : list Z) :
  Forall (fun h => h = 0) halves -> spec_defects coord n halves = [].
Proof.
  intros H. unfold spec_defects.
  assert (G : forall l : list (Z * Z), Forall (fun th => snd th = 0) l ->
    concat (map (fun '(T, h) =>
                   concat (map (fun loc =>
                                  if Z.testbit h loc then [coord T loc] else [])
                               (py_range n))) l) = []).
  { induction 1 as [|[T h] l Hh _ IH]; [reflexivity|].
    simpl in Hh. subst h. simpl. rewrite IH, app_nil_r. clear IH.
    induction (py_range n) as [|loc ls IHl]; [reflexivity|].
    simpl. rewrite Z.bits_0. exact IHl. }
  apply G. unfold enumerate.
  apply Forall_forall. intros [T h] Hin.
  apply elem_of_zip_r in Hin. rewrite Forall_forall in H. by apply H.
Qed.

(** X7: when every round of a transcript is the same string, no syndrome
    bit flips between rounds and [parse_readout] returns the logical bit
    with two empty defect lists. *)
Theorem parse_readout_constant_rounds (L : Lattice) (num_syn b : Z)
    (r : list Z) (m : nat) (readout_type : option string) :
  params L !! "num_syn" = Some num_syn -> 0 < num_syn ->
  is_bit b -> binary_round r ->
  parse_readout L (transcript b (repeat r m)) readout_type = parsed b [] [].
Proof.
  intros Hn Hpos Hb Hr.
  rewrite (parse_readout_transcript L num_syn b) by
    (try done; by apply Forall_forall; intros x Hx%list_elem_of_In%repeat_spec;
     subst x).
  assert (Ht : transitions (repeat r m) = repeat 0 (m - 1)).
  { unfold transitions.
    replace (rev (repeat r m)) with (repeat r m).
    - rewrite map_repeat. apply spec_xors_repeat.
    - clear. induction m as [|m IH]; [reflexivity|].
      simpl. rewrite <- IH. clear IH.
      induction m as [|m IH]; [reflexivity|]. simpl. by rewrite <- IH. }
  rewrite Ht, !spec_defects_zero; [reflexivity| |].
  - apply Forall_forall. intros h Hh.
    apply list_elem_of_fmap in Hh as (x & -> & Hx%list_elem_of_In%repeat_spec).
    subst x. unfold low_half. apply Z.mod_0_l. lia.
  - apply Forall_forall. intros h Hh.
    apply list_elem_of_fmap in Hh as (x & -> & Hx%list_elem_of_In%repeat_spec).
    subst x. unfold high_half. rewrite Z.div_0_l by lia. apply Z.mod_0_l. lia.
Qed.

Lemma parse_readout_constant_rounds_witness :
  parse_readout lattice3
    (transcript 0 (repeat [0; 1; 1; 0; 0; 0; 1; 0] 3)) None
  = parsed 0 [] [].
Proof.
  apply (parse_readout_constant_rounds lattice3 4 0 [0; 1; 1; 0; 0; 0; 1; 0] 3);
    [reflexivity|lia|by left|].
  split; [discriminate|]. repeat constructor; unfold is_bit; lia.
Defined.

Lemma concat_select {A} (f : Z -> A) (j : Z) (l : list Z) :
  NoDup l -> j ∈ l ->
  concat (map (fun x => if Z.eqb j x then [f x] else []) l) = [f j].
Proof.
  assert (Hnone : forall l', j ∉ l' ->
            concat (map (fun x => if Z.eqb j x then [f x] else []) l') = []).
  { induction l' as [|x l' IH]; intros Hj; [reflexivity|]. simpl.
    destruct (Z.eqb_spec j x) as [->|_].
    - exfalso. apply Hj. by left.
    - apply IH. intros Hin. apply Hj. by right. }
  induction 1 as [|x l Hx _ IH]; intros Hj; [by apply elem_of_nil in Hj|].
  simpl. destruct (Z.eqb_spec j x) as [->|Hne].
  - by rewrite (Hnone l Hx).
  - apply IH. apply elem_of_cons in Hj as [?|?]; [done|assumption].
Qed.

Lemma spec_defects_single (coord : Z -> Z -> TQubit) (n j : Z) :
  0 <= j < n -> spec_defects coord n [2 ^ j] = [coord 0 j].
Proof.
  intros Hj. unfold spec_defects, enumerate. simpl. rewrite app_nil_r.
  rewrite <- (concat_select (coord 0) j (py_range n));
    [|apply NoDup_py_range|by apply elem_of_py_range].
  f_equal. apply map_ext_in. intros loc Hloc%list_elem_of_In%elem_of_py_range.
  by rewrite Z.pow2_bits_eqb by lia.
Qed.

Lemma halves_of_power (n j : Z) :
  0 < n -> 0 <= j < 2 * n ->
  (j < n -> low_half n (2 ^ j) = 2 ^ j /\ high_half n (2 ^ j) = 0)
  /\ (n <= j -> low_half n (2 ^ j) = 0 /\ high_half n (2 ^ j) = 2 ^ (j - n)).
Proof.
  intros Hn Hj. unfold low_half, high_half. split; intros Hc.
  - assert (0 < 2 ^ j < 2 ^ n).
    { split; [apply Z.pow_pos_nonneg; lia|apply Z.pow_lt_mono_r; lia]. }
    rewrite Z.mod_small by lia. rewrite Z.div_small by lia.
    split; [reflexivity|]. apply Z.mod_0_l. lia.
  - assert (Hp : 2 ^ j = 2 ^ (j - n) * 2 ^ n).
    { rewrite <- Z.pow_add_r by lia. f_equal. lia. }
    assert (0 < 2 ^ n) by (apply Z.pow_pos_nonneg; lia).
    assert (0 < 2 ^ (j - n) < 2 ^ n).
    { split; [apply Z.pow_pos_nonneg; lia|apply Z.pow_lt_mono_r; lia]. }
    rewrite Hp, Z.mod_mul, Z.div_mul by lia.
    split; [reflexivity|]. apply Z.mod_small. lia.
Qed.

(** X8: when the newer of two rounds differs from the older one in exactly
    bit [j] of the register (counted from the right end of the string),
    [parse_readout] reports exactly one defect, at transition 0: a Z-type
    one at plaquette [j] when [j < num_syn], an X-type one at plaquette
    [j - num_syn] otherwise. *)
Theorem parse_readout_single_flip (L : Lattice) (num_syn b j : Z)
    (newer older : list Z) (readout_type : option string) :
  params L !! "num_syn" = Some num_syn -> 0 < num_syn ->
  is_bit b -> binary_round newer -> binary_round older ->
  0 <= j < 2 * num_syn ->
  binary_value newer = Z.lxor (binary_value older) (2 ^ j) ->
  parse_readout L (transcript b [newer; older]) readout_type
  = if decide (j < num_syn)
    then parsed b [] [Z_coord 0 j]
    else parsed b [X_coord 0 (j - num_syn)] [].
Proof.
  intros Hn Hpos Hb Hnew Hold Hj Hflip.
  assert (Hrounds : Forall binary_round [newer; older]).
  { apply Forall_forall. intros r Hr.
    apply elem_of_cons in Hr as [->|Hr]; [done|].
    apply elem_of_cons in Hr as [->|Hr]; [done|by apply elem_of_nil in Hr]. }
  rewrite (parse_readout_transcript L num_syn b _ _ Hn Hpos Hb Hrounds).
  assert (Ht : transitions [newer; older] = [2 ^ j]).
  { unfold transitions, spec_xors. simpl. rewrite Hflip.
    rewrite <- Z.lxor_assoc, Z.lxor_nilpotent, Z.lxor_0_l. reflexivity. }
  rewrite Ht. simpl map.
  destruct (halves_of_power num_syn j Hpos Hj) as [Hlo Hhi].
  destruct (decide (j < num_syn)) as [Hlt|Hge].
  - destruct (Hlo Hlt) as [-> ->].
    rewrite spec_defects_single by lia.
    rewrite (spec_defects_zero X_coord num_syn [0]) by (by repeat constructor).
    reflexivity.
  - destruct (Hhi ltac:(lia)) as [-> ->].
    rewrite spec_defects_single by lia.
    rewrite (spec_defects_zero Z_coord num_syn [0]) by (by repeat constructor).
    reflexivity.
Qed.

Lemma parse_readout_single_flip_witness :
  parse_readout lattice3
    (transcript 0 [[0; 0; 1; 0; 0; 0; 0; 1]; [0; 0; 0; 0; 0; 0; 0; 1]]) None
  = if decide (5 < 4) then parsed 0 [] [Z_coord 0 5]
    else parsed 0 [X_coord 0 (5 - 4)] [].
Proof.
  apply (parse_readout_single_flip lattice3 4 0 5
           [0; 0; 1; 0; 0; 0; 0; 1] [0; 0; 0; 0; 0; 0; 0; 1] None);
    try reflexivity; try lia; try (by left);
    (split; [discriminate|repeat constructor; unfold is_bit; lia]).
Defined.

(** *** Malformed transcripts *)

Lemma res_mapM_fails {A B} (f : A -> Res B) (e : exn) (l : list A) :
  (forall x, x ∈ l -> f x = inl e \/ exists y, f x = inr y) ->
  (exists x, x ∈ l /\ f x = inl e) ->
  res_mapM f l = inl e.
Proof.
  induction l as [|a l IH]; intros Hall (x & Hx & Hfx).
  - by apply elem_of_nil in Hx.
  - simpl. destruct (Hall a ltac:(by left)) as [Ha|[y Ha]]; rewrite Ha; simpl;
      [reflexivity|].
    rewrite IH; [reflexivity| |].
    + intros z Hz. apply Hall. by right.
    + apply elem_of_cons in Hx as [->|Hx]; [congruence|eauto].
Qed.

Lemma int_of_char_not_digit (c : ascii) :
  ~ is_digit c -> int_of_char c = inl ValueError.
Proof.
  intros H. unfold int_of_char. by destruct (decide _).
Qed.

(** X9: a transcript that is empty or begins with a space (its first chunk
    is the empty string), or whose first chunk is one character that is no
    digit, makes [parse_readout] raise [ValueError], whatever the lattice
    and the readout type. *)
Theorem parse_readout_bad_first_token (L : Lattice) (s : string)
    (readout_type : option string) :
  (s = ""
   \/ (exists s', s = String " " s')
   \/ (exists c s', ~ is_digit c /\ c <> " "%char
                    /\ (s = String c "" \/ s = String c (String " " s')))) ->
  parse_readout L s readout_type = inl ValueError.
Proof.
  intros [->|[[s' ->]|(c & s' & Hc & Hsp & Hs)]].
  - reflexivity.
  - assert (Hsplit : py_split (String " " s')
                     = "" :: split_chars [] (chars s')) by reflexivity.
    unfold parse_readout. rewrite Hsplit, py_index_head. reflexivity.
  - assert (Heq : Ascii.eqb c " " = false) by by apply Ascii.eqb_neq.
    assert (Hsplit : exists rest, py_split s = String c "" :: rest).
    { destruct Hs as [->| ->]; unfold py_split; simpl; rewrite Heq;
        eexists; reflexivity. }
    destruct Hsplit as [rest Hsplit].
    unfold parse_readout. rewrite Hsplit, py_index_head. cbn [res_bind].
    change (str_len (String c "")) with 1.
    destruct (decide (1 < 1)) as [?|_]; [lia|].
    assert (Hshort : int_of_short (String c "") = inl ValueError).
    { unfold int_of_short. change (chars (String c "")) with [c].
      by apply int_of_char_not_digit. }
    rewrite Hshort. reflexivity.
Qed.

Lemma parse_readout_bad_first_token_witness :
  parse_readout lattice3 " 10100000 10010000" None = inl ValueError.
Proof.
  apply parse_readout_bad_first_token. right. left. by eexists.
Defined.

Lemma int_base2_bits_or_error (r : list Z) :
  Forall is_bit r ->
  int_base2 (bits_string r) = inl ValueError
  \/ exists v, int_base2 (bits_string r) = inr v.
Proof.
  intros Hr. destruct r as [|x r]; [by left|].
  right. eexists. by apply int_base2_bits.
Qed.

(** X10: an empty round token (two spaces in a row, or a space at the end
    of the transcript) makes [parse_readout] raise [ValueError]; the lattice
    is not even consulted. *)
Theorem parse_readout_empty_round (L : Lattice) (b : Z)
    (rounds : list (list Z)) (readout_type : option string) :
  is_bit b -> Forall (Forall is_bit) rounds -> [] ∈ rounds ->
  parse_readout L (transcript b rounds) readout_type = inl ValueError.
Proof.
  intros Hb Hrounds Hempty.
  unfold parse_readout. rewrite py_split_transcript, py_index_head.
  cbn [res_bind].
  assert (Hl : str_len (of_chars [bit_char b]) = 1) by reflexivity.
  rewrite Hl. destruct (decide (1 < 1)) as [?|_]; [lia|].
  assert (Hshort : int_of_short (of_chars [bit_char b]) = inr b).
  { unfold int_of_short. rewrite chars_of_chars. by apply int_of_bit_char. }
  rewrite Hshort. cbn [res_bind fst snd].
  rewrite py_slice_rest. change (drop 1 (?x :: ?l)) with l.
  rewrite <- map_rev, res_mapM_map.
  rewrite (res_mapM_fails _ ValueError); [reflexivity| |].
  - intros r Hr. apply list_elem_of_In, in_rev, list_elem_of_In in Hr.
    rewrite Forall_forall in Hrounds. by apply int_base2_bits_or_error, Hrounds.
  - exists []. split; [|reflexivity].
    apply list_elem_of_In. apply -> in_rev. by apply list_elem_of_In.
Qed.

Lemma parse_readout_empty_round_witness :
  transcript 1 [[1; 0]; []] = "1 10 "
  /\ parse_readout lattice3 "1 10 " None = inl ValueError.
Proof.
  split; [reflexivity|].
  apply (parse_readout_empty_round lattice3 1 [[1; 0]; []] None);
    [by right| |].
  - repeat constructor; unfold is_bit; lia.
  - apply elem_of_cons; right. by left.
Defined.

Lemma py_split_full_transcript (vs : list Z) (rounds : list (list Z)) :
  py_split (full_transcript vs rounds)
  = bits_string vs :: map bits_string rounds.
Proof.
  unfold py_split, full_transcript. rewrite chars_of_chars.
  apply (split_chars_join rounds vs []).
Qed.

Lemma str_len_bits_string (vs : list Z) :
  str_len (bits_string vs) = Z.of_nat (length vs).
Proof. unfold str_len, bits_string. by rewrite length_of_chars, length_map. Qed.

Lemma py_index_second {A} (x y : A) (l : list A) :
  py_index (x :: y :: l) 1 = inr y.
Proof.
  unfold py_index. destruct (decide (1 < 0)) as [?|_]; [lia|].
  destruct (decide _) as [_|Hn]; [reflexivity|].
  simpl length in Hn. lia.
Qed.

(** X11: when the first token is longer than one character (a full lattice
    readout), [parse_readout] needs a readout type and a previous round:
    without a readout type the assertion fails; with a readout type but no
    further token the access to the previous round raises [IndexError]; and
    a readout type other than "X" and "Z" ends in a [TypeError], because the
    wrapper returns nothing to unpack. *)
Theorem parse_readout_full_preconditions (L : Lattice) (vs : list Z)
    (rounds : list (list Z)) :
  (2 <= length vs)%nat ->
  parse_readout L (full_transcript vs rounds) None = inl AssertionError
  /\ (forall rt,
        parse_readout L (full_transcript vs []) (Some rt) = inl IndexError)
  /\ (forall rt r,
        rt <> "X" -> rt <> "Z" ->
        parse_readout L (full_transcript vs (r :: rounds)) (Some rt)
        = inl TypeError).
Proof.
  intros Hlen.
  repeat split.
  - unfold parse_readout. rewrite py_split_full_transcript, py_index_head.
    cbn [res_bind]. destruct (decide _) as [_|Hn]; [reflexivity|].
    rewrite str_len_bits_string in Hn. lia.
  - intros rt. unfold parse_readout.
    rewrite py_split_full_transcript, py_index_head.
    cbn [res_bind]. destruct (decide _) as [_|Hn]; [reflexivity|].
    rewrite str_len_bits_string in Hn. lia.
  - intros rt r HX HZ. unfold parse_readout.
    rewrite py_split_full_transcript, py_index_head.
    cbn [res_bind]. destruct (decide _) as [_|Hn].
    + simpl map. rewrite py_index_second. cbn [res_bind].
      unfold extract_final_stabilizer_and_logical_readout.
      destruct (decide (rt = "X")) as [?|_]; [done|].
      destruct (decide (rt = "Z")) as [?|_]; [done|]. reflexivity.
    + rewrite str_len_bits_string in Hn. lia.
Qed.

Lemma parse_readout_full_preconditions_witness :
  parse_readout lattice3
    (full_transcript [1; 1; 1; 1; 1; 1; 1; 1; 1] [[0; 0; 0; 0; 0; 0; 0; 0]]) None
  = inl AssertionError
  /\ (forall rt,
        parse_readout lattice3 (full_transcript [1; 1; 1; 1; 1; 1; 1; 1; 1] [])
          (Some rt) = inl IndexError)
  /\ (forall rt r,
        rt <> "X" -> rt <> "Z" ->
        parse_readout lattice3
          (full_transcript [1; 1; 1; 1; 1; 1; 1; 1; 1]
             (r :: [[0; 0; 0; 0; 0; 0; 0; 0]])) (Some rt)
        = inl TypeError).
Proof.
  apply (parse_readout_full_preconditions lattice3 [1; 1; 1; 1; 1; 1; 1; 1; 1]
           [[0; 0; 0; 0; 0; 0; 0; 0]]).
  simpl. lia.
Defined.

(** X12: on a lattice whose [num_syn] is 0, as construction leaves it for
    [d = 1] and [d = -1], the masks are empty strings, so a well-formed
    single-bit transcript with two or more rounds makes [parse_readout]
    raise [ValueError]. *)
Theorem parse_readout_degenerate_lattice (L : Lattice) (num_syn b : Z)
    (rounds : list (list Z)) (readout_type : option string) :
  params L !! "num_syn" = Some num_syn -> num_syn <= 0 ->
  is_bit b -> Forall binary_round rounds -> (2 <= length rounds)%nat ->
  parse_readout L (transcript b rounds) readout_type = inl ValueError.
Proof.
  intros Hn Hle Hb Hrounds Hlen.
  unfold parse_readout. rewrite py_split_transcript, py_index_head.
  cbn [res_bind].
  assert (Hl : str_len (of_chars [bit_char b]) = 1) by reflexivity.
  rewrite Hl. destruct (decide (1 < 1)) as [?|_]; [lia|].
  assert (Hshort : int_of_short (of_chars [bit_char b]) = inr b).
  { unfold int_of_short. rewrite chars_of_chars. by apply int_of_bit_char. }
  rewrite Hshort. cbn [res_bind fst snd].
  rewrite py_slice_rest. change (drop 1 (?x :: ?l)) with l.
  rewrite <- map_rev, res_mapM_map.
  rewrite (res_mapM_pure _ binary_value).
  2:{ intros r Hr. apply list_elem_of_In, in_rev, list_elem_of_In in Hr.
      rewrite Forall_forall in Hrounds. destruct (Hrounds r Hr) as [Hne Hbits].
      by apply int_base2_bits. }
  cbn [res_bind]. rewrite py_slice_rest, zip_with_adjacent.
  unfold param. rewrite Hn. cbn [res_bind].
  unfold str_repeat. replace (Z.to_nat num_syn) with 0%nat by lia.
  destruct (spec_xors (map binary_value (rev rounds))) as [|x xs] eqn:Hx.
  - apply (f_equal length) in Hx. unfold spec_xors in Hx.
    rewrite length_map, length_seq, length_map, length_rev in Hx.
    simpl in Hx. lia.
  - reflexivity.
Qed.

Lemma parse_readout_degenerate_lattice_witness :
  exists a,
    XXZZLattice_init {[ "d" := 1 ]} "tqubit" = inr a
    /\ la_params a !! "num_syn" = Some 0
    /\ parse_readout
         (mkLattice (la_params a) "tqubit" (la_qregisters a) ∅
            [("mx", []); ("mz", [])] [] [])
         (transcript 0 [[0]; [0]]) None
       = inl ValueError.
Proof.
  eexists. split; [reflexivity|]. split; [reflexivity|].
  apply (parse_readout_degenerate_lattice _ 0 0 [[0]; [0]] None);
    [reflexivity|lia|by left| |simpl; lia].
  repeat constructor; try discriminate; unfold is_bit; lia.
Defined.

(** ** More on the final-stabilizer extraction *)

Lemma val_rev_prefix (pre vs : list Z) (i : Z) :
  0 <= i < Z.of_nat (length vs) ->
  val (rev (pre ++ vs)) i = val (rev vs) i.
Proof.
  intros Hi. unfold val. rewrite rev_app_distr.
  apply app_nth1. rewrite length_rev. lia.
Qed.

Lemma spec_plaquette_parity_prefix (pre vs : list Z) (r : Plaquette Z) :
  (forall i, Some i ∈ neighbors r -> 0 <= i < Z.of_nat (length vs)) ->
  spec_plaquette_parity (rev (pre ++ vs)) r
  = spec_plaquette_parity (rev vs) r.
Proof.
  intros Hr. unfold spec_plaquette_parity. do 2 f_equal.
  apply map_ext_in. intros i Hi. apply val_rev_prefix, Hr.
  apply list_elem_of_In in Hi. unfold present_neighbors in Hi.
  apply list_elem_of_omap in Hi as (o & Ho & Hid). simpl in Hid. by subst o.
Qed.

Section Extraction.
Variables (L : Lattice) (d : Z) (mx mz : list (Plaquette Z)).
Hypothesis Hd : params L !! "d" = Some d.
Hypothesis Hn : params L !! "num_syn" = Some ((d ^ 2 - 1) / 2).
Hypothesis Hnd : params L !! "num_data" = Some (d ^ 2).
Hypothesis Hodd : d mod 2 = 1.
Hypothesis H1 : 1 <= d.
Hypothesis Hg : _geometry (params L) = inr [("mx", mx); ("mz", mz)].
Hypothesis HL : geometry L = [("mx", mx); ("mz", mz)].

(** The two extractions on a readout of at least [d^2] bits. *)
Lemma extract_x_run (vs : list Z) (hi lo : list ascii) :
  Forall is_bit vs -> d ^ 2 <= Z.of_nat (length vs) ->
  Z.of_nat (length hi) = (d ^ 2 - 1) / 2 ->
  extract_final_stabilizer_and_logical_readout_x L
    (bits_string vs) (of_chars (hi ++ lo))
  = inr (spec_column_parity (rev vs) d,
         spec_half (rev vs) mx +:+ of_chars lo).
Proof.
  intros Hvs Hlen Hhi.
  pose proof (geometry_in_range _ d mx mz Hd Hn Hodd H1 Hg) as Hrange.
  assert (Hrv : d ^ 2 <= Z.of_nat (length (rev vs))) by by rewrite length_rev.
  unfold extract_final_stabilizer_and_logical_readout_x.
  rewrite (readout_values_of_bits vs Hvs). simpl.
  rewrite HL. simpl.
  rewrite stabilizer_string_spec.
  2:{ intros r i Hr Hi.
      assert (0 <= i < d ^ 2); [|lia].
      apply (Hrange r i); [|done]. apply elem_of_app. by left. }
  simpl. unfold param. rewrite Hn, Hnd, Hd. simpl.
  rewrite (py_range3_column d H1). simpl.
  rewrite logical_parity_spec.
  2:{ intros i Hi. apply list_elem_of_fmap in Hi as (j & -> & Hj).
      apply elem_of_py_range in Hj. nia. }
  simpl. rewrite (str_from_app hi lo _ Hhi).
  unfold spec_column_parity. rewrite map_map. reflexivity.
Qed.

Lemma extract_z_run (vs : list Z) (hi lo : list ascii) :
  Forall is_bit vs -> d ^ 2 <= Z.of_nat (length vs) ->
  Z.of_nat (length hi) = (d ^ 2 - 1) / 2 ->
  extract_final_stabilizer_and_logical_readout_z L
    (bits_string vs) (of_chars (hi ++ lo))
  = inr (spec_row_parity (rev vs) d,
         of_chars hi +:+ spec_half (rev vs) mz).
Proof.
  intros Hvs Hlen Hhi.
  pose proof (geometry_in_range _ d mx mz Hd Hn Hodd H1 Hg) as Hrange.
  assert (Hrv : d ^ 2 <= Z.of_nat (length (rev vs))) by by rewrite length_rev.
  unfold extract_final_stabilizer_and_logical_readout_z.
  rewrite (readout_values_of_bits vs Hvs). simpl.
  rewrite HL. simpl.
  rewrite stabilizer_string_spec.
  2:{ intros r i Hr Hi.
      assert (0 <= i < d ^ 2); [|lia].
      apply (Hrange r i); [|done]. apply elem_of_app. by right. }
  simpl. unfold param. rewrite Hn, Hd. simpl.
  rewrite logical_parity_spec.
  2:{ intros i Hi. apply elem_of_py_range in Hi. nia. }
  simpl. rewrite (str_upto_app hi lo _ Hhi). reflexivity.
Qed.

End Extraction.

(** X13: the extraction does not check the length of the readout string:
    bits in front of the last [d^2] characters are ignored, so a readout
    with extra leading bits gives the same logical bit and the same
    stabilizer string as its last [d^2] characters alone. *)
Theorem extract_ignores_leading_bits :
  forall (L : Lattice) (d : Z) (mx mz : list (Plaquette Z))
         (pre vs : list Z) (hi lo : list ascii) (readout_type : string),
    params L !! "d" = Some d ->
    params L !! "num_syn" = Some ((d ^ 2 - 1) / 2) ->
    params L !! "num_data" = Some (d ^ 2) ->
    d mod 2 = 1 -> 1 <= d ->
    _geometry (params L) = inr [("mx", mx); ("mz", mz)] ->
    geometry L = [("mx", mx); ("mz", mz)] ->
    Forall is_bit pre -> Forall is_bit vs -> Z.of_nat (length vs) = d ^ 2 ->
    Z.of_nat (length hi) = (d ^ 2 - 1) / 2 ->
    extract_final_stabilizer_and_logical_readout L
      (bits_string (pre ++ vs)) (of_chars (hi ++ lo)) readout_type
    = extract_final_stabilizer_and_logical_readout L
        (bits_string vs) (of_chars (hi ++ lo)) readout_type.
Proof.
  intros L d mx mz pre vs hi lo rt Hd Hn Hnd Hodd H1 Hg HL Hpre Hvs Hlen Hhi.
  pose proof (geometry_in_range _ d mx mz Hd Hn Hodd H1 Hg) as Hrange.
  assert (Hall : Forall is_bit (pre ++ vs)) by by apply Forall_app.
  assert (Hlong : d ^ 2 <= Z.of_nat (length (pre ++ vs)))
    by (rewrite length_app; lia).
  assert (Hhalf : forall rs, (forall r, r ∈ rs -> r ∈ mx ++ mz) ->
            spec_half (rev (pre ++ vs)) rs = spec_half (rev vs) rs).
  { intros rs Hrs. unfold spec_half. do 2 f_equal.
    apply map_ext_in. intros r Hr%list_elem_of_In.
    apply spec_plaquette_parity_prefix. intros i Hi.
    rewrite Hlen. by apply (Hrange r i); [apply Hrs|]. }
  unfold extract_final_stabilizer_and_logical_readout.
  destruct (decide (rt = "X")) as [_|_]; [|destruct (decide (rt = "Z")) as [_|_]];
    [| |reflexivity].
  - rewrite (extract_x_run L d mx mz Hd Hn Hnd Hodd H1 Hg HL (pre ++ vs))
      by done.
    rewrite (extract_x_run L d mx mz Hd Hn Hnd Hodd H1 Hg HL vs)
      by (try done; lia).
    simpl. rewrite Hhalf by (intros r Hr; apply elem_of_app; by left).
    do 3 f_equal. unfold spec_column_parity. do 2 f_equal.
    apply map_ext_in. intros j Hj%list_elem_of_In%elem_of_py_range.
    apply val_rev_prefix. nia.
  - rewrite (extract_z_run L d mx mz Hd Hn Hodd H1 Hg HL (pre ++ vs))
      by done.
    rewrite (extract_z_run L d mx mz Hd Hn Hodd H1 Hg HL vs)
      by (try done; lia).
    simpl. rewrite Hhalf by (intros r Hr; apply elem_of_app; by right).
    do 3 f_equal. unfold spec_row_parity. do 2 f_equal.
    apply map_ext_in. intros j Hj%list_elem_of_In%elem_of_py_range.
    apply val_rev_prefix. nia.
Qed.

Lemma extract_ignores_leading_bits_witness :
  extract_final_stabilizer_and_logical_readout lattice3
    (bits_string ([1; 1] ++ [1; 0; 1; 1; 0; 0; 1; 1; 1]))
    (of_chars (chars "1010" ++ chars "0110")) "X"
  = extract_final_stabilizer_and_logical_readout lattice3
      (bits_string [1; 0; 1; 1; 0; 0; 1; 1; 1])
      (of_chars (chars "1010" ++ chars "0110")) "X".
Proof.
  apply (extract_ignores_leading_bits lattice3 3
           [mkPlaquette 0 None None (Some 0) (Some 1);
            mkPlaquette 1 (Some 1) (Some 2) (Some 4) (Some 5);
            mkPlaquette 2 (Some 3) (Some 4) (Some 6) (Some 7);
            mkPlaquette 3 (Some 7) (Some 8) None None]
           [mkPlaquette 0 (Some 0) (Some 1) (Some 3) (Some 4);
            mkPlaquette 1 (Some 2) None (Some 5) None;
            mkPlaquette 2 None (Some 3) None (Some 6);
            mkPlaquette 3 (Some 4) (Some 5) (Some 7) (Some 8)]);
    try reflexivity; try lia;
    repeat constructor; unfold is_bit; lia.
Defined.

Lemma py_index_error {A} (l : list A) (i : Z) :
  py_index l i = inl IndexError \/ exists a, py_index l i = inr a.
Proof.
  unfold py_index. destruct (decide _); [|by left].
  destruct (l !! _); [right; by eexists|by left].
Qed.

Lemma py_index_beyond {A} (l : list A) (i : Z) :
  Z.of_nat (length l) <= i -> py_index l i = inl IndexError.
Proof.
  intros Hi. unfold py_index.
  destruct (decide (i < 0)) as [?|_]; [lia|].
  destruct (decide _) as [?|_]; [lia|reflexivity].
Qed.

Lemma stabilizer_val_error (rv : list Z) (r : Plaquette Z) :
  stabilizer_val rv r = inl IndexError \/ exists v, stabilizer_val rv r = inr v.
Proof.
  unfold stabilizer_val.
  destruct (res_mapM (neighbor_value rv) (neighbors r)) as [e|vs] eqn:Hm;
    simpl; [|right; by eexists].
  left. f_equal.
  assert (G : forall l, res_mapM (neighbor_value rv) l = inl e -> e = IndexError).
  { induction l as [|o l IH]; simpl; [discriminate|].
    destruct o as [i|]; simpl.
    - destruct (py_index_error rv i) as [->|[a ->]]; simpl; [congruence|].
      destruct (res_mapM (neighbor_value rv) l); simpl; [|discriminate].
      intros [= <-]. by apply IH.
    - destruct (res_mapM (neighbor_value rv) l); simpl; [|discriminate].
      intros [= <-]. by apply IH. }
  by apply (G (neighbors r)).
Qed.

Lemma stabilizer_val_beyond (rv : list Z) (r : Plaquette Z) (i : Z) :
  Some i ∈ neighbors r -> Z.of_nat (length rv) <= i ->
  stabilizer_val rv r = inl IndexError.
Proof.
  intros Hi Hlen. unfold stabilizer_val.
  rewrite (res_mapM_fails _ IndexError); [reflexivity| |].
  - intros [j|] _; simpl; [apply py_index_error|right; by eexists].
  - exists (Some i). split; [exact Hi|]. simpl. by apply py_index_beyond.
Qed.

Lemma stabilizer_string_beyond (rv : list Z) (records : list (Plaquette Z))
    (r : Plaquette Z) (i : Z) :
  r ∈ records -> Some i ∈ neighbors r -> Z.of_nat (length rv) <= i ->
  stabilizer_string rv records = inl IndexError.
Proof.
  intros Hr Hi Hlen. unfold stabilizer_string.
  generalize "". induction records as [|x records IH]; intros acc.
  - by apply elem_of_nil in Hr.
  - simpl. apply elem_of_cons in Hr as [<-|Hr].
    + by rewrite (stabilizer_val_beyond rv r i Hi Hlen).
    + destruct (stabilizer_val_error rv x) as [->|[v ->]]; simpl;
        [reflexivity|]. by apply IH.
Qed.

(** X14: for an odd [d >= 3], a readout string of fewer than [d^2] bits
    makes both extractions raise [IndexError]: the last plaquette of either
    family names data position [d^2 - 1]. *)
Theorem extract_short_readout (L : Lattice) (d : Z)
    (mx mz : list (Plaquette Z)) (vs : list Z)
    (previous_syndrome_string : string) :
  params L !! "d" = Some d ->
  params L !! "num_syn" = Some ((d ^ 2 - 1) / 2) ->
  d mod 2 = 1 -> 3 <= d ->
  _geometry (params L) = inr [("mx", mx); ("mz", mz)] ->
  geometry L = [("mx", mx); ("mz", mz)] ->
  Forall is_bit vs -> Z.of_nat (length vs) < d ^ 2 ->
  extract_final_stabilizer_and_logical_readout L
    (bits_string vs) previous_syndrome_string "X" = inl IndexError
  /\ extract_final_stabilizer_and_logical_readout L
       (bits_string vs) previous_syndrome_string "Z" = inl IndexError.
Proof.
  intros Hd Hn Hodd H3 Hg HL Hvs Hlen.
  destruct (geometry_families _ d Hd Hn Hodd H3)
    as (k & mx' & mz' & (Hdk & Hk & _ & Hns) & Hg' & Hmx & Hmz & _).
  rewrite Hg in Hg'. injection Hg' as <- <-. rewrite Hns in Hmx, Hmz.
  assert (Hrv : Z.of_nat (length (rev vs)) <= d ^ 2 - 1)
    by (rewrite length_rev; lia).
  (* the last record of each family *)
  pose proof (mx_record_uniform d k Hdk Hk d (k - 1) ltac:(lia) ltac:(lia))
    as Hlx. simpl in Hlx.
  destruct (decide (d = 0)) as [?|_]; [lia|].
  destruct (decide (d = d)) as [_|?]; [|done].
  assert (Hp : (d - 2) mod 2 = 1).
  { replace (d - 2) with (2 * (k - 1) + 1) by lia. apply odd_mod2. }
  pose proof (mz_record_uniform d k Hdk Hk (d - 2) k ltac:(lia) ltac:(lia))
    as Hlz. simpl in Hlz. rewrite Hp in Hlz.
  destruct (decide (1 = 1 /\ k = 0)) as [?|_]; [lia|].
  destruct (decide (1 = 0 /\ k = k)) as [?|_]; [lia|].
  unfold extract_final_stabilizer_and_logical_readout. split.
  - destruct (decide ("X" = "X")) as [_|?]; [|done].
    unfold extract_final_stabilizer_and_logical_readout_x.
    rewrite (readout_values_of_bits vs Hvs). simpl. rewrite HL. simpl.
    assert (Hs : stabilizer_string (rev vs) mx = inl IndexError).
    { eapply stabilizer_string_beyond.
      - apply (family_member (d * k + (k - 1)) _ Hmx); [nia|exact Hlx].
      - apply elem_of_neighbors. simpl. right. left. reflexivity.
      - rewrite Hodd. nia. }
    rewrite Hs. reflexivity.
  - destruct (decide ("Z" = "X")) as [?|_]; [done|].
    destruct (decide ("Z" = "Z")) as [_|?]; [|done].
    unfold extract_final_stabilizer_and_logical_readout_z.
    rewrite (readout_values_of_bits vs Hvs). simpl. rewrite HL. simpl.
    assert (Hs : stabilizer_string (rev vs) mz = inl IndexError).
    { eapply stabilizer_string_beyond.
      - apply (family_member ((d - 2) * (k + 1) + k) _ Hmz); [nia|exact Hlz].
      - apply elem_of_neighbors. simpl. right. right. right. reflexivity.
      - nia. }
    rewrite Hs. reflexivity.
Qed.

Lemma extract_short_readout_witness :
  extract_final_stabilizer_and_logical_readout lattice3
    (bits_string [1; 1; 1; 1; 1; 1; 1; 1]) "00000000" "X" = inl IndexError
  /\ extract_final_stabilizer_and_logical_readout lattice3
       (bits_string [1; 1; 1; 1; 1; 1; 1; 1]) "00000000" "Z" = inl IndexError.
Proof.
  apply (extract_short_readout lattice3 3
           [mkPlaquette 0 None None (Some 0) (Some 1);
            mkPlaquette 1 (Some 1) (Some 2) (Some 4) (Some 5);
            mkPlaquette 2 (Some 3) (Some 4) (Some 6) (Some 7);
            mkPlaquette 3 (Some 7) (Some 8) None None]
           [mkPlaquette 0 (Some 0) (Some 1) (Some 3) (Some 4);
            mkPlaquette 1 (Some 2) None (Some 5) None;
            mkPlaquette 2 None (Some 3) None (Some 6);
            mkPlaquette 3 (Some 4) (Some 5) (Some 7) (Some 8)]);
    try reflexivity; try (simpl; lia);
    repeat constructor; unfold is_bit; lia.
Defined.

(** ** A full lattice readout at the head of a transcript *)

Lemma bits_string_app (a b : list Z) :
  bits_string (a ++ b) = of_chars (map bit_char a ++ map bit_char b).
Proof. unfold bits_string. by rewrite map_app. Qed.

Lemma spec_half_bits (vs : list Z) (records : list (Plaquette Z)) :
  spec_half (rev vs) records = bits_string (parities vs records).
Proof. reflexivity. Qed.

Lemma parities_bits (vs : list Z) (records : list (Plaquette Z)) :
  Forall is_bit (parities vs records).
Proof.
  unfold parities. apply Forall_forall. intros b Hb.
  apply list_elem_of_In, in_rev, in_map_iff in Hb as (r & <- & _).
  apply mod2_is_bit.
Qed.

Lemma length_parities (vs : list Z) (records : list (Plaquette Z)) :
  length (parities vs records) = length records.
Proof. unfold parities. by rewrite length_rev, length_map. Qed.

(** The parser on a transcript that starts with a full lattice readout. *)
Lemma parse_full_as_transcript :
  forall (L : Lattice) (d : Z) (mx mz : list (Plaquette Z))
         (vs hi lo : list Z) (rest : list (list Z)),
    params L !! "d" = Some d ->
    params L !! "num_syn" = Some ((d ^ 2 - 1) / 2) ->
    params L !! "num_data" = Some (d ^ 2) ->
    d mod 2 = 1 -> 3 <= d ->
    _geometry (params L) = inr [("mx", mx); ("mz", mz)] ->
    geometry L = [("mx", mx); ("mz", mz)] ->
    Forall is_bit vs -> Z.of_nat (length vs) = d ^ 2 ->
    Z.of_nat (length hi) = (d ^ 2 - 1) / 2 ->
    parse_readout L (full_transcript vs ((hi ++ lo) :: rest)) (Some "X")
    = parse_readout L
        (transcript (spec_column_parity (rev vs) d)
           (final_round_X mx vs lo :: (hi ++ lo) :: rest)) None
    /\ parse_readout L (full_transcript vs ((hi ++ lo) :: rest)) (Some "Z")
       = parse_readout L
           (transcript (spec_row_parity (rev vs) d)
              (final_round_Z mz vs hi :: (hi ++ lo) :: rest)) None.
Proof.
  intros L d mx mz vs hi lo rest Hd Hn Hnd Hodd H3 Hg HL Hvs Hlen Hhi.
  assert (H1 : 1 <= d) by lia.
  assert (Hhi' : Z.of_nat (length (map bit_char hi)) = (d ^ 2 - 1) / 2)
    by by rewrite length_map.
  assert (Hshort : forall b, is_bit b ->
            int_of_short (of_chars [bit_char b]) = inr b).
  { intros b Hb. unfold int_of_short. rewrite chars_of_chars.
    by apply int_of_bit_char. }
  split.
  - unfold parse_readout at 1.
    rewrite py_split_full_transcript, py_index_head. cbn [res_bind].
    destruct (decide _) as [_|Hs];
      [|rewrite str_len_bits_string in Hs; nia].
    simpl map. rewrite py_index_second. cbn [res_bind].
    unfold extract_final_stabilizer_and_logical_readout.
    destruct (decide ("X" = "X")) as [_|?]; [|done].
    rewrite bits_string_app.
    rewrite (extract_x_run L d mx mz Hd Hn Hnd Hodd H1 Hg HL vs) by (try done; lia).
    cbn [res_bind]. rewrite py_slice_rest. change (drop 1 (?x :: ?l)) with l.
    rewrite spec_half_bits. unfold bits_string at 1.
    rewrite <- of_chars_app, <- map_app.
    fold (bits_string (parities vs mx ++ lo)). fold (final_round_X mx vs lo).
    rewrite <- bits_string_app.
    unfold parse_readout at 1.
    rewrite py_split_transcript, py_index_head. cbn [res_bind].
    change (str_len (of_chars [bit_char ?b])) with 1.
    destruct (decide (1 < 1)) as [?|_]; [lia|].
    rewrite Hshort by apply mod2_is_bit. cbn [res_bind].
    rewrite py_slice_rest. change (drop 1 (?x :: ?l)) with l.
    reflexivity.
  - unfold parse_readout at 1.
    rewrite py_split_full_transcript, py_index_head. cbn [res_bind].
    destruct (decide _) as [_|Hs];
      [|rewrite str_len_bits_string in Hs; nia].
    simpl map. rewrite py_index_second. cbn [res_bind].
    unfold extract_final_stabilizer_and_logical_readout.
    destruct (decide ("Z" = "X")) as [?|_]; [done|].
    destruct (decide ("Z" = "Z")) as [_|?]; [|done].
    rewrite bits_string_app.
    rewrite (extract_z_run L d mx mz Hd Hn Hodd H1 Hg HL vs) by (try done; lia).
    cbn [res_bind]. rewrite py_slice_rest. change (drop 1 (?x :: ?l)) with l.
    rewrite spec_half_bits. unfold bits_string at 1.
    rewrite <- of_chars_app, <- map_app.
    fold (bits_string (hi ++ parities vs mz)). fold (final_round_Z mz vs hi).
    rewrite <- bits_string_app.
    unfold parse_readout at 1.
    rewrite py_split_transcript, py_index_head. cbn [res_bind].
    change (str_len (of_chars [bit_char ?b])) with 1.
    destruct (decide (1 < 1)) as [?|_]; [lia|].
    rewrite Hshort by apply mod2_is_bit. cbn [res_bind].
    rewrite py_slice_rest. change (drop 1 (?x :: ?l)) with l.
    reflexivity.
Qed.

(** X15: a transcript that starts with a full lattice readout is parsed as
    the single-bit transcript made of the extracted logical bit, the
    extracted final stabilizer round, and the rounds that followed: for
    type "X" the bit is the left-column parity and the new round is the
    fresh X half before the Z half of the previous round; for type "Z" the
    bit is the top-row parity and the new round is the X half of the
    previous round before the fresh Z half. *)
Theorem parse_readout_full_composes :
  forall (L : Lattice) (d : Z) (mx mz : list (Plaquette Z))
         (vs hi lo : list Z) (rest : list (list Z)),
    params L !! "d" = Some d ->
    params L !! "num_syn" = Some ((d ^ 2 - 1) / 2) ->
    params L !! "num_data" = Some (d ^ 2) ->
    d mod 2 = 1 -> 3 <= d ->
    _geometry (params L) = inr [("mx", mx); ("mz", mz)] ->
    geometry L = [("mx", mx); ("mz", mz)] ->
    Forall is_bit vs -> Z.of_nat (length vs) = d ^ 2 ->
    Z.of_nat (length hi) = (d ^ 2 - 1) / 2 ->
    parse_readout L (full_transcript vs ((hi ++ lo) :: rest)) (Some "X")
    = parse_readout L
        (transcript (spec_column_parity (rev vs) d)
           (final_round_X mx vs lo :: (hi ++ lo) :: rest)) None
    /\ parse_readout L (full_transcript vs ((hi ++ lo) :: rest)) (Some "Z")
       = parse_readout L
           (transcript (spec_row_parity (rev vs) d)
              (final_round_Z mz vs hi :: (hi ++ lo) :: rest)) None.
Proof. exact parse_full_as_transcript. Qed.

Lemma parse_readout_full_composes_witness :
  parse_readout lattice3
    (full_transcript [1; 0; 1; 1; 0; 0; 1; 1; 1]
       (([1; 0; 1; 0] ++ [0; 1; 1; 0]) :: [[1; 0; 1; 0; 0; 0; 1; 0]]))
    (Some "X")
  = parse_readout lattice3
      (transcript (spec_column_parity (rev [1; 0; 1; 1; 0; 0; 1; 1; 1]) 3)
         (final_round_X
            [mkPlaquette 0 None None (Some 0) (Some 1);
             mkPlaquette 1 (Some 1) (Some 2) (Some 4) (Some 5);
             mkPlaquette 2 (Some 3) (Some 4) (Some 6) (Some 7);
             mkPlaquette 3 (Some 7) (Some 8) None None]
            [1; 0; 1; 1; 0; 0; 1; 1; 1] [0; 1; 1; 0]
          :: ([1; 0; 1; 0] ++ [0; 1; 1; 0])
          :: [[1; 0; 1; 0; 0; 0; 1; 0]])) None.
Proof.
  apply (proj1 (parse_readout_full_composes lattice3 3
           [mkPlaquette 0 None None (Some 0) (Some 1);
            mkPlaquette 1 (Some 1) (Some 2) (Some 4) (Some 5);
            mkPlaquette 2 (Some 3) (Some 4) (Some 6) (Some 7);
            mkPlaquette 3 (Some 7) (Some 8) None None]
           [mkPlaquette 0 (Some 0) (Some 1) (Some 3) (Some 4);
            mkPlaquette 1 (Some 2) None (Some 5) None;
            mkPlaquette 2 None (Some 3) None (Some 6);
            mkPlaquette 3 (Some 4) (Some 5) (Some 7) (Some 8)]
           [1; 0; 1; 1; 0; 0; 1; 1; 1] [1; 0; 1; 0] [0; 1; 1; 0]
           [[1; 0; 1; 0; 0; 0; 1; 0]]
           eq_refl eq_refl eq_refl eq_refl ltac:(lia) eq_refl eq_refl
           ltac:(repeat constructor; unfold is_bit; lia) eq_refl eq_refl)).
Defined.

Lemma adjacent_snoc {A B} (f : A -> A -> B) (l : list A) (a b : A) :
  zip_with f (l ++ [a; b]) (drop 1 (l ++ [a; b]))
  = zip_with f (l ++ [a]) (drop 1 (l ++ [a])) ++ [f a b].
Proof.
  induction l as [|x l IH]; [reflexivity|].
  destruct l as [|y l]; [reflexivity|].
  change (drop 1 ((x :: y :: l) ++ ?t)) with ((y :: l) ++ t).
  change ((x :: y :: l) ++ ?t) with (x :: ((y :: l) ++ t)).
  change ((y :: l) ++ ?t) with (y :: (l ++ t)) at 2 4.
  cbn [zip_with]. simpl app. f_equal.
  change (drop 1 ((y :: l) ++ ?t)) with (l ++ t) in IH.
  exact IH.
Qed.

Lemma transitions_cons (a b : list Z) (rest : list (list Z)) :
  transitions (a :: b :: rest)
  = transitions (b :: rest) ++ [Z.lxor (binary_value b) (binary_value a)].
Proof.
  unfold transitions. rewrite <- !zip_with_adjacent. simpl rev.
  rewrite <- app_assoc. simpl app. rewrite !map_app. simpl map.
  apply adjacent_snoc.
Qed.

Lemma py_range_succ (n : nat) :
  py_range (Z.of_nat (S n)) = py_range (Z.of_nat n) ++ [Z.of_nat n].
Proof.
  unfold py_range. rewrite !Nat2Z.id, seq_S, map_app. reflexivity.
Qed.

Lemma enumerate_snoc {A} (l : list A) (x : A) :
  enumerate (l ++ [x]) = enumerate l ++ [(Z.of_nat (length l), x)].
Proof.
  unfold enumerate. rewrite length_app, Nat.add_1_r, py_range_succ.
  rewrite zip_with_app; [reflexivity|].
  rewrite length_py_range. lia.
Qed.

Lemma spec_defects_snoc_zero (coord : Z -> Z -> TQubit) (n : Z)
    (halves : list Z) :
  spec_defects coord n (halves ++ [0]) = spec_defects coord n halves.
Proof.
  unfold spec_defects. rewrite enumerate_snoc, map_app, concat_app.
  simpl. rewrite app_nil_r.
  assert (E : concat (map (fun loc : Z =>
                if Z.testbit 0 loc
                then [coord (Z.of_nat (length halves)) loc] else [])
               (py_range n)) = []).
  { induction (py_range n) as [|loc ls IH]; [reflexivity|].
    simpl. rewrite Z.bits_0. exact IH. }
  rewrite E. apply app_nil_r.
Qed.

Lemma fold_binary_shift (bs : list Z) (acc : Z) :
  fold_left (fun a b => 2 * a + b) bs acc
  = acc * 2 ^ Z.of_nat (length bs) + binary_value bs.
Proof.
  unfold binary_value. revert acc.
  induction bs as [|b bs IH]; intros acc.
  - simpl. lia.
  - simpl fold_left. rewrite (IH (2 * acc + b)), (IH (2 * 0 + b)).
    simpl length. rewrite Nat2Z.inj_succ, Z.pow_succ_r by lia. lia.
Qed.

Lemma binary_value_app (a b : list Z) :
  binary_value (a ++ b)
  = binary_value a * 2 ^ Z.of_nat (length b) + binary_value b.
Proof.
  unfold binary_value at 1. rewrite fold_left_app.
  fold (binary_value a). apply fold_binary_shift.
Qed.

Lemma binary_value_bound (bs : list Z) :
  Forall is_bit bs -> 0 <= binary_value bs < 2 ^ Z.of_nat (length bs).
Proof.
  intros H. induction H as [|b bs Hb _ IH].
  - unfold binary_value. simpl. lia.
  - unfold binary_value at 1 2. simpl fold_left.
    rewrite fold_binary_shift. simpl length.
    rewrite Nat2Z.inj_succ, Z.pow_succ_r by lia.
    destruct Hb as [-> | ->]; lia.
Qed.

Lemma low_half_shifted (n a c : Z) :
  0 <= n -> 0 <= c < 2 ^ n -> low_half n (a * 2 ^ n + c) = c.
Proof.
  intros Hn Hc. unfold low_half.
  apply (div_mod_of_decomp (2 ^ n) a c); [exact Hc|reflexivity].
Qed.

Lemma shiftr_shifted (n a c : Z) :
  0 <= n -> 0 <= c < 2 ^ n -> (a * 2 ^ n + c) / 2 ^ n = a.
Proof.
  intros Hn Hc.
  apply (div_mod_of_decomp (2 ^ n) a c); [exact Hc|reflexivity].
Qed.

Lemma low_half_lxor_same (n x y : Z) :
  0 <= n -> low_half n x = low_half n y -> low_half n (Z.lxor x y) = 0.
Proof.
  unfold low_half. intros Hn Hxy. apply Z.bits_inj'. intros m Hm.
  rewrite Z.bits_0.
  destruct (decide (m < n)) as [Hlt|Hge].
  - rewrite Z.mod_pow2_bits_low, Z.lxor_spec by lia.
    rewrite <- (Z.mod_pow2_bits_low x n m), <- (Z.mod_pow2_bits_low y n m) by lia.
    rewrite Hxy. apply xorb_nilpotent.
  - apply Z.mod_pow2_bits_high. lia.
Qed.

Lemma high_half_lxor_same (n x y : Z) :
  0 <= n -> x / 2 ^ n = y / 2 ^ n -> high_half n (Z.lxor x y) = 0.
Proof.
  unfold high_half. intros Hn Hxy.
  rewrite <- !Z.shiftr_div_pow2, Z.shiftr_lxor by lia.
  rewrite !Z.shiftr_div_pow2, Hxy, Z.lxor_nilpotent by lia.
  apply Z.mod_0_l. apply Z.pow_nonzero; lia.
Qed.

(** X16: the final stabilizer round copies one half from the previous
    round, so a full lattice readout adds no defect of the other family:
    with type "X" the Z-type defects are those of the stabilization rounds
    alone, with type "Z" the X-type defects are; only the defects of the
    read-out family see the extra transition. *)
Theorem final_readout_other_family :
  forall (L : Lattice) (d : Z) (mx mz : list (Plaquette Z))
         (vs hi lo : list Z) (rest : list (list Z)),
    params L !! "d" = Some d ->
    params L !! "num_syn" = Some ((d ^ 2 - 1) / 2) ->
    params L !! "num_data" = Some (d ^ 2) ->
    d mod 2 = 1 -> 3 <= d ->
    _geometry (params L) = inr [("mx", mx); ("mz", mz)] ->
    geometry L = [("mx", mx); ("mz", mz)] ->
    Forall is_bit vs -> Z.of_nat (length vs) = d ^ 2 ->
    Forall is_bit hi -> Z.of_nat (length hi) = (d ^ 2 - 1) / 2 ->
    Forall is_bit lo -> Z.of_nat (length lo) = (d ^ 2 - 1) / 2 ->
    Forall binary_round rest ->
    let n := (d ^ 2 - 1) / 2 in
    parse_readout L (full_transcript vs ((hi ++ lo) :: rest)) (Some "X")
    = parsed (spec_column_parity (rev vs) d)
        (spec_defects X_coord n
           (map (high_half n)
              (transitions (final_round_X mx vs lo :: (hi ++ lo) :: rest))))
        (spec_defects Z_coord n
           (map (low_half n) (transitions ((hi ++ lo) :: rest))))
    /\ parse_readout L (full_transcript vs ((hi ++ lo) :: rest)) (Some "Z")
       = parsed (spec_row_parity (rev vs) d)
           (spec_defects X_coord n
              (map (high_half n) (transitions ((hi ++ lo) :: rest))))
           (spec_defects Z_coord n
              (map (low_half n)
                 (transitions (final_round_Z mz vs hi :: (hi ++ lo) :: rest)))).
Proof.
  intros L d mx mz vs hi lo rest Hd Hn Hnd Hodd H3 Hg HL Hvs Hlen
    Hhib Hhi Hlob Hlo Hrest n.
  destruct (parse_full_as_transcript L d mx mz vs hi lo rest
              Hd Hn Hnd Hodd H3 Hg HL Hvs Hlen Hhi) as [-> ->].
  destruct (odd_distance d Hodd H3) as (k & Hdk & Hk & _ & _ & Hns).
  assert (Hpos : 0 < n) by (subst n; nia).
  destruct (geometry_for_units _ d Hd Hn Hodd ltac:(lia))
    as (mx' & mz' & Hg' & Lx & Lz & _).
  rewrite Hg in Hg'. injection Hg' as <- <-.
  assert (Hr1 : binary_round (hi ++ lo)).
  { split; [|by apply Forall_app].
    intros Hnil. apply (f_equal length) in Hnil.
    rewrite length_app in Hnil. simpl in Hnil. lia. }
  assert (Hfx : binary_round (final_round_X mx vs lo)).
  { split; [|apply Forall_app; split; [apply parities_bits|done]].
    intros Hnil. apply (f_equal length) in Hnil.
    unfold final_round_X in Hnil. rewrite length_app in Hnil.
    simpl in Hnil. lia. }
  assert (Hfz : binary_round (final_round_Z mz vs hi)).
  { split; [|apply Forall_app; split; [done|apply parities_bits]].
    intros Hnil. apply (f_equal length) in Hnil.
    unfold final_round_Z in Hnil. rewrite length_app in Hnil.
    simpl in Hnil. lia. }
  assert (Hpow : 0 <= n) by lia.
  assert (Hallx : Forall binary_round
            (final_round_X mx vs lo :: (hi ++ lo) :: rest))
    by (constructor; [done|constructor; done]).
  assert (Hallz : Forall binary_round
            (final_round_Z mz vs hi :: (hi ++ lo) :: rest))
    by (constructor; [done|constructor; done]).
  assert (Hbx : is_bit (spec_column_parity (rev vs) d)) by apply mod2_is_bit.
  assert (Hbz : is_bit (spec_row_parity (rev vs) d)) by apply mod2_is_bit.
  split.
  - rewrite (parse_readout_transcript L n _ _ _ Hn Hpos Hbx Hallx).
    unfold parsed. do 3 f_equal.
    rewrite transitions_cons, map_app. simpl map.
    assert (E : low_half n
                  (Z.lxor (binary_value (hi ++ lo))
                     (binary_value (final_round_X mx vs lo))) = 0).
    { apply low_half_lxor_same; [exact Hpow|].
      unfold final_round_X. rewrite !binary_value_app, Hlo.
      pose proof (binary_value_bound lo Hlob) as Hb. rewrite Hlo in Hb.
      by rewrite !low_half_shifted. }
    rewrite E. by rewrite spec_defects_snoc_zero.
  - rewrite (parse_readout_transcript L n _ _ _ Hn Hpos Hbz Hallz).
    unfold parsed. do 2 f_equal. f_equal.
    rewrite transitions_cons, map_app. simpl map.
    assert (E : high_half n
                  (Z.lxor (binary_value (hi ++ lo))
                     (binary_value (final_round_Z mz vs hi))) = 0).
    { apply high_half_lxor_same; [exact Hpow|].
      unfold final_round_Z. rewrite !binary_value_app.
      rewrite length_parities, Hlo, Lz.
      pose proof (binary_value_bound lo Hlob) as Hb. rewrite Hlo in Hb.
      pose proof (binary_value_bound _ (parities_bits vs mz)) as Hp.
      rewrite length_parities, Lz in Hp.
      by rewrite !shiftr_shifted. }
    rewrite E. by rewrite spec_defects_snoc_zero.
Qed.

Lemma final_readout_other_family_witness :
  parse_readout lattice3
    (full_transcript [1; 0; 1; 1; 0; 0; 1; 1; 1]
       (([1; 0; 1; 0] ++ [0; 1; 1; 0]) :: [[1; 0; 1; 0; 0; 0; 1; 0]]))
    (Some "X")
  = parsed (spec_column_parity (rev [1; 0; 1; 1; 0; 0; 1; 1; 1]) 3)
      (spec_defects X_coord 4
         (map (high_half 4)
            (transitions
               (final_round_X mx_records3 [1; 0; 1; 1; 0; 0; 1; 1; 1]
                  [0; 1; 1; 0]
                :: ([1; 0; 1; 0] ++ [0; 1; 1; 0])
                :: [[1; 0; 1; 0; 0; 0; 1; 0]]))))
      (spec_defects Z_coord 4
         (map (low_half 4)
            (transitions
               (([1; 0; 1; 0] ++ [0; 1; 1; 0])
                :: [[1; 0; 1; 0; 0; 0; 1; 0]])))).
Proof.
  apply (proj1 (final_readout_other_family lattice3 3 mx_records3 mz_records3
           [1; 0; 1; 1; 0; 0; 1; 1; 1] [1; 0; 1; 0] [0; 1; 1; 0]
           [[1; 0; 1; 0; 0; 0; 1; 0]]
           eq_refl eq_refl eq_refl eq_refl ltac:(lia) eq_refl eq_refl
           ltac:(repeat constructor; unfold is_bit; lia) eq_refl
           ltac:(repeat constructor; unfold is_bit; lia) eq_refl
           ltac:(repeat constructor; unfold is_bit; lia) eq_refl
           ltac:(repeat constructor; try discriminate; unfold is_bit; lia))).
Defined.

(** ** Coordinates *)

(** X17: the coordinate maps are injective on each family: two X-type (or
    two Z-type) defects whose three coordinates are numerically equal come
    from the same transition and the same plaquette index. *)
Theorem coordinates_injective (T T' loc loc' : Z) :
  (same_coord (X_coord T loc) (X_coord T' loc') -> T = T' /\ loc = loc')
  /\ (same_coord (Z_coord T loc) (Z_coord T' loc') -> T = T' /\ loc = loc').
Proof.
  unfold same_coord. simpl.
  pose proof (parity_cases loc) as Hp. pose proof (parity_cases loc') as Hp'.
  pose proof (Z.div_mod loc 2 ltac:(lia)) as Hdm.
  pose proof (Z.div_mod loc' 2 ltac:(lia)) as Hdm'.
  unfold Qeq, half. simpl. split; intros (H1 & H2 & H3); lia.
Qed.

Lemma coordinates_injective_witness :
  same_coord (Z_coord 2 5) (Z_coord 2 5) /\ (2 = 2 /\ 5 = 5).
Proof.
  assert (H : same_coord (Z_coord 2 5) (Z_coord 2 5))
    by (repeat split; reflexivity).
  split; [exact H|]. exact (proj2 (coordinates_injective 2 2 5 5) H).
Defined.

(** ** Logical readouts *)











(** ** Lattice readouts *)

Lemma measure_register (dr : QReg) (c : CReg) :
  creg_size c = qreg_size dr ->
  circ_measure (qreg_bits dr) (creg_bits c) = emit (measure_all dr c).
Proof.
  intros Hc. unfold circ_measure, qreg_bits, creg_bits, measure_all.
  rewrite Hc. destruct (decide _) as [_|Hne].
  - by rewrite zip_with_maps.
  - by rewrite !length_map in Hne.
Qed.

(** X20: on a lattice whose data register has [num_data] units, both
    lattice readouts raise nothing; each advances [num_lattice_readout] by
    one, adds a fresh register of [num_data] bits under the key
    "data_readout", measures data unit [i] into bit [i] and ends with a
    barrier; [lattice_readout_x] differs only by one basis change on every
    data unit before the measurements. *)
Theorem lattice_readout_run (q : XXZZQubit) (num_data r0 : Z) (dr : QReg) :
  params (lattice q) !! "num_lattice_readout" = Some r0 ->
  params (lattice q) !! "num_data" = Some num_data ->
  qregisters (lattice q) !! "data" = Some dr -> qreg_size dr = num_data ->
  let c := data_readout_register (name q) num_data (r0 + 1) in
  lattice_readout_z q
  = (inr tt,
     with_register q "num_lattice_readout" (r0 + 1) "data_readout" c
       (measure_all dr c ++ [OpBarrier]))
  /\ lattice_readout_x q
     = (inr tt,
        with_register q "num_lattice_readout" (r0 + 1) "data_readout" c
          (map (fun i => OpH (data_unit dr i)) (py_range num_data)
           ++ measure_all dr c ++ [OpBarrier])).
Proof.
  intros Hr Hnd Hdr Hsd c.
  assert (Hm : circ_measure (qreg_bits dr) (creg_bits c)
               = emit (measure_all dr c))
    by (apply measure_register; by rewrite Hsd).
  destruct q as [nm ci L]. simpl in *.
  split.
  - unfold lattice_readout_z, with_register, m_bind, get_param, set_param,
      set_cregister, get_qregister, get_cregister, m_get, m_modify,
      on_circ, param, qregisters_get.
    simpl. rewrite Hr. simpl.
    rewrite lookup_insert_ne by done. rewrite Hnd. simpl.
    rewrite lookup_insert_eq. simpl. rewrite Hdr. simpl.
    rewrite lookup_insert_eq. simpl.
    fold (data_readout_register nm num_data (r0 + 1)). fold c.
    rewrite Hm. simpl. by rewrite <- app_assoc.
  - unfold lattice_readout_x, with_register, m_bind, get_param, set_param,
      set_cregister, get_qregister, get_cregister, m_get, m_modify,
      on_circ, param, qregisters_get.
    simpl. rewrite Hr. simpl.
    rewrite lookup_insert_ne by done. rewrite Hnd. simpl.
    rewrite lookup_insert_eq. simpl. rewrite Hdr. simpl.
    rewrite lookup_insert_eq. simpl.
    fold (data_readout_register nm num_data (r0 + 1)). fold c.
    rewrite Hm. simpl. unfold qreg_bits. rewrite Hsd, map_map.
    by repeat rewrite <- app_assoc.
Qed.

Lemma lattice_readout_run_witness :
  lattice_readout_z qubit3
  = (inr tt,
     with_register qubit3 "num_lattice_readout" (-1 + 1) "data_readout"
       (data_readout_register "tqubit" 9 (-1 + 1))
       (measure_all data3 (data_readout_register "tqubit" 9 (-1 + 1))
        ++ [OpBarrier]))
  /\ lattice_readout_x qubit3
     = (inr tt,
        with_register qubit3 "num_lattice_readout" (-1 + 1) "data_readout"
          (data_readout_register "tqubit" 9 (-1 + 1))
          (map (fun i => OpH (data_unit data3 i)) (py_range 9)
           ++ measure_all data3 (data_readout_register "tqubit" 9 (-1 + 1))
           ++ [OpBarrier])).
Proof.
  apply (lattice_readout_run qubit3 9 (-1) data3); reflexivity.
Defined.

(** ** Successive readouts *)







(** ** What construction leaves in the dictionaries *)

Lemma odd_square_halves (d : Z) :
  d mod 2 = 1 -> d ^ 2 = 2 * ((d ^ 2 - 1) / 2) + 1 /\ 0 <= (d ^ 2 - 1) / 2.
Proof.
  intros Hodd.
  assert (Hd : d = 2 * (d / 2) + 1) by (pose proof (Z.div_mod d 2); lia).
  set (h := d / 2) in *.
  assert (Hsq : d ^ 2 - 1 = (2 * h * (h + 1)) * 2) by (rewrite Hd; ring).
  rewrite Hsq, Z.div_mul by lia. split; [lia|nia].
Qed.

(** X22: for every accepted dictionary (odd [d] of either sign) construction
    resets the three counters to -1 whatever the caller had stored under
    them, replaces "num_data" and "num_syn", and keeps every other key as
    it was; the stored sizes satisfy [num_data = 2 * num_syn + 1]; exactly
    the four quantum registers "data", "mz", "mx", "ancilla" are made, with
    pairwise distinct names and [2 * d^2] units in all, and no classical
    register. *)
Theorem XXZZLattice_init_accounting (p : gmap string Z) (nm : string) (d : Z) :
  p !! "d" = Some d -> d mod 2 = 1 ->
  exists a dr zr xr ar ns,
    XXZZLattice_init p nm = inr a
    /\ (la_params a !! "T" = Some (-1)
        /\ la_params a !! "num_readout" = Some (-1)
        /\ la_params a !! "num_lattice_readout" = Some (-1))
    /\ (la_params a !! "num_syn" = Some ns /\ 0 <= ns
        /\ la_params a !! "num_data" = Some (2 * ns + 1))
    /\ (forall k,
          k ∉ ["T"; "num_readout"; "num_lattice_readout"; "num_data"; "num_syn"] ->
          la_params a !! k = p !! k)
    /\ (la_qregisters a !! "data" = Some dr /\ la_qregisters a !! "mz" = Some zr
        /\ la_qregisters a !! "mx" = Some xr
        /\ la_qregisters a !! "ancilla" = Some ar)
    /\ (forall k r, la_qregisters a !! k = Some r ->
          k ∈ ["data"; "mz"; "mx"; "ancilla"])
    /\ qreg_size dr + qreg_size zr + qreg_size xr + qreg_size ar = 2 * d ^ 2
    /\ NoDup [qreg_name dr; qreg_name zr; qreg_name xr; qreg_name ar]
    /\ la_cregisters a = ∅
    /\ la_name a = nm.
Proof.
  intros Hd Hodd. destruct (odd_square_halves d Hodd) as [Hsq Hns].
  unfold XXZZLattice_init. rewrite Hd.
  destruct (decide (d mod 2 <> 1)) as [Hn|_]; [contradiction|].
  unfold param. simplify_map_eq. do 5 eexists. exists ((d ^ 2 - 1) / 2).
  split; [reflexivity|]. simpl.
  split; [by simplify_map_eq|].
  split; [simplify_map_eq; repeat split; [done|by rewrite <- Hsq]|].
  split.
  { intros k Hk. rewrite !lookup_insert_ne; [done|..];
      intros <-; apply Hk; set_solver. }
  split; [by simplify_map_eq|].
  split.
  { intros k r Hk.
    destruct (decide (k = "ancilla")) as [->|?]; [set_solver|].
    destruct (decide (k = "mx")) as [->|?]; [set_solver|].
    destruct (decide (k = "mz")) as [->|?]; [set_solver|].
    destruct (decide (k = "data")) as [->|?]; [set_solver|].
    by simplify_map_eq. }
  split; [simpl; lia|].
  split; [|done]. simpl.
  assert (Hne : forall s t : string, s <> t -> nm +:+ s <> nm +:+ t).
  { intros s t Hst E. by apply str_app_inv_head in E. }
  repeat constructor; rewrite ?not_elem_of_cons; repeat split;
    try apply Hne; try done; apply not_elem_of_nil.
Qed.

Lemma XXZZLattice_init_accounting_witness :
  exists a dr zr xr ar ns,
    XXZZLattice_init {[ "d" := -3; "T" := 7; "shots" := 100 ]} "tqubit" = inr a
    /\ (la_params a !! "T" = Some (-1)
        /\ la_params a !! "num_readout" = Some (-1)
        /\ la_params a !! "num_lattice_readout" = Some (-1))
    /\ (la_params a !! "num_syn" = Some ns /\ 0 <= ns
        /\ la_params a !! "num_data" = Some (2 * ns + 1))
    /\ (forall k,
          k ∉ ["T"; "num_readout"; "num_lattice_readout"; "num_data"; "num_syn"] ->
          la_params a !! k
          = ({[ "d" := -3; "T" := 7; "shots" := 100 ]} : gmap string Z) !! k)
    /\ (la_qregisters a !! "data" = Some dr /\ la_qregisters a !! "mz" = Some zr
        /\ la_qregisters a !! "mx" = Some xr
        /\ la_qregisters a !! "ancilla" = Some ar)
    /\ (forall k r, la_qregisters a !! k = Some r ->
          k ∈ ["data"; "mz"; "mx"; "ancilla"])
    /\ qreg_size dr + qreg_size zr + qreg_size xr + qreg_size ar = 2 * (-3) ^ 2
    /\ NoDup [qreg_name dr; qreg_name zr; qreg_name xr; qreg_name ar]
    /\ la_cregisters a = ∅
    /\ la_name a = "tqubit".
Proof.
  apply (XXZZLattice_init_accounting
           {[ "d" := -3; "T" := 7; "shots" := 100 ]} "tqubit" (-3));
    reflexivity.
Defined.
